(** * Sandia flame-D validation script ([valid/sandia_valid/valid.py])

    A shallow embedding of the field batching, the loader and the
    validator of [valid.py], and the properties of its specification
    checked against it.

    - Python [float] and numpy [float64] values are IEEE-754 binary64
      numbers, modelled by [spec_float] at precision 53 and exponent
      bound 1024 (no NaN payload).
    - A numpy 2-d array is a [matrix]: its column count and its rows.
    - Python exceptions are an explicit [outcome]. *)

From Stdlib Require Import ZArith List Bool Lia String Ascii.
From Stdlib Require Import Floats.SpecFloat.
From Stdlib Require Import Sorting.Sorted.
From Stdlib Require Import Structures.OrderedTypeEx.
From Stdlib Require Import DecimalString.
From Equations Require Import Equations.
Import ListNotations.

Set Implicit Arguments.

(** ** Exceptions *)

Inductive exn : Type :=
| FileNotFoundError
| ValueError
| KeyError
| IndexError
| TypeError
| StopIteration.

Inductive outcome (A : Type) : Type :=
| Ok (a : A)
| Raise (e : exn).

Arguments Ok {A} a.
Arguments Raise {A} e.

Definition bind {A B : Type} (m : outcome A) (k : A -> outcome B) : outcome B :=
  match m with
  | Ok a => k a
  | Raise e => Raise e
  end.

Notation "x <- m ;; k" := (bind m (fun x => k))
  (at level 61, m at next level, right associativity).

(** ** binary64 arithmetic *)

Module F64.

Definition t : Type := spec_float.

Definition prec : Z := 53.
Definition emax : Z := 1024.

Definition add : t -> t -> t := SFadd prec emax.
Definition sub : t -> t -> t := SFsub prec emax.
Definition mul : t -> t -> t := SFmul prec emax.
Definition div : t -> t -> t := SFdiv prec emax.
Definition sqrt : t -> t := SFsqrt prec emax.
Definition abs : t -> t := SFabs.
Definition eqb : t -> t -> bool := SFeqb.
Definition leb : t -> t -> bool := SFleb.

Definition zero : t := S754_zero false.

(** An integer converted to the nearest binary64 number. *)
Definition of_Z (z : Z) : t := binary_normalize prec emax z 0 false.

Definition of_nat (n : nat) : t := of_Z (Z.of_nat n).

(** The decimal literal [num/den] rounded to the nearest binary64
    number, as Python reads [1e-300] or [5000.01]. *)
Definition of_ratio (num den : positive) : t :=
  let '(mz, ez, lz) := SFdiv_core_binary prec emax (Zpos num) 0 (Zpos den) 0 in
  binary_round_aux prec emax false mz ez lz.

Definition is_nan (x : t) : bool :=
  match x with S754_nan => true | _ => false end.

(** numpy's [isfinite]. *)
Definition is_finite (x : t) : bool :=
  match x with
  | S754_zero _ | S754_finite _ _ _ => true
  | _ => false
  end.

(** A value a binary64 variable can really hold: the mantissa and the
    exponent of a finite number are in range. *)
Definition valid (x : t) : bool := valid_binary prec emax x.

(** Structural equality, used where Python compares by identity. *)
Definition same (x y : t) : bool :=
  match x, y with
  | S754_zero a, S754_zero b => Bool.eqb a b
  | S754_infinity a, S754_infinity b => Bool.eqb a b
  | S754_nan, S754_nan => true
  | S754_finite a m e, S754_finite b n f =>
      Bool.eqb a b && Pos.eqb m n && Z.eqb e f
  | _, _ => false
  end.

(** numpy's [maximum], which the [max] reduction folds: it keeps the
    left operand when it is the larger one or a NaN. *)
Definition maximum (a b : t) : t :=
  if leb b a || is_nan a then a else b.

End F64.

(** ** Field batching *)

Open Scope string_scope.
Open Scope list_scope.

(** [req_fields = set(['U', 'alphat', 'nut', 'k', 'epsilon', 'G'])] *)
Definition req_fields : list string :=
  ["U"; "alphat"; "nut"; "k"; "epsilon"; "G"].

(** Python's [set(l)] keeps one copy of every element; its order is
    not observable here because every use is followed by [sorted]. *)
Definition py_set (l : list string) : list string := nodup string_dec l.

Definition set_union (a b : list string) : list string :=
  nodup string_dec (a ++ b).

Definition set_diff (a b : list string) : list string :=
  filter (fun x => negb (existsb (String.eqb x) b)) a.

Fixpoint insert_sorted (x : string) (l : list string) : list string :=
  match l with
  | [] => [x]
  | y :: l' => if String.leb x y then x :: l else y :: insert_sorted x l'
  end.

(** [sorted(s)] on strings: ascending code-point order. *)
Definition sorted (l : list string) : list string :=
  fold_right insert_sorted [] l.

(** [_make_full_fields(fields, for_extract)] *)
Definition _make_full_fields (fields : list string) (for_extract : bool)
  : list string :=
  let subtract := if for_extract then [] else ["U"] in
  sorted (set_diff (set_union req_fields (py_set fields)) subtract).

Fixpoint join (sep : string) (l : list string) : string :=
  match l with
  | [] => ""
  | [x] => x
  | x :: l' => (x ++ sep ++ join sep l')%string
  end.

(** [_make_fields(fields, for_extract)] *)
Definition _make_fields (fields : list string) (for_extract : bool) : string :=
  let f := _make_full_fields fields for_extract in
  if for_extract then ("(" ++ join " " f ++ ")")%string else join "_" f.

(** [_field_iter(fields, for_extract)]: the generator's yields, in
    order.  The flag is accepted and never read, as in the source. *)
Equations? _field_iter {A : Type} (fields : list A) (for_extract : bool)
  : list (list A) by wf (List.length fields) lt :=
  _field_iter [] _ := [];
  _field_iter (x :: l) b :=
    let fl_len := Nat.min 10 (List.length (x :: l)) in
    firstn fl_len (x :: l) :: _field_iter (skipn fl_len (x :: l)) b.
Proof.
  rewrite length_skipn. simpl. lia.
Qed.

Fixpoint index_of (x : string) (l : list string) : option nat :=
  match l with
  | [] => None
  | y :: l' => if String.eqb x y then Some 0
               else match index_of x l' with
                    | Some i => Some (S i)
                    | None => None
                    end
  end.

(** [_field_index(field, fields, for_extract)]; [list.index] raises
    [ValueError] when the field is absent. *)
Definition _field_index (field : string) (fields : list string)
  (for_extract : bool) : outcome nat :=
  match index_of field (_make_full_fields fields for_extract) with
  | Some i => Ok i
  | None => Raise ValueError
  end.

(** [_num_fields(fields, for_extract)] *)
Definition _num_fields (fields : list string) (for_extract : bool) : nat :=
  List.length (_make_full_fields fields for_extract).


(** ** numpy arrays *)

(** A 2-d [float64] array of shape [(nrows, ncols)].  The column count
    is kept apart from the rows so that an array without rows still
    has a shape. *)
Record matrix : Type := Matrix {
  ncols : nat;
  rows : list (list F64.t)
}.

Definition nrows (m : matrix) : nat := List.length (rows m).

Definition wf_matrix (m : matrix) : Prop :=
  Forall (fun r => List.length r = ncols m) (rows m).

Fixpoint mapM {A B : Type} (f : A -> outcome B) (l : list A)
  : outcome (list B) :=
  match l with
  | [] => Ok []
  | x :: l' => y <- f x ;; ys <- mapM f l' ;; Ok (y :: ys)
  end.

Fixpoint chunk_rows {A : Type} (n k : nat) (l : list A) : list (list A) :=
  match n with
  | O => []
  | S n' => firstn k l :: chunk_rows n' k (skipn k l)
  end.

(** [flat.reshape((-1, k))] *)
Definition reshape (flat : list F64.t) (k : nat) : outcome matrix :=
  if Nat.eqb k 0 then Raise ValueError
  else if Nat.eqb (List.length flat mod k) 0
       then Ok (Matrix k (chunk_rows (List.length flat / k) k flat))
       else Raise ValueError.

(** [m[:, indicies]] for an index array built from a list; an empty
    list makes a float array, which numpy refuses as an index. *)
Definition take_cols (m : matrix) (indicies : list nat) : outcome matrix :=
  match indicies with
  | [] => Raise IndexError
  | _ =>
      if forallb (fun i => Nat.ltb i (ncols m)) indicies
      then Ok (Matrix (List.length indicies)
                 (map (fun r => map (fun i => nth i r F64.zero) indicies) (rows m)))
      else Raise IndexError
  end.

(** [m[:, j]] *)
Definition column (m : matrix) (j : nat) : outcome (list F64.t) :=
  if Nat.ltb j (ncols m)
  then Ok (map (fun r => nth j r F64.zero) (rows m))
  else Raise IndexError.

(** [np.expand_dims(v, 1)] *)
Definition expand_dims (v : list F64.t) : matrix :=
  Matrix 1 (map (fun x => [x]) v).

Fixpoint map2 {A B C : Type} (f : A -> B -> C) (l : list A) (l' : list B)
  : list C :=
  match l, l' with
  | x :: t, y :: t' => f x y :: map2 f t t'
  | _, _ => []
  end.

(** [np.hstack((a, b))] *)
Definition hstack (a b : matrix) : outcome matrix :=
  if Nat.eqb (nrows a) (nrows b)
  then Ok (Matrix (ncols a + ncols b) (map2 (@app F64.t) (rows a) (rows b)))
  else Raise ValueError.

(** [m[:, 1:]] *)
Definition drop_col0 (m : matrix) : matrix :=
  Matrix (ncols m - 1) (map (skipn 1) (rows m)).

(** The length two dimensions broadcast to, when they are compatible. *)
Definition bdim (a b : nat) : option nat :=
  if Nat.eqb a b then Some a
  else if Nat.eqb a 1 then Some b
  else if Nat.eqb b 1 then Some a
  else None.

Definition stretch {A : Type} (n : nat) (l : list A) : list A :=
  match l with
  | [x] => repeat x n
  | _ => l
  end.

(** An elementwise binary operation with numpy's broadcasting. *)
Definition broadcast2 (op : F64.t -> F64.t -> F64.t) (a b : matrix)
  : outcome matrix :=
  match bdim (nrows a) (nrows b), bdim (ncols a) (ncols b) with
  | Some r, Some c =>
      Ok (Matrix c
            (map2 (fun ra rb => map2 op (stretch c ra) (stretch c rb))
               (stretch r (rows a)) (stretch r (rows b))))
  | _, _ => Raise ValueError
  end.

Definition map_matrix (f : F64.t -> F64.t) (m : matrix) : matrix :=
  Matrix (ncols m) (map (map f) (rows m)).

(** [v.max()] of a 1-d array: no identity, so an empty one is refused. *)
Definition max_reduce (v : list F64.t) : outcome F64.t :=
  match v with
  | [] => Raise ValueError
  | x :: v' => Ok (fold_left F64.maximum v' x)
  end.

(** [np.linalg.norm(v, ord=np.inf, axis=0)] of a 1-d array:
    [abs(v).max()]. *)
Definition norm_inf (v : list F64.t) : outcome F64.t :=
  max_reduce (map F64.abs v).

(** [np.linalg.norm(m, ord=np.inf, axis=1)]: [abs(m).max(axis=1)]. *)
Definition norm_inf_rows (m : matrix) : outcome (list F64.t) :=
  if Nat.eqb (ncols m) 0 then Raise ValueError
  else mapM norm_inf (rows m).

(** [np.add.reduce(v)], accumulated from the left.  numpy adds long
    rows by blocks; the order of the additions only shows in the last
    bits of a sum of non-zero terms. *)
Definition add_reduce (v : list F64.t) : F64.t :=
  match v with
  | [] => F64.zero
  | x :: v' => fold_left F64.add v' x
  end.

(** [np.linalg.norm(v, ord=2, axis=0)] of a 1-d array:
    [sqrt(add.reduce(v * v))]. *)
Definition norm_2 (v : list F64.t) : F64.t :=
  F64.sqrt (add_reduce (map (fun x => F64.mul x x) v)).

(** [np.linalg.norm(m, ord=2, axis=1)] *)
Definition norm_2_rows (m : matrix) : list F64.t := map norm_2 (rows m).

(** [np.where(x == m)[1]]: the column indices of the entries equal to
    [x], in row-major order. *)
Definition where_cols (x : F64.t) (m : matrix) : list nat :=
  flat_map (fun r =>
    map fst (filter (fun jv => F64.eqb x (snd jv))
               (combine (seq 0 (List.length r)) r))) (rows m).

(** ** Time matching *)

(** Times are binary64 values: the directory names go through
    [float], and a requested time is a float or an integer that
    converts to binary64 without rounding, which [np.isclose], sets
    and dicts treat as its conversion.  An integer that [float]
    rounds (they begin above 2^53) is outside this model. *)

(** [1e-10], the value of both [atol] and [rtol]. *)
Definition tol_1e_10 : F64.t := F64.of_ratio 1 (10 ^ 10).

(** [abs(x - y) <= atol + rtol * abs(y)] *)
Definition within_tol (x y atol rtol : F64.t) : bool :=
  F64.leb (F64.abs (F64.sub x y)) (F64.add atol (F64.mul rtol (F64.abs y))).

(** numpy's [isclose(a, b, rtol, atol)] on scalars, [equal_nan] off:
    the tolerance test where both are finite, and [a == b] elsewhere. *)
Definition np_isclose (a b rtol atol : F64.t) : bool :=
  if F64.is_finite a && F64.is_finite b
  then within_tol a b atol rtol
  else F64.eqb a b.

(** [_timecheck(t1, t2)] *)
Definition _timecheck (t1 t2 : F64.t) : bool :=
  np_isclose t1 t2 tol_1e_10 tol_1e_10.

(** ** Python sets and dicts *)

(** Key equality of sets and dicts: identity, then [==]. *)
Definition key_eq (x y : F64.t) : bool := F64.same x y || F64.eqb x y.

Definition time_set : Type := list F64.t.

Definition set_add (x : F64.t) (s : time_set) : time_set :=
  if existsb (key_eq x) s then s else s ++ [x].

(** [set(timelist)] *)
Definition set_of_list (l : list F64.t) : time_set :=
  fold_left (fun s x => set_add x s) l [].

(** A dict as its items in insertion order. *)
Definition dict (K V : Type) : Type := list (K * V).

Section Dict.
Context {K V : Type}.
Variable eqb : K -> K -> bool.

Fixpoint dict_get (k : K) (d : dict K V) : option V :=
  match d with
  | [] => None
  | (k', v) :: d' => if eqb k' k then Some v else dict_get k d'
  end.

(** [d[k] = v]: an existing key keeps its place. *)
Fixpoint dict_set (k : K) (v : V) (d : dict K V) : dict K V :=
  match d with
  | [] => [(k, v)]
  | (k', v') :: d' =>
      if eqb k' k then (k', v) :: d' else (k', v') :: dict_set k v d'
  end.

(** [del d[k]] *)
Fixpoint dict_del (k : K) (d : dict K V) : dict K V :=
  match d with
  | [] => []
  | (k', v') :: d' =>
      if eqb k' k then d' else (k', v') :: dict_del k d'
  end.

End Dict.

(** What a results slot holds: [composite_fields] is [None] until the
    first batch is read. *)
Definition snapshots : Type := dict F64.t (option matrix).
Definition results_t : Type := dict string snapshots.

(** ** The directory tree the loader walks *)

(** An entry of [<case>/postProcessing/extractAxial]. *)
Record time_dir : Type := TimeDir {
  td_name : string;                      (* the entry's name *)
  td_isdir : bool;                       (* [os.path.isdir] *)
  td_time : option F64.t;                (* [float(name)]; [None]: not a number *)
  td_files : dict string (list F64.t)    (* file name to the numbers [np.fromfile] reads *)
}.

(** An entry of the working directory. *)
Record case_dir : Type := CaseDir {
  cd_name : string;
  cd_isdir : bool;
  cd_times : option (list time_dir)      (* [None]: the output directory is missing *)
}.

(** [valid(home)] with the default empty [caselist]: the directories
    among [os.listdir(home)]. *)
Definition valid (home : list case_dir) : list case_dir :=
  filter cd_isdir home.

(** [times(case)]: [os.listdir] raises when the path is missing.  A
    path that exists is taken to be a directory that can be listed. *)
Definition times (case : case_dir) : outcome (list time_dir) :=
  match cd_times case with
  | None => Raise FileNotFoundError
  | Some l => Ok (filter td_isdir l)
  end.

(** [np.fromfile(os.path.join(time, name), sep='\n')].  A path that
    exists is taken to be a file that can be read. *)
Definition fromfile (time : time_dir) (name : string) : outcome (list F64.t) :=
  match dict_get String.eqb name (td_files time) with
  | Some flat => Ok flat
  | None => Raise FileNotFoundError
  end.

(** ** The loader *)

(** ['line_{}.xy'.format(_make_fields(f, for_extract=False))] *)
Definition batch_file (f : list string) : string :=
  ("line_" ++ _make_fields f false ++ ".xy")%string.

(** An element of the index array of a batch:
    [1 + _field_index(x, f, for_extract=False)]. *)
Definition batch_index (f : list string) (x : string) : outcome nat :=
  i <- _field_index x f false ;; Ok (1 + i).

(** The body of the batch loop of [load] for one batch [f]. *)
Definition load_batch (time : time_dir) (composite_fields : option matrix)
  (f : list string) : outcome (option matrix) :=
  flat <- fromfile time (batch_file f) ;;
  vals <- reshape flat (_num_fields f false + 1) ;;
  indicies <- mapM (batch_index f) f ;;
  svals <- take_cols vals indicies ;;
  match composite_fields with
  | None =>
      pos <- column vals 0 ;;
      m <- hstack (expand_dims pos) svals ;;
      Ok (Some m)
  | Some c =>
      m <- hstack c svals ;;
      Ok (Some m)
  end.

Fixpoint load_batches (time : time_dir) (composite_fields : option matrix)
  (batches : list (list string)) : outcome (option matrix) :=
  match batches with
  | [] => Ok composite_fields
  | f :: rest =>
      c <- load_batch time composite_fields f ;;
      load_batches time c rest
  end.

(** The matrix of one time directory: the batch loop of [load]. *)
Definition assemble (fields : list string) (time : time_dir)
  : outcome (option matrix) :=
  load_batches time None (_field_iter fields false).

(** The loader's mutable state: [timev] and [results]. *)
Definition load_state : Type := (time_set * results_t)%type.

(** [results[nicecase][nice_t] = composite_fields] *)
Definition store (nicecase : string) (nice_t : F64.t) (c : option matrix)
  (results : results_t) : outcome results_t :=
  match dict_get String.eqb nicecase results with
  | None => Raise KeyError
  | Some snaps =>
      Ok (dict_set String.eqb nicecase (dict_set key_eq nice_t c snaps) results)
  end.

(** The loop over [times(case)].  The state reached is returned with
    the exception that stopped the loop, if any. *)
Fixpoint load_times (fields : list string) (timelist : list F64.t)
  (nicecase : string) (tds : list time_dir) (st : load_state)
  : load_state * option exn :=
  match tds with
  | [] => (st, None)
  | time :: rest =>
      match td_time time with
      | None => (st, Some ValueError)
      | Some t =>
          if negb (Nat.eqb (List.length timelist) 0)
             && negb (existsb (fun x => _timecheck x t) timelist)
          then load_times fields timelist nicecase rest st
          else
            match assemble fields time with
            | Raise e => (st, Some e)
            | Ok composite_fields =>
                match find (fun x => _timecheck x t) timelist with
                | None => (st, Some StopIteration)
                | Some nice_t =>
                    match store nicecase nice_t composite_fields (snd st) with
                    | Raise e => (st, Some e)
                    | Ok results =>
                        load_times fields timelist nicecase rest
                          (set_add nice_t (fst st), results)
                    end
                end
            end
      end
  end.

(** [if not results[nicecase]: del results[nicecase]] *)
Definition drop_if_empty (nicecase : string) (results : results_t)
  : results_t :=
  match dict_get String.eqb nicecase results with
  | Some [] => dict_del String.eqb nicecase results
  | _ => results
  end.

(** The body of the loop over cases: only [FileNotFoundError] is
    caught. *)
Definition load_case (fields : list string) (timelist : list F64.t)
  (st : load_state) (case : case_dir) : load_state * option exn :=
  let nicecase := cd_name case in
  let st0 := (fst st, dict_set String.eqb nicecase [] (snd st)) in
  let '(st1, e) :=
    match times case with
    | Raise e => (st0, Some e)
    | Ok tds => load_times fields timelist nicecase tds st0
    end in
  match e with
  | None | Some FileNotFoundError =>
      ((fst st1, drop_if_empty nicecase (snd st1)), None)
  | Some e' => (st1, Some e')
  end.

Fixpoint load_cases (fields : list string) (timelist : list F64.t)
  (cases : list case_dir) (st : load_state) : load_state * option exn :=
  match cases with
  | [] => (st, None)
  | case :: rest =>
      match load_case fields timelist st case with
      | (st', None) => load_cases fields timelist rest st'
      | (st', Some e) => (st', Some e)
      end
  end.

(** [load(fields, timelist)] in the working directory [home]. *)
Definition load (home : list case_dir) (fields : list string)
  (timelist : list F64.t) : outcome (time_set * results_t) :=
  match load_cases fields timelist (valid home) (set_of_list timelist, []) with
  | (st, None) => Ok st
  | (_, Some e) => Raise e
  end.

(** ** The validator *)

(** [1e-300], the floor under the baseline's magnitude. *)
Definition eps_1e_300 : F64.t := F64.of_ratio 1 (10 ^ 300).

Definition hundred : F64.t := F64.of_Z 100.

(** What [validate] prints. *)
Inductive line : Type :=
| MaxTemperatureError (T_err : F64.t)
| MaxPressureError (p_err : F64.t)
| RelError (case : string) (time : F64.t)
    (rel_err_inf rel_err_mean : F64.t) (field : string).

(** A slot used as an array: [None[:, 1:]] is a [TypeError]. *)
Definition as_array (slot : option matrix) : outcome matrix :=
  match slot with
  | Some m => Ok m
  | None => Raise TypeError
  end.

(** [np.abs(comp[:, 1:] - test[:, 1:]) / (1e-300 + np.abs(comp[:, 1:]))] *)
Definition rel_diff (comp test : option matrix) : outcome matrix :=
  c <- as_array comp ;;
  t <- as_array test ;;
  num <- broadcast2 F64.sub (drop_col0 c) (drop_col0 t) ;;
  broadcast2 F64.div (map_matrix F64.abs num)
    (map_matrix (fun x => F64.add eps_1e_300 (F64.abs x)) (drop_col0 c)).

(** [np.linalg.norm(np.linalg.norm(diff, ord=np.inf, axis=1),
    ord=np.inf, axis=0)], before the scaling to a percentage. *)
Definition max_of_max (diff : matrix) : outcome F64.t :=
  v <- norm_inf_rows diff ;;
  norm_inf v.

(** [rel_err_mean] *)
Definition mean_err (diff : matrix) : F64.t :=
  F64.div
    (F64.mul
       (norm_2 (map (fun x => F64.div x (F64.of_nat (ncols diff)))
                  (norm_2_rows diff)))
       hundred)
    (F64.of_nat (nrows diff)).

(** The error of one named field, when it is among [fields]:
    [np.linalg.norm(diff[:, ind], ord=np.inf, axis=0) * 100.] *)
Definition field_err (fields : list string) (name : string) (diff : matrix)
  : outcome (option F64.t) :=
  match index_of name fields with
  | None => Ok None
  | Some ind =>
      col <- column diff ind ;;
      n <- norm_inf col ;;
      Ok (Some (F64.mul n hundred))
  end.

(** What the summary line's last argument evaluates to:
    [fields[loc[1][0]]]. *)
Definition max_field (fields : list string) (loc1 : list nat)
  : outcome string :=
  match loc1 with
  | [] => Raise IndexError
  | j :: _ =>
      match nth_error fields j with
      | Some f => Ok f
      | None => Raise IndexError
      end
  end.

Definition opt_line (mk : F64.t -> line) (v : option F64.t) : list line :=
  match v with
  | Some x => [mk x]
  | None => []
  end.

(** The body of the loop over cases of [validate], from [test = ...]
    on: the lines printed and the exception raised, if any. *)
Definition compare_case (fields : list string) (case : string) (time : F64.t)
  (comp test : option matrix) : list line * option exn :=
  match (diff <- rel_diff comp test ;;
         m <- max_of_max diff ;;
         Ok (diff, m)) with
  | Raise e => ([], Some e)
  | Ok (diff, m) =>
      let loc1 := where_cols m diff in
      let rel_err_inf := F64.mul m hundred in
      let rel_err_mean := mean_err diff in
      match field_err fields "T" diff with
      | Raise e => ([], Some e)
      | Ok T_err =>
          let out1 := opt_line MaxTemperatureError T_err in
          match field_err fields "p" diff with
          | Raise e => (out1, Some e)
          | Ok p_err =>
              let out2 := out1 ++ opt_line MaxPressureError p_err in
              match max_field fields loc1 with
              | Raise e => (out2, Some e)
              | Ok f =>
                  (out2 ++ [RelError case time rel_err_inf rel_err_mean f],
                   None)
              end
          end
      end
  end.

(** The loop over the cases of [results] for one [time]. *)
Fixpoint validate_cases (fields : list string) (base : string)
  (time : F64.t) (comp : option matrix) (cases : results_t)
  : list line * option exn :=
  match cases with
  | [] => ([], None)
  | (case, snaps) :: rest =>
      if String.eqb case base
      then validate_cases fields base time comp rest
      else
        match dict_get key_eq time snaps with
        | None => validate_cases fields base time comp rest
        | Some test =>
            match compare_case fields case time comp test with
            | (out, Some e) => (out, Some e)
            | (out, None) =>
                let '(out', e) := validate_cases fields base time comp rest in
                (out ++ out', e)
            end
        end
  end.

(** [comp = results[base][time]] *)
Definition baseline (results : results_t) (base : string) (time : F64.t)
  : outcome (option matrix) :=
  match dict_get String.eqb base results with
  | None => Raise KeyError
  | Some snaps =>
      match dict_get key_eq time snaps with
      | None => Raise KeyError
      | Some comp => Ok comp
      end
  end.

(** [validate(times, results, fields, base)]: the lines printed and
    the exception that ended the run, if any. *)
Fixpoint validate (times : list F64.t) (results : results_t)
  (fields : list string) (base : string) : list line * option exn :=
  match times with
  | [] => ([], None)
  | time :: rest =>
      match baseline results base time with
      | Raise e => ([], Some e)
      | Ok comp =>
          match validate_cases fields base time comp results with
          | (out, Some e) => (out, Some e)
          | (out, None) =>
              let '(out', e) := validate rest results fields base in
              (out ++ out', e)
          end
      end
  end.

(** The default of [validate]'s [base] argument. *)
Definition default_base : string := "SandiaD_LTS".

(** ** What the specification calls the canonical full field list *)

(** The order of [sorted] on field names. *)
Definition str_le (a b : string) : Prop := String.leb a b = true.

(** The required fields united with the requested ones, without the
    velocity when not extracting, in ascending order. *)
Definition canonical_full_list (fields : list string) (for_extract : bool)
  (l : list string) : Prop :=
  Sorted str_le l
  /\ NoDup l
  /\ forall x, In x l <->
       (In x req_fields \/ In x fields) /\ (for_extract = false -> x <> "U").

(** ** Cases the loader leaves without a snapshot *)

(** A case none of whose time directories is read to the end: its
    output directory is missing, or holds no time directory, or the
    first one lacks a sampled file. *)
Definition abandoned (fields : list string) (case : case_dir) : Prop :=
  times case = Raise FileNotFoundError
  \/ times case = Ok []
  \/ exists time rest t,
       times case = Ok (time :: rest)
       /\ td_time time = Some t
       /\ assemble fields time = Raise FileNotFoundError.

(** ** Shapes *)

(** An array of [r] rows and [c] columns. *)
Definition shaped (r c : nat) (m : matrix) : Prop :=
  nrows m = r /\ ncols m = c /\ wf_matrix m.

(** Every batch of [fields] has its file under [time], holding [r]
    rows of the position and the batch's canonical fields. *)
Definition sampled (fields : list string) (time : time_dir) (r : nat) : Prop :=
  forall f, In f (_field_iter fields false) ->
    exists flat, fromfile time (batch_file f) = Ok flat
                 /\ List.length flat = r * (_num_fields f false + 1).

(** The position column a batch file holds: column 0 of its rows. *)
Definition position_column (f : list string) (flat : list F64.t)
  : list F64.t :=
  map (fun row => nth 0 row F64.zero)
    (chunk_rows (List.length flat / (_num_fields f false + 1))
       (_num_fields f false + 1) flat).

(** ** Signs and zero matrices *)

(** A strictly positive number or plus infinity: what a zero can be
    divided by to give plus zero. *)
Definition is_pos (x : F64.t) : bool :=
  match x with
  | S754_finite false _ _ | S754_infinity false => true
  | _ => false
  end.

(** A number a sampled file can hold and the error metric is meant
    for: finite, with mantissa and exponent in the binary64 range. *)
Definition regular (x : F64.t) : Prop :=
  F64.is_finite x = true /\ F64.valid x = true.

(** The [r] by [c] array of zeros. *)
Definition zeros (r c : nat) : matrix :=
  Matrix c (repeat (repeat F64.zero c) r).

(** ** What the loader leaves in its state *)

(** Every case of a results collection has a snapshot. *)
Definition nonempty_cases (results : results_t) : Prop :=
  Forall (fun e : string * snapshots => snd e <> []) results.

(** Snapshots stored under requested times only. *)
Definition requested_keys (timelist : list F64.t) (snaps : snapshots) : Prop :=
  forall t c, In (t, c) snaps -> In t timelist.

Definition keyed_by (timelist : list F64.t) (results : results_t) : Prop :=
  Forall (fun e : string * snapshots => requested_keys timelist (snd e))
    results.

(** What holds of the loader's state between two cases. *)
Definition between_cases (timelist : list F64.t) (st : load_state) : Prop :=
  fst st = set_of_list timelist
  /\ nonempty_cases (snd st)
  /\ keyed_by timelist (snd st).

(** What [validate] prints for a comparison without any error. *)
Definition zero_report (fields : list string) (case : string) (time : F64.t)
  (f : string) : list line :=
  opt_line MaxTemperatureError
    (option_map (fun _ => F64.zero) (index_of "T" fields))
  ++ opt_line MaxPressureError
       (option_map (fun _ => F64.zero) (index_of "p" fields))
  ++ [RelError case time F64.zero F64.zero f].

(** ** Sample inputs *)

Definition t5000 : F64.t := F64.of_Z 5000.
Definition t6000 : F64.t := F64.of_Z 6000.

(** [5000.0000001], within tolerance of [5000]. *)
Definition t5000_0000001 : F64.t := F64.of_ratio 50000000001 10000000.

(** [5000.01], the second default of the command line. *)
Definition t5000_01 : F64.t := F64.of_ratio 500001 100.

(** A sampled line of two points for the fields [T] and [p]: each row
    is the position, then [G T alphat epsilon k nut p]. *)
Definition line_T_p : list F64.t :=
  map F64.of_Z [0; 1; 300; 2; 3; 4; 5; 100000;
                1; 1; 310; 2; 3; 4; 5; 101000]%Z.

Definition files_T_p : dict string (list F64.t) :=
  [("line_G_T_alphat_epsilon_k_nut_p.xy", line_T_p)].

Definition dir_5000 : time_dir := TimeDir "5000" true (Some t5000) files_T_p.
Definition dir_6000 : time_dir := TimeDir "6000" true (Some t6000) files_T_p.
Definition dir_5000_0000001 : time_dir :=
  TimeDir "5000.0000001" true (Some t5000_0000001) files_T_p.

(** A time directory whose sampled files were never written. *)
Definition dir_unsampled : time_dir := TimeDir "5000" true (Some t5000) [].

Definition matrix_T_p : matrix :=
  Matrix 3 [map F64.of_Z [0; 300; 100000]%Z; map F64.of_Z [1; 310; 101000]%Z].

(** A working directory whose only case has one unsampled time
    directory. *)
Definition home_unsampled : list case_dir :=
  [CaseDir "SandiaD_LTS" true (Some [dir_unsampled])].

Definition home_sampled : list case_dir :=
  [CaseDir "notes.txt" false None;
   CaseDir "SandiaD_LTS_old" true None;
   CaseDir "SandiaD_LTS" true (Some [dir_5000; dir_6000])].

(** A case sampled at [5000.0000001] and at [6000]. *)
Definition home_discovered : list case_dir :=
  [CaseDir "SandiaD_LTS" true (Some [dir_5000_0000001; dir_6000])].

(** The candidate of the specification's scenario, against the
    baseline [matrix_T_p]. *)
Definition matrix_T_p_candidate : matrix :=
  Matrix 3 [map F64.of_Z [0; 303; 100000]%Z; map F64.of_Z [1; 310; 102010]%Z].

Definition scenario_results : results_t :=
  [("SandiaD_LTS", [(t5000, Some matrix_T_p)]);
   ("SandiaD_LTS_seulex", [(t5000, Some matrix_T_p_candidate)])].

Definition one : F64.t := F64.of_Z 1.

(** [0.01] *)
Definition one_hundredth : F64.t := F64.of_ratio 1 100.

(** The mean relative error of the scenario, [0.3535533905932738]. *)
Definition scenario_mean : F64.t := S754_finite false 6369051672525773 (-54).

(** Results in which the baseline has no snapshot at [6000] while
    another case has one. *)
Definition results_baseline_gap : results_t :=
  [("SandiaD_LTS", [(t5000, Some matrix_T_p)]);
   ("SandiaD_LTS_seulex",
    [(t5000, Some matrix_T_p_candidate); (t6000, Some matrix_T_p_candidate)])].

(** Results from which the baseline was dropped for lack of any
    snapshot. *)
Definition results_no_baseline : results_t :=
  [("SandiaD_LTS_seulex", [(t5000, Some matrix_T_p_candidate)])].

(** Results in which only the candidate lacks the time [5000]. *)
Definition results_candidate_gap : results_t :=
  [("SandiaD_LTS", [(t5000, Some matrix_T_p)]);
   ("SandiaD_LTS_seulex", [(t6000, Some matrix_T_p_candidate)])].

(** The matrix of a time directory whose sampled files are empty: no
    row, three columns. *)
Definition matrix_no_rows : matrix := Matrix 3 [].

(** A matrix whose temperature is not a number at the first point. *)
Definition matrix_nan : matrix :=
  Matrix 3 [[F64.of_Z 0; S754_nan; F64.of_Z 100000];
            [F64.of_Z 1; F64.of_Z 310; F64.of_Z 101000]].

(** ** Further predicates *)

(** What a rounded product or sum of sign [s] can be: never a NaN, and
    a finite one never below the smallest exponent. *)
Definition rounded_with_sign (s : bool) (x : F64.t) : Prop :=
  match x with
  | S754_zero s' | S754_infinity s' => s' = s
  | S754_finite s' _ e => s' = s /\ (emin F64.prec F64.emax <= e)%Z
  | S754_nan => False
  end.

(** A results slot as [load] fills it for the requested [fields]:
    [None] when there is no field, else a well-formed array with the
    position and one column per requested field. *)
Definition slot_shape (fields : list string) (slot : option matrix) : Prop :=
  match slot with
  | None => fields = []
  | Some m => fields <> [] /\ wf_matrix m /\ ncols m = 1 + List.length fields
  end.

Definition slots_shaped (fields : list string) (results : results_t) : Prop :=
  Forall (fun e : string * snapshots =>
            Forall (fun kv => slot_shape fields (snd kv)) (snd e)) results.

(** The snapshot [m] stored under the key [t] comes from a time
    directory of [case]: one whose time matches a requested time, [t]
    being, as a key, the first one that matches, and whose assembled
    matrix is [m]. *)
Definition stored_from (fields : list string) (timelist : list F64.t)
  (case : case_dir) (t : F64.t) (m : option matrix) : Prop :=
  exists tds d td nice_t,
    times case = Ok tds /\ In d tds
    /\ td_time d = Some td
    /\ find (fun x => _timecheck x td) timelist = Some nice_t
    /\ key_eq t nice_t = true
    /\ assemble fields d = Ok m.

(** The time directory [d] is not one that is stored under the key
    [x]: if its name is a time, the first requested time that matches
    it is another key. *)
Definition stored_elsewhere (timelist : list F64.t) (x : F64.t)
  (d : time_dir) : Prop :=
  forall td y,
    td_time d = Some td ->
    find (fun z => _timecheck z td) timelist = Some y ->
    key_eq y x = false.

(** The case [c] as the results hold it. *)
Definition case_from (home : list case_dir) (fields : list string)
  (timelist : list F64.t) (e : string * snapshots) : Prop :=
  exists c, In c (valid home) /\ cd_name c = fst e
            /\ forall t m, In (t, m) (snd e) ->
                           stored_from fields timelist c t m.

(** ** Further sample inputs *)

(** A directory the solver names [latestTime]: [float] refuses it. *)
Definition dir_latest : time_dir := TimeDir "latestTime" true None files_T_p.


(** A case with a directory of another time followed by a directory
    whose name is not a number. *)
Definition home_stray : list case_dir :=
  [CaseDir "SandiaD_LTS" true (Some [dir_6000; dir_latest])].

(** A time directory sampled for the velocity alone: the file holds
    the position and the five required scalars. *)
Definition dir_velocity : time_dir :=
  TimeDir "5000" true (Some t5000)
    [("line_G_alphat_epsilon_k_nut.xy", map F64.of_Z [0; 1; 2; 3; 4; 5]%Z)].

(** Eleven requested fields, hence two batches: ten species, then the
    temperature. *)
Definition fields_11 : list string :=
  ["AR"; "C"; "C2H"; "C2H2"; "C2H3"; "C2H4"; "C2H5"; "C2H6"; "C3H7"; "C3H8";
   "T"].

(** The first batch's file with two rows of 16 numbers, the second's
    with one row of 7. *)
Definition dir_unequal : time_dir :=
  TimeDir "5000" true (Some t5000)
    [("line_AR_C_C2H_C2H2_C2H3_C2H4_C2H5_C2H6_C3H7_C3H8_G_alphat_epsilon_k_nut.xy",
      map F64.of_Z (map Z.of_nat (seq 0 32)));
     ("line_G_T_alphat_epsilon_k_nut.xy",
      map F64.of_Z [0; 1; 300; 2; 3; 4; 5]%Z)].

(** A second sampling of the time [5000], under a directory name that
    differs in the last digits, with the values of the candidate. *)
Definition line_T_p_candidate : list F64.t :=
  map F64.of_Z [0; 1; 303; 2; 3; 4; 5; 100000;
                1; 1; 310; 2; 3; 4; 5; 102010]%Z.

Definition dir_5000_again : time_dir :=
  TimeDir "5000.0000001" true (Some t5000_0000001)
    [("line_G_T_alphat_epsilon_k_nut_p.xy", line_T_p_candidate)].

(** Column [k] of the rows a batch file holds. *)
Definition file_column (f : list string) (flat : list F64.t) (k : nat)
  : list F64.t :=
  map (fun row => nth k row F64.zero)
    (chunk_rows (List.length flat / (_num_fields f false + 1))
       (_num_fields f false + 1) flat).

(** A number that is not negative, or is not a number: what an
    absolute value, and a relative error, can be. *)
Definition unsigned (x : F64.t) : Prop :=
  match x with
  | S754_nan => True
  | S754_zero s | S754_infinity s | S754_finite s _ _ => s = false
  end.

(** ** The extraction driver *)

Unset Implicit Arguments.

(** What [extract] does to the system.  The template written to the
    sampling configuration is fixed; a write is identified by its path
    and by the value substituted for the template's [fields]. *)
Inductive action : Type :=
| chdir (path : string)              (* [os.chdir(path)] *)
| check_call (argv : list string)    (* [subprocess.check_call(argv)] *)
| check_output (argv : list string)  (* [subprocess.check_output(argv)] *)
| write_skeleton (path fields : string).
    (* [open(path, 'w')] and [file.write(skeleton.substitute(fields=fields))] *)

(** The exceptions an action can end with, as [extract] tells them
    apart. *)
Inductive failure : Type :=
| NotFound         (* [FileNotFoundError] *)
| ProcessError     (* [subprocess.CalledProcessError] *)
| OtherError.      (* any other exception *)

Inductive response : Type :=
| Returns (out : string)
| Fails (e : failure).

(** The actions performed so far, each with its response, oldest
    first. *)
Definition trace : Type := list (action * response).

(** The system: its response to an action, given what was done
    before. *)
Definition world : Type := trace -> action -> response.

(** Perform [a]; go on with [k] when it returns, stop with its
    exception when it fails. *)
Definition run (w : world) (a : action)
  (k : string -> trace -> trace * option failure) (tr : trace)
  : trace * option failure :=
  match w tr a with
  | Returns out => k out (tr ++ [(a, Returns out)])
  | Fails e => (tr ++ [(a, Fails e)], Some e)
  end.

(** [os.path.isdir(os.path.join(os.getcwd(), case))], for the name of
    an entry of the working directory. *)
Definition isdir (home : list case_dir) (case : string) : bool :=
  existsb (fun d => String.eqb (cd_name d) case && cd_isdir d) home.

(** [valid(home, caselist=caselist)]: an empty [caselist] stands for
    the listing of [home]. *)
Definition valid_cases (home : list case_dir) (caselist : list string)
  : list string :=
  filter (isdir home)
    match caselist with
    | [] => map cd_name home
    | _ => caselist
    end.

(** [_make_times()]; [str] is Python's. *)
Definition _make_times {T : Type} (str : T -> string) (timelist : list T)
  : string :=
  join "," (map str timelist).

(** [['-time', _make_times()]] when [timelist] is not empty. *)
Definition time_args {T : Type} (str : T -> string) (timelist : list T)
  : list string :=
  match timelist with
  | [] => []
  | _ => ["-time"; _make_times str timelist]
  end.

(** ASCII whitespace, what [bytes.strip] removes. *)
Definition is_space (c : ascii) : bool :=
  let n := nat_of_ascii c in
  Nat.eqb n 32 || (Nat.leb 9 n && Nat.leb n 13).

Fixpoint lstrip (s : string) : string :=
  match s with
  | String c s' => if is_space c then lstrip s' else s
  | EmptyString => EmptyString
  end.

Fixpoint rstrip (s : string) : string :=
  match s with
  | EmptyString => EmptyString
  | String c s' =>
      match rstrip s' with
      | EmptyString => if is_space c then EmptyString else String c EmptyString
      | t => String c t
      end
  end.

Definition strip (s : string) : string := rstrip (lstrip s).

(** The loop over the batches, inside the [try]. *)
Fixpoint extract_batches (w : world) (targs : list string)
  (batches : list (list string)) (tr : trace) : trace * option failure :=
  match batches with
  | [] => (tr, None)
  | f :: rest =>
      run w (write_skeleton "system/extractAxial" (_make_fields f true))
        (fun _ =>
      run w (check_call ["foamDictionary"; "-entry"; "functions"; "-set";
                         "{#includeFunc extractAxial}"; "system/controlDict"])
        (fun _ =>
      run w (check_output ["foamDictionary"; "-entry"; "application";
                           "-value"; "system/controlDict"])
        (fun app =>
      run w (check_call ([strip app; "-postProcess"] ++ targs))
        (fun _ => extract_batches w targs rest)))) tr
  end.

(** The body of the [try]. *)
Definition extract_try (w : world) (fields targs : list string)
  (force : bool) (tr : trace) : trace * option failure :=
  run w (check_call (["reconstructPar"]
                       ++ (if force then [] else ["-newTimes"]) ++ targs))
    (fun _ => extract_batches w targs (_field_iter fields true)) tr.

(** The body of the loop over the cases: the two [except] clauses
    swallow their exceptions, the [finally] clause runs in any event,
    and an exception of its own replaces the pending one. *)
Definition extract_case (w : world) (home : string)
  (fields targs : list string) (force : bool) (case : string) (tr : trace)
  : trace * option failure :=
  run w (chdir case) (fun _ tr1 =>
    let '(tr2, e) := extract_try w fields targs force tr1 in
    run w (chdir home) (fun _ tr3 =>
      (tr3, match e with
            | Some OtherError => Some OtherError
            | _ => None
            end)) tr2) tr.

Fixpoint extract_cases (w : world) (home : string)
  (fields targs : list string) (force : bool) (cases : list string)
  (tr : trace) : trace * option failure :=
  match cases with
  | [] => (tr, None)
  | case :: rest =>
      match extract_case w home fields targs force case tr with
      | (tr', Some e) => (tr', Some e)
      | (tr', None) => extract_cases w home fields targs force rest tr'
      end
  end.

(** [extract(fields, timelist, caselist, force)], run in the working
    directory [home] whose entries are [entries]: what it does, and
    the exception that ends it, if any. *)
Definition extract {T : Type} (w : world) (str : T -> string)
  (home : string) (entries : list case_dir)
  (fields : list string) (timelist : list T) (caselist : list string)
  (force : bool) : trace * option failure :=
  extract_cases w home fields (time_args str timelist) force
    (valid_cases entries caselist) [].

(** An absolute path, as [os.getcwd()] returns. *)
Definition is_abs (path : string) : bool :=
  match path with
  | String c _ => Ascii.eqb c "/"
  | EmptyString => false
  end.

(** The working directory after a trace that started in [start]: each
    [chdir] that returned entered its path, relative to the current
    directory unless absolute. *)
Definition enter (cwd : string) (step : action * response) : string :=
  match step with
  | (chdir path, Returns _) =>
      if is_abs path then path else (cwd ++ "/" ++ path)%string
  | _ => cwd
  end.

Definition cwd_after (start : string) (tr : trace) : string :=
  fold_left enter tr start.

Definition is_chdir (a : action) : bool :=
  match a with
  | chdir _ => true
  | _ => false
  end.

(** What a run of actions appends to the trace: only actions in [P],
    and an exception only if the system answered with it. *)
Definition appends (w : world) (P : action -> Prop)
  (c : trace -> trace * option failure) : Prop :=
  forall tr, exists ext,
    fst (c tr) = tr ++ ext
    /\ Forall (fun ar => P (fst ar)) ext
    /\ (forall e, snd (c tr) = Some e -> exists tr' a, w tr' a = Fails e).

(** The last action of the trace, if any, returned. *)
Definition last_returns (tr : trace) : Prop :=
  tr = [] \/ exists tr0 a out, tr = tr0 ++ [(a, Returns out)].

(** Whatever follows a failed action is [chdir home]. *)
Definition home_after_failure (home : string) (tr : trace) : Prop :=
  forall pre a e b r post,
    tr = pre ++ (a, Fails e) :: (b, r) :: post -> b = chdir home.

(** A run of actions started after a returned action keeps the
    property, and ends on a returned action unless it raises. *)
Definition careful (home : string) (c : trace -> trace * option failure)
  : Prop :=
  forall tr, home_after_failure home tr -> last_returns tr ->
             home_after_failure home (fst (c tr))
             /\ (snd (c tr) = None -> last_returns (fst (c tr))).

Definition newline : string := String (ascii_of_nat 10) EmptyString.

(** A system in which every command is installed and succeeds, and
    the solver is [reactingFoam]. *)
Definition world_ok : world :=
  fun _ a =>
    match a with
    | check_output _ => Returns ("reactingFoam" ++ newline)%string
    | _ => Returns EmptyString
    end.

(** A system on which no command is installed. *)
Definition world_bare : world :=
  fun _ a =>
    match a with
    | check_call _ | check_output _ => Fails NotFound
    | _ => Returns EmptyString
    end.

(** [str] of an [int]. *)
Definition str_Z (z : Z) : string := NilZero.string_of_int (Z.to_int z).

Definition entries_two : list case_dir :=
  [CaseDir "SandiaD_LTS" true None;
   CaseDir "notes.txt" false None;
   CaseDir "SandiaD_LTS_seulex" true None].

Set Implicit Arguments.

(** * Properties *)

(** ** Field batching *)

Section Batching.
Context {A : Type}.

Lemma field_iter_concat (fields : list A) (b : bool) :
  List.concat (_field_iter fields b) = fields.
Proof.
  funelim (_field_iter fields b); simp _field_iter.
  - reflexivity.
  - cbn zeta. rewrite concat_cons.
    match goal with IH : List.concat _ = _ |- _ => rewrite IH end.
    apply firstn_skipn.
Qed.

Lemma field_iter_sizes (fields : list A) (b : bool) :
  Forall (fun batch => 1 <= List.length batch <= 10) (_field_iter fields b).
Proof.
  funelim (_field_iter fields b); simp _field_iter.
  - constructor.
  - cbn zeta. constructor.
    + rewrite length_firstn. simpl List.length. lia.
    + assumption.
Qed.

Lemma field_iter_flag (fields : list A) (b b' : bool) :
  _field_iter fields b = _field_iter fields b'.
Proof.
  funelim (_field_iter fields b); simp _field_iter.
  - reflexivity.
  - cbn zeta. f_equal. auto.
Qed.

Lemma field_iter_nil_iff (fields : list A) (b : bool) :
  _field_iter fields b = [] <-> fields = [].
Proof.
  split; intros H.
  - rewrite <- (field_iter_concat fields b), H. reflexivity.
  - subst. reflexivity.
Qed.
End Batching.

(** C5. For every field list the batch iterator yields batches of at
    least 1 and at most 10 fields, whose concatenation in order is the
    input list itself (so the relative order is kept within and across
    batches); the empty list yields no batch. *)
Theorem field_iter_partitions :
  forall (A : Type) (fields : list A) (for_extract : bool),
    Forall (fun batch => 1 <= List.length batch <= 10)
      (_field_iter fields for_extract)
    /\ List.concat (_field_iter fields for_extract) = fields
    /\ _field_iter (@nil A) for_extract = [].
Proof.
  intros A fields b. split; [ apply field_iter_sizes | split ].
  - apply field_iter_concat.
  - reflexivity.
Qed.

Lemma insert_sorted_In (x y : string) (l : list string) :
  In y (insert_sorted x l) <-> y = x \/ In y l.
Proof.
  induction l as [| z l IH]; simpl.
  - intuition.
  - destruct (String.leb x z); simpl; rewrite ?IH; intuition.
Qed.

Lemma sorted_In (y : string) (l : list string) :
  In y (sorted l) <-> In y l.
Proof.
  induction l as [| x l IH]; simpl.
  - reflexivity.
  - rewrite insert_sorted_In, IH. intuition.
Qed.

Lemma insert_sorted_HdRel (x z : string) (l : list string) :
  str_le z x -> HdRel str_le z l -> HdRel str_le z (insert_sorted x l).
Proof.
  intros Hzx Hl. destruct l as [| y l]; simpl.
  - constructor. exact Hzx.
  - destruct (String.leb x y); constructor.
    + exact Hzx.
    + inversion Hl; assumption.
Qed.

Lemma insert_sorted_Sorted (x : string) (l : list string) :
  Sorted str_le l -> Sorted str_le (insert_sorted x l).
Proof.
  induction 1 as [| z l Hs IH Hhd]; simpl.
  - repeat constructor.
  - destruct (String.leb x z) eqn:Hxz.
    + constructor; [ constructor; assumption | constructor; exact Hxz ].
    + constructor; [ exact IH | ].
      apply insert_sorted_HdRel; [ | exact Hhd ].
      destruct (String.leb_total x z) as [H | H]; [ congruence | exact H ].
Qed.

Lemma sorted_Sorted (l : list string) : Sorted str_le (sorted l).
Proof.
  induction l as [| x l IH]; simpl.
  - constructor.
  - apply insert_sorted_Sorted, IH.
Qed.

Lemma insert_sorted_NoDup (x : string) (l : list string) :
  ~ In x l -> NoDup l -> NoDup (insert_sorted x l).
Proof.
  intros Hx Hl. induction Hl as [| z l Hz Hl IH]; simpl.
  - constructor; [ intros [] | constructor ].
  - destruct (String.leb x z).
    + constructor; [ exact Hx | constructor; assumption ].
    + constructor.
      * rewrite insert_sorted_In. intros [-> | H]; [ | contradiction ].
        apply Hx. left. reflexivity.
      * apply IH. intros H. apply Hx. right. exact H.
Qed.

Lemma sorted_NoDup (l : list string) : NoDup l -> NoDup (sorted l).
Proof.
  induction 1 as [| x l Hx Hl IH]; simpl.
  - constructor.
  - apply insert_sorted_NoDup; [ rewrite sorted_In; exact Hx | exact IH ].
Qed.

Lemma set_diff_In (x : string) (a b : list string) :
  In x (set_diff a b) <-> In x a /\ ~ In x b.
Proof.
  unfold set_diff. rewrite filter_In, negb_true_iff.
  split; intros [Ha Hb]; split; try exact Ha.
  - intros Hin. assert (E : existsb (String.eqb x) b = true).
    { apply existsb_exists. exists x. split; [ exact Hin | apply String.eqb_refl ]. }
    congruence.
  - destruct (existsb (String.eqb x) b) eqn:E; [ | reflexivity ].
    apply existsb_exists in E. destruct E as [y [Hy Hxy]].
    apply String.eqb_eq in Hxy. subst y. contradiction.
Qed.

Lemma make_full_fields_In (x : string) (fields : list string) (b : bool) :
  In x (_make_full_fields fields b) <->
  (In x req_fields \/ In x fields) /\ (b = false -> x <> "U").
Proof.
  unfold _make_full_fields, set_union, py_set.
  rewrite sorted_In, set_diff_In, nodup_In, in_app_iff, nodup_In.
  destruct b; simpl.
  - intuition congruence.
  - split.
    + intros [H Hn]. split; [ exact H | ]. intros _ ->. apply Hn. now left.
    + intros [H Hn]. split; [ exact H | ]. intros [E | []].
      apply Hn; [ reflexivity | symmetry; exact E ].
Qed.

Lemma make_full_fields_canonical (fields : list string) (b : bool) :
  canonical_full_list fields b (_make_full_fields fields b).
Proof.
  split; [ | split ].
  - apply sorted_Sorted.
  - unfold _make_full_fields, set_diff. apply sorted_NoDup, NoDup_filter.
    unfold set_union. apply NoDup_nodup.
  - intros x. apply make_full_fields_In.
Qed.

(** C2, as stated, fails: for the requested list [['T']] the batches
    concatenate to [['T']], not to the canonical full field list
    [['G'; 'T'; 'U'; 'alphat'; 'epsilon'; 'k'; 'nut']]. *)
Lemma field_iter_batches_not_canonical :
  List.concat (_field_iter ["T"] true) = ["T"]
  /\ _make_full_fields ["T"] true
     = ["G"; "T"; "U"; "alphat"; "epsilon"; "k"; "nut"]
  /\ ~ canonical_full_list ["T"] true (List.concat (_field_iter ["T"] true)).
Proof.
  split; [ reflexivity | split; [ reflexivity | ] ].
  intros [_ [_ H]].
  assert (Hin : In "G" (List.concat (_field_iter ["T"] true))).
  { apply H. split; [ left; simpl; tauto | discriminate ]. }
  simpl in Hin. destruct Hin as [E | []]. discriminate E.
Qed.

(** C2, amended.  The batching splits the requested list as it is
    given, whatever the context flag, into batches of at most 10 fields
    that concatenate in order to the requested list; the extraction and
    the loading therefore walk the same batches.  The canonical full
    field list (required and requested fields, without the velocity
    when not extracting, sorted) is formed afterwards for each batch on
    its own. *)
Theorem field_iter_batches_requested :
  forall (fields : list string) (for_extract : bool),
    Forall (fun batch => List.length batch <= 10)
      (_field_iter fields for_extract)
    /\ List.concat (_field_iter fields for_extract) = fields
    /\ _field_iter fields true = _field_iter fields false
    /\ forall batch : list string,
         canonical_full_list batch for_extract
           (_make_full_fields batch for_extract).
Proof.
  intros fields b. split; [ | split; [ | split ] ].
  - eapply Forall_impl; [ | apply field_iter_sizes ]. simpl. lia.
  - apply field_iter_concat.
  - apply field_iter_flag.
  - intros batch. apply make_full_fields_canonical.
Qed.

(** ** Time matching and the association of a snapshot *)

Lemma find_first_match {A : Type} (p : A -> bool) (pre post : list A) (x : A) :
  (forall y, In y pre -> p y = false) -> p x = true ->
  find p (pre ++ x :: post) = Some x.
Proof.
  intros Hpre Hx. induction pre as [| y pre IH]; simpl.
  - rewrite Hx. reflexivity.
  - rewrite (Hpre y (or_introl eq_refl)). apply IH.
    intros z Hz. apply Hpre. right. exact Hz.
Qed.

Lemma existsb_none {A : Type} (p : A -> bool) (l : list A) :
  (forall y, In y l -> p y = false) -> existsb p l = false.
Proof.
  intros H. induction l as [| y l IH]; simpl.
  - reflexivity.
  - rewrite (H y (or_introl eq_refl)). apply IH.
    intros z Hz. apply H. right. exact Hz.
Qed.

(** The tolerance [1e-10] as a binary64 number:
    [7737125245533627 * 2^-86]. *)
Lemma tol_1e_10_value :
  tol_1e_10 = S754_finite false 7737125245533627 (-86).
Proof. vm_compute. reflexivity. Qed.

(** C9. Two finite times match exactly when their distance is at most
    [1e-10 + 1e-10 * |t2|], the absolute and the relative tolerance
    together; and a time directory whose parsed time matches none of a
    non-empty requested list is skipped by the loader, which goes on
    with the next directory in the same state. *)
Theorem timecheck_tolerance_and_skip :
  (forall t1 t2 : F64.t,
      F64.is_finite t1 = true -> F64.is_finite t2 = true ->
      (_timecheck t1 t2 = true <->
       F64.leb (F64.abs (F64.sub t1 t2))
         (F64.add tol_1e_10 (F64.mul tol_1e_10 (F64.abs t2))) = true))
  /\ (forall fields timelist nicecase time rest st t,
         timelist <> [] ->
         td_time time = Some t ->
         (forall x, In x timelist -> _timecheck x t = false) ->
         load_times fields timelist nicecase (time :: rest) st
         = load_times fields timelist nicecase rest st).
Proof.
  split.
  - intros t1 t2 H1 H2. unfold _timecheck, np_isclose, within_tol.
    rewrite H1, H2. reflexivity.
  - intros fields timelist nicecase time rest st t Hne Ht Hnone.
    simpl. rewrite Ht, (existsb_none _ _ Hnone).
    destruct timelist; [ congruence | reflexivity ].
Qed.

Lemma timecheck_tolerance_and_skip_witness :
  (_timecheck t5000_0000001 t5000 = true
   /\ _timecheck t5000_01 t5000 = false)
  /\ load_times ["T"; "p"] [t6000] "SandiaD_LTS" [dir_5000] ([t6000], [])
     = ([t6000], [], None).
Proof.
  split; [ split | ].
  - apply (proj1 timecheck_tolerance_and_skip t5000_0000001 t5000);
      vm_compute; reflexivity.
  - vm_compute; reflexivity.
  - rewrite (proj2 timecheck_tolerance_and_skip
               ["T"; "p"] [t6000] "SandiaD_LTS" dir_5000 [] ([t6000], []) t5000).
    + reflexivity.
    + discriminate.
    + reflexivity.
    + intros x [<- | []]. vm_compute. reflexivity.
Defined.

(** C7. When a time directory is assembled, its matrix is stored under
    the first requested time, in the order of the requested list, that
    matches the directory's time: every requested time before it fails
    the match, and the ones after it are not looked at, whether they
    match or not. *)
Theorem load_associates_first_match :
  forall fields pre x post nicecase time rest (st : load_state) t c snaps,
    td_time time = Some t ->
    (forall y, In y pre -> _timecheck y t = false) ->
    _timecheck x t = true ->
    assemble fields time = Ok c ->
    dict_get String.eqb nicecase (snd st) = Some snaps ->
    load_times fields (pre ++ x :: post) nicecase (time :: rest) st
    = load_times fields (pre ++ x :: post) nicecase rest
        (set_add x (fst st),
         dict_set String.eqb nicecase (dict_set key_eq x c snaps) (snd st)).
Proof.
  intros fields pre x post nicecase time rest st t c snaps
    Ht Hpre Hx Hc Hget.
  assert (Hany : existsb (fun y => _timecheck y t) (pre ++ x :: post) = true).
  { apply existsb_exists. exists x. split; [ | exact Hx ].
    apply in_or_app. right. left. reflexivity. }
  cbn [load_times]. rewrite Ht, Hany, andb_false_r, Hc.
  rewrite (find_first_match (fun y => _timecheck y t) pre post x Hpre Hx).
  unfold store. rewrite Hget. reflexivity.
Qed.

(** The requested list holds [5000.0000001] before [5000]; the
    directory [5000] is stored under the former, though the latter is
    the exact time. *)
Lemma load_associates_first_match_witness :
  load_times ["T"; "p"] [t6000; t5000_0000001; t5000] "SandiaD_LTS"
    [dir_5000] ([], [("SandiaD_LTS", [])])
  = ([t5000_0000001],
     [("SandiaD_LTS", [(t5000_0000001, Some matrix_T_p)])], None).
Proof.
  etransitivity.
  - apply (@load_associates_first_match ["T"; "p"] [t6000] t5000_0000001
             [t5000] "SandiaD_LTS" dir_5000 [] ([], [("SandiaD_LTS", [])])
             t5000 (Some matrix_T_p) []).
    + reflexivity.
    + intros y [<- | []]. vm_compute. reflexivity.
    + vm_compute. reflexivity.
    + vm_compute. reflexivity.
    + reflexivity.
  - reflexivity.
Defined.

(** ** The loader without requested times *)

Lemma load_times_no_request (fields : list string) (nicecase : string)
  (tds : list time_dir) (st : load_state) :
  exists e, load_times fields [] nicecase tds st = (st, e).
Proof.
  destruct tds as [| time rest]; simpl.
  - eexists. reflexivity.
  - destruct (td_time time) as [t |]; [ | eexists; reflexivity ].
    destruct (assemble fields time); eexists; reflexivity.
Qed.

Lemma drop_fresh_slot (nicecase : string) :
  drop_if_empty nicecase (dict_set String.eqb nicecase [] []) = [].
Proof.
  unfold drop_if_empty. cbn [dict_set dict_get].
  rewrite String.eqb_refl. cbn [dict_del].
  rewrite String.eqb_refl. reflexivity.
Qed.

Lemma load_case_no_request (fields : list string) (tv : time_set)
  (case : case_dir) (st' : load_state) :
  load_case fields [] (tv, []) case = (st', None) -> st' = (tv, []).
Proof.
  unfold load_case. cbn [fst snd].
  destruct (times case) as [tds | e].
  - match goal with
    | |- context [load_times ?f [] ?n ?t ?s] =>
        destruct (load_times_no_request f n t s) as [e He]; rewrite He
    end.
    cbn [fst snd]. rewrite drop_fresh_slot.
    destruct e as [[] |]; intros H; inversion H; reflexivity.
  - cbn [fst snd]. rewrite drop_fresh_slot.
    destruct e; intros H; inversion H; reflexivity.
Qed.

Lemma load_cases_no_request (fields : list string) (tv : time_set)
  (cases : list case_dir) (st' : load_state) :
  load_cases fields [] cases (tv, []) = (st', None) -> st' = (tv, []).
Proof.
  induction cases as [| case rest IH]; simpl.
  - intros H. inversion H. reflexivity.
  - destruct (load_case fields [] (tv, []) case) as [st1 [e |]] eqn:Hc.
    + discriminate.
    + apply load_case_no_request in Hc. subst st1. exact IH.
Qed.

Lemma load_case_abandoned (fields : list string) (st : load_state)
  (case : case_dir) :
  abandoned fields case ->
  exists st', load_case fields [] st case = (st', None).
Proof.
  unfold load_case.
  intros [H | [H | [time [rest [t [H [Ht Ha]]]]]]]; rewrite H.
  - eexists. reflexivity.
  - eexists. reflexivity.
  - simpl. rewrite Ht, Ha. eexists. reflexivity.
Qed.

Lemma load_case_completes (fields : list string) (st st' : load_state)
  (case : case_dir) :
  load_case fields [] st case = (st', None) -> abandoned fields case.
Proof.
  unfold load_case, abandoned.
  destruct (times case) as [[| time rest] | e].
  - intros _. right. left. reflexivity.
  - simpl. destruct (td_time time) as [t |] eqn:Ht.
    + destruct (assemble fields time) as [c | e] eqn:Ha.
      * discriminate.
      * destruct e; try discriminate.
        intros _. right. right. exists time, rest, t. auto.
    + discriminate.
  - destruct e; try discriminate. intros _. left. reflexivity.
Qed.

Lemma load_cases_abandoned (fields : list string) (cases : list case_dir) :
  Forall (abandoned fields) cases ->
  forall st, exists st', load_cases fields [] cases st = (st', None).
Proof.
  induction 1 as [| case rest Hc Hr IH]; intros st; simpl.
  - eexists. reflexivity.
  - destruct (load_case_abandoned st Hc) as [st1 E]. rewrite E. apply IH.
Qed.

Lemma load_cases_completes (fields : list string) (cases : list case_dir) :
  forall st st', load_cases fields [] cases st = (st', None) ->
                 Forall (abandoned fields) cases.
Proof.
  induction cases as [| case rest IH]; intros st st' H; simpl in H.
  - constructor.
  - destruct (load_case fields [] st case) as [st1 [e |]] eqn:Hc;
      [ discriminate | ].
    constructor.
    + exact (load_case_completes _ _ _ Hc).
    + exact (IH _ _ H).
Qed.

Lemma load_cases_app (fields : list string) (timelist : list F64.t)
  (pre post : list case_dir) (st st1 : load_state) :
  load_cases fields timelist pre st = (st1, None) ->
  load_cases fields timelist (pre ++ post) st
  = load_cases fields timelist post st1.
Proof.
  revert st. induction pre as [| case pre IH]; intros st H; simpl in *.
  - inversion H. reflexivity.
  - destruct (load_case fields timelist st case) as [st2 [e |]];
      [ discriminate | ].
    apply IH. exact H.
Qed.

(** C10, as stated, fails: with no requested time and a discovered
    time directory, the load completes normally when the directory's
    sampled file is missing, since that error is caught before the
    association is reached. *)
Lemma load_unsampled_completes :
  (exists case time rest,
      In case (valid home_unsampled) /\ times case = Ok (time :: rest))
  /\ load home_unsampled ["T"; "p"] [] = Ok ([], []).
Proof.
  split.
  - exists (CaseDir "SandiaD_LTS" true (Some [dir_unsampled])), dir_unsampled, [].
    split; [ left; reflexivity | reflexivity ].
  - vm_compute. reflexivity.
Qed.

(** C10, amended.  With an empty requested list, (a) every time
    directory that is assembled makes the association fail with
    [StopIteration], the state left as it was; (b) the load as a whole
    raises [StopIteration] when, after cases that were abandoned, a
    case assembles its first time directory; (c) the load completes
    normally exactly when every case is abandoned (no output directory,
    no time directory, or a first time directory with a missing file),
    and it then returns no time and no result. *)
Theorem load_without_requested_times :
  forall (home : list case_dir) (fields : list string),
    (forall nicecase time rest (st : load_state) t c,
        td_time time = Some t ->
        assemble fields time = Ok c ->
        load_times fields [] nicecase (time :: rest) st
        = (st, Some StopIteration))
    /\ (forall pre case post time rest t c,
          valid home = pre ++ case :: post ->
          Forall (abandoned fields) pre ->
          times case = Ok (time :: rest) ->
          td_time time = Some t ->
          assemble fields time = Ok c ->
          load home fields [] = Raise StopIteration)
    /\ ((exists r, load home fields [] = Ok r)
        <-> Forall (abandoned fields) (valid home))
    /\ (forall r, load home fields [] = Ok r -> r = ([], [])).
Proof.
  intros home fields. split; [ | split; [ | split ] ].
  - intros nicecase time rest st t c Ht Hc. simpl.
    rewrite Ht, Hc. reflexivity.
  - intros pre case post time rest t c Hv Hpre Htimes Ht Hc.
    unfold load. rewrite Hv.
    destruct (load_cases_abandoned Hpre (set_of_list [], [])) as [st1 E].
    rewrite (@load_cases_app fields [] pre (case :: post) _ _ E). simpl.
    unfold load_case. rewrite Htimes. simpl. rewrite Ht, Hc. reflexivity.
  - unfold load. split.
    + intros [r H].
      destruct (load_cases fields [] (valid home) (set_of_list [], []))
        as [st [e |]] eqn:E; [ discriminate | ].
      exact (load_cases_completes _ _ _ E).
    + intros H.
      destruct (load_cases_abandoned H (set_of_list [], [])) as [st E].
      rewrite E. eexists. reflexivity.
  - intros r. unfold load.
    destruct (load_cases fields [] (valid home) (set_of_list [], []))
      as [st [e |]] eqn:E; [ discriminate | ].
    intros H. inversion H; subst.
    exact (load_cases_no_request _ _ _ E).
Qed.

Lemma load_without_requested_times_witness :
  load_times ["T"; "p"] [] "SandiaD_LTS" [dir_5000; dir_6000] ([], [])
  = ([], [], Some StopIteration)
  /\ load home_sampled ["T"; "p"] [] = Raise StopIteration
  /\ Forall (abandoned ["T"; "p"]) (valid home_unsampled).
Proof.
  pose proof (load_without_requested_times home_sampled ["T"; "p"])
    as [Ha [Hb _]].
  pose proof (load_without_requested_times home_unsampled ["T"; "p"])
    as [_ [_ [Hc _]]].
  split; [ | split ].
  - apply (Ha "SandiaD_LTS" dir_5000 [dir_6000] ([], []) t5000
             (Some matrix_T_p)).
    + reflexivity.
    + vm_compute. reflexivity.
  - apply (Hb [CaseDir "SandiaD_LTS_old" true None]
             (CaseDir "SandiaD_LTS" true (Some [dir_5000; dir_6000])) []
             dir_5000 [dir_6000] t5000 (Some matrix_T_p)).
    + reflexivity.
    + constructor; [ left; reflexivity | constructor ].
    + reflexivity.
    + reflexivity.
    + vm_compute. reflexivity.
  - apply Hc. exists ([], []). vm_compute. reflexivity.
Defined.

(** ** What the loader returns *)

Lemma same_refl (x : F64.t) : F64.same x x = true.
Proof.
  destruct x as [s | s | | s m e]; simpl;
    rewrite ?Bool.eqb_reflx, ?Pos.eqb_refl, ?Z.eqb_refl; reflexivity.
Qed.

Lemma key_eq_refl (x : F64.t) : key_eq x x = true.
Proof. unfold key_eq. rewrite same_refl. reflexivity. Qed.

Lemma set_add_keeps (p : F64.t -> bool) (y : F64.t) (s : time_set) :
  existsb p s = true -> existsb p (set_add y s) = true.
Proof.
  intros H. unfold set_add. destruct (existsb (key_eq y) s).
  - exact H.
  - rewrite existsb_app, H. reflexivity.
Qed.

Lemma set_add_has (y : F64.t) (s : time_set) :
  existsb (key_eq y) (set_add y s) = true.
Proof.
  unfold set_add. destruct (existsb (key_eq y) s) eqn:E.
  - exact E.
  - rewrite existsb_app. simpl. rewrite key_eq_refl, orb_true_r. reflexivity.
Qed.

Lemma set_fold_keeps (p : F64.t -> bool) (l : list F64.t) (s : time_set) :
  existsb p s = true ->
  existsb p (fold_left (fun s x => set_add x s) l s) = true.
Proof.
  revert s. induction l as [| y l IH]; intros s H; simpl.
  - exact H.
  - apply IH, set_add_keeps, H.
Qed.

Lemma set_of_list_has (x : F64.t) (l : list F64.t) :
  In x l -> existsb (key_eq x) (set_of_list l) = true.
Proof.
  unfold set_of_list. generalize (@nil F64.t) as s.
  induction l as [| y l IH]; intros s Hin; simpl.
  - destruct Hin.
  - destruct Hin as [-> | Hin].
    + apply set_fold_keeps, set_add_has.
    + apply IH, Hin.
Qed.

Lemma set_add_requested (x : F64.t) (l : list F64.t) :
  In x l -> set_add x (set_of_list l) = set_of_list l.
Proof.
  intros H. unfold set_add. rewrite (set_of_list_has _ _ H). reflexivity.
Qed.

(** Whatever holds of the loader's state and survives the storing of
    a snapshot under a requested time holds after the loop over the
    time directories, however the loop ends. *)
Lemma load_times_invariant (I : load_state -> Prop) (fields : list string)
  (timelist : list F64.t) (nicecase : string) :
  (forall (st : load_state) nice_t c results,
      I st -> In nice_t timelist ->
      store nicecase nice_t c (snd st) = Ok results ->
      I (set_add nice_t (fst st), results)) ->
  forall (tds : list time_dir) (st st' : load_state) e,
    I st ->
    load_times fields timelist nicecase tds st = (st', e) ->
    I st'.
Proof.
  intros Hstore.
  induction tds as [| time rest IH]; intros st st' e Hst H; simpl in H.
  - inversion H; subst. exact Hst.
  - destruct (td_time time) as [t |]; [ | inversion H; subst; exact Hst ].
    destruct (negb (Nat.eqb (List.length timelist) 0)
              && negb (existsb (fun x => _timecheck x t) timelist)).
    + exact (IH _ _ _ Hst H).
    + destruct (assemble fields time) as [c | e'];
        [ | inversion H; subst; exact Hst ].
      destruct (find (fun x => _timecheck x t) timelist) as [nice_t |] eqn:Hf;
        [ | inversion H; subst; exact Hst ].
      destruct (store nicecase nice_t c (snd st)) as [results | e'] eqn:Hs;
        [ | inversion H; subst; exact Hst ].
      apply (IH _ _ _) in H; [ exact H | ].
      apply (Hstore st nice_t c results Hst); [ | exact Hs ].
      apply find_some in Hf. apply Hf.
Qed.

Lemma load_times_time_set (fields : list string) (timelist : list F64.t)
  (nicecase : string) (tds : list time_dir) (st st' : load_state) e :
  fst st = set_of_list timelist ->
  load_times fields timelist nicecase tds st = (st', e) ->
  fst st' = set_of_list timelist.
Proof.
  apply (@load_times_invariant
           (fun s => fst s = set_of_list timelist) fields timelist nicecase).
  intros s nice_t c results Hs Hin _. cbn [fst]. rewrite Hs.
  apply set_add_requested. exact Hin.
Qed.

Section CaseSlots.
Variable V : Type.
Variable P : string * V -> Prop.

Lemma dict_del_set_fresh (k : string) (v : V) (d : dict string V) :
  Forall P d -> Forall P (dict_del String.eqb k (dict_set String.eqb k v d)).
Proof.
  induction 1 as [| [k' v'] d Hh Ht IH]; simpl.
  - rewrite String.eqb_refl. constructor.
  - destruct (String.eqb k' k) eqn:E; simpl; rewrite E.
    + exact Ht.
    + constructor; assumption.
Qed.

Lemma dict_del_set_same (k : string) (v s : V) (d : dict string V) :
  dict_get String.eqb k d = Some s ->
  dict_del String.eqb k (dict_set String.eqb k v d) = dict_del String.eqb k d.
Proof.
  induction d as [| [k' v'] d IH]; simpl.
  - discriminate.
  - destruct (String.eqb k' k) eqn:E; simpl; rewrite E.
    + reflexivity.
    + intros H. rewrite (IH H). reflexivity.
Qed.

Lemma dict_del_absent (k : string) (d : dict string V) :
  dict_get String.eqb k d = None -> dict_del String.eqb k d = d.
Proof.
  induction d as [| [k' v'] d IH]; simpl.
  - reflexivity.
  - destruct (String.eqb k' k); [ discriminate | ].
    intros H. rewrite (IH H). reflexivity.
Qed.

Lemma dict_del_restore (k : string) (s : V) (d : dict string V) :
  dict_get String.eqb k d = Some s ->
  (forall k', P (k', s)) ->
  Forall P (dict_del String.eqb k d) -> Forall P d.
Proof.
  induction d as [| [k' v'] d IH]; simpl.
  - discriminate.
  - destruct (String.eqb k' k).
    + intros H Hs Hd. inversion H; subst. constructor; [ apply Hs | exact Hd ].
    + intros H Hs Hd. inversion Hd; subst.
      constructor; [ assumption | apply IH; assumption ].
Qed.
Lemma dict_del_Forall (k : string) (d : dict string V) :
  Forall P d -> Forall P (dict_del String.eqb k d).
Proof.
  induction 1 as [| [k' v'] d Hh Ht IH]; simpl.
  - constructor.
  - destruct (String.eqb k' k); [ exact Ht | constructor; assumption ].
Qed.

Variable Q : V -> Prop.

Lemma dict_set_values (k : string) (v : V) (d : dict string V) :
  Forall (fun e => Q (snd e)) d -> Q v ->
  Forall (fun e => Q (snd e)) (dict_set String.eqb k v d).
Proof.
  intros Hd Hv. induction Hd as [| [k' v'] d Hh Ht IH]; simpl.
  - constructor; [ exact Hv | constructor ].
  - destruct (String.eqb k' k); constructor; assumption.
Qed.

Lemma dict_get_values (k : string) (s : V) (d : dict string V) :
  Forall (fun e => Q (snd e)) d ->
  dict_get String.eqb k d = Some s -> Q s.
Proof.
  induction 1 as [| [k' v'] d Hh Ht IH]; simpl.
  - discriminate.
  - destruct (String.eqb k' k); [ | exact IH ].
    intros H. inversion H; subst. exact Hh.
Qed.
End CaseSlots.

Lemma dict_set_requested_keys (timelist : list F64.t) (x : F64.t)
  (c : option matrix) (snaps : snapshots) :
  requested_keys timelist snaps -> In x timelist ->
  requested_keys timelist (dict_set key_eq x c snaps).
Proof.
  intros Hs Hx. induction snaps as [| [k v] snaps IH]; simpl.
  - intros t c' [E | []]. inversion E; subst. exact Hx.
  - assert (Hk : In k timelist) by (apply (Hs k v); left; reflexivity).
    assert (Hrest : requested_keys timelist snaps).
    { intros t c' Hin. apply (Hs t c'). right. exact Hin. }
    destruct (key_eq k x); intros t c' [E | Hin].
    + inversion E; subst. exact Hk.
    + exact (Hrest t c' Hin).
    + inversion E; subst. exact Hk.
    + exact (IH Hrest t c' Hin).
Qed.

Lemma dict_set_nonempty (x : F64.t) (c : option matrix) (snaps : snapshots) :
  dict_set key_eq x c snaps <> [].
Proof.
  destruct snaps as [| [k v] snaps]; simpl.
  - discriminate.
  - destruct (key_eq k x); discriminate.
Qed.

Lemma load_times_others (fields : list string) (timelist : list F64.t)
  (nicecase : string) (tds : list time_dir) (st st' : load_state) e :
  nonempty_cases (dict_del String.eqb nicecase (snd st)) ->
  load_times fields timelist nicecase tds st = (st', e) ->
  nonempty_cases (dict_del String.eqb nicecase (snd st')).
Proof.
  apply (@load_times_invariant
           (fun s => nonempty_cases (dict_del String.eqb nicecase (snd s)))
           fields timelist nicecase).
  intros s nice_t c results Hs _. unfold store.
  destruct (dict_get String.eqb nicecase (snd s)) as [snaps |] eqn:Hg;
    [ | discriminate ].
  intros H. inversion H. cbn [snd].
  rewrite (@dict_del_set_same _ _ _ _ _ Hg). exact Hs.
Qed.

Lemma drop_if_empty_nonempty (nicecase : string) (results : results_t) :
  nonempty_cases (dict_del String.eqb nicecase results) ->
  nonempty_cases (drop_if_empty nicecase results).
Proof.
  intros H. unfold drop_if_empty.
  destruct (dict_get String.eqb nicecase results) as [[| kv snaps] |] eqn:Hg.
  - exact H.
  - apply (@dict_del_restore _ _ _ _ _ Hg); [ intros k'; discriminate | exact H ].
  - rewrite (@dict_del_absent _ _ _ Hg) in H. exact H.
Qed.

Lemma load_times_keys (fields : list string) (timelist : list F64.t)
  (nicecase : string) (tds : list time_dir) (st st' : load_state) e :
  keyed_by timelist (snd st) ->
  load_times fields timelist nicecase tds st = (st', e) ->
  keyed_by timelist (snd st').
Proof.
  apply (@load_times_invariant
           (fun s => keyed_by timelist (snd s)) fields timelist nicecase).
  intros s nice_t c results Hs Hin. unfold store.
  destruct (dict_get String.eqb nicecase (snd s)) as [snaps |] eqn:Hg;
    [ | discriminate ].
  intros H. inversion H. cbn [snd].
  apply dict_set_values; [ exact Hs | ].
  apply dict_set_requested_keys; [ | exact Hin ].
  exact (@dict_get_values _ (requested_keys timelist) _ _ _ Hs Hg).
Qed.

Lemma drop_if_empty_keys (timelist : list F64.t) (nicecase : string)
  (results : results_t) :
  keyed_by timelist results ->
  keyed_by timelist (drop_if_empty nicecase results).
Proof.
  intros H. unfold drop_if_empty.
  destruct (dict_get String.eqb nicecase results) as [[| kv snaps] |];
    try exact H.
  apply dict_del_Forall. exact H.
Qed.

Lemma load_case_invariant (fields : list string) (timelist : list F64.t)
  (st st' : load_state) (case : case_dir) :
  between_cases timelist st ->
  load_case fields timelist st case = (st', None) ->
  between_cases timelist st'.
Proof.
  intros [Htv [Hres Hkeys]]. unfold load_case.
  set (st0 := (fst st, dict_set String.eqb (cd_name case) [] (snd st))).
  assert (H0 : nonempty_cases (dict_del String.eqb (cd_name case) (snd st0)))
    by (apply dict_del_set_fresh; exact Hres).
  assert (Htv0 : fst st0 = set_of_list timelist) by exact Htv.
  assert (Hk0 : keyed_by timelist (snd st0)).
  { apply dict_set_values; [ exact Hkeys | ]. intros t c []. }
  destruct (times case) as [tds | e0].
  - destruct (load_times fields timelist (cd_name case) tds st0)
      as [st1 e] eqn:Hl.
    pose proof (@load_times_time_set _ _ _ _ _ _ _ Htv0 Hl) as Htv1.
    pose proof (@load_times_others _ _ _ _ _ _ _ H0 Hl) as Hres1.
    pose proof (@load_times_keys _ _ _ _ _ _ _ Hk0 Hl) as Hk1.
    destruct e as [[] |]; intros H; inversion H; subst; cbn [fst snd];
      (split; [ exact Htv1
              | split; [ apply drop_if_empty_nonempty; exact Hres1
                       | apply drop_if_empty_keys; exact Hk1 ] ]).
  - destruct e0; intros H; inversion H; subst; cbn [fst snd];
      (split; [ exact Htv
              | split; [ apply drop_if_empty_nonempty; exact H0
                       | apply drop_if_empty_keys; exact Hk0 ] ]).
Qed.

Lemma load_cases_invariant (fields : list string) (timelist : list F64.t)
  (cases : list case_dir) :
  forall st st' : load_state,
    between_cases timelist st ->
    load_cases fields timelist cases st = (st', None) ->
    between_cases timelist st'.
Proof.
  induction cases as [| case rest IH]; intros st st' Hst H; simpl in H.
  - inversion H; subst. exact Hst.
  - destruct (load_case fields timelist st case) as [st1 [e |]] eqn:Hc;
      [ discriminate | ].
    exact (IH _ _ (@load_case_invariant _ _ _ _ _ Hst Hc) H).
Qed.

(** C8, as stated, fails: the case is sampled at [5000.0000001] and at
    [6000]; with [5000] requested the first directory is loaded and the
    second skipped, and the returned set holds neither discovered
    time, only the requested one, which the second does not even
    match. *)
Lemma load_time_set_leaves_out_discovered :
  times (CaseDir "SandiaD_LTS" true (Some [dir_5000_0000001; dir_6000]))
  = Ok [dir_5000_0000001; dir_6000]
  /\ load home_discovered ["T"; "p"] [t5000]
     = Ok ([t5000], [("SandiaD_LTS", [(t5000, Some matrix_T_p)])])
  /\ existsb (key_eq t5000_0000001) [t5000] = false
  /\ existsb (key_eq t6000) [t5000] = false
  /\ existsb (fun x => _timecheck x t6000) [t5000] = false.
Proof.
  repeat split; vm_compute; reflexivity.
Qed.

(** What the loader's state keeps between two cases, on return: the
    set is the set of the requested times, every case has a snapshot,
    and every snapshot is keyed by a requested time. *)
Lemma load_state_on_return :
  forall home fields timelist timev results,
    load home fields timelist = Ok (timev, results) ->
    timev = set_of_list timelist
    /\ (forall case snaps, In (case, snaps) results -> snaps <> [])
    /\ (forall case snaps t c,
          In (case, snaps) results -> In (t, c) snaps -> In t timelist).
Proof.
  intros home fields timelist timev results. unfold load.
  destruct (load_cases fields timelist (valid home)
              (set_of_list timelist, [])) as [st [e |]] eqn:E;
    [ discriminate | ].
  intros H. inversion H; subst.
  destruct (@load_cases_invariant fields timelist (valid home)
              (set_of_list timelist, []) (timev, results)) as [Htv [Hres Hk]].
  - split; [ reflexivity | split; constructor ].
  - exact E.
  - split; [ exact Htv | split ].
    + intros case snaps Hin.
      unfold nonempty_cases in Hres. rewrite Forall_forall in Hres.
      exact (Hres _ Hin).
    + intros case snaps t c Hin.
      unfold keyed_by in Hk. rewrite Forall_forall in Hk.
      exact (Hk _ Hin t c).
Qed.

(** ** The assembled sample matrix *)

Section MapM.
Context {A B : Type}.
Variable f : A -> outcome B.

Lemma mapM_length (l : list A) (ys : list B) :
  mapM f l = Ok ys -> List.length ys = List.length l.
Proof.
  revert ys. induction l as [| x l IH]; intros ys; simpl.
  - intros H. inversion H. reflexivity.
  - destruct (f x) as [y |]; simpl; [ | discriminate ].
    destruct (mapM f l) as [ys' |]; simpl; [ | discriminate ].
    intros H. inversion H. simpl. rewrite (IH ys' eq_refl). reflexivity.
Qed.

Lemma mapM_Forall (P : B -> Prop) (l : list A) (ys : list B) :
  (forall x y, In x l -> f x = Ok y -> P y) ->
  mapM f l = Ok ys -> Forall P ys.
Proof.
  revert ys. induction l as [| x l IH]; intros ys HP; simpl.
  - intros H. inversion H. constructor.
  - destruct (f x) as [y |] eqn:E; simpl; [ | discriminate ].
    destruct (mapM f l) as [ys' |]; simpl; [ | discriminate ].
    intros H. inversion H. constructor.
    + apply (HP x y); [ left; reflexivity | exact E ].
    + apply IH; [ | reflexivity ].
      intros x' y' Hx'. apply HP. right. exact Hx'.
Qed.

Lemma mapM_ok (l : list A) :
  (forall x, In x l -> exists y, f x = Ok y) ->
  exists ys, mapM f l = Ok ys.
Proof.
  induction l as [| x l IH]; intros H; simpl.
  - eexists. reflexivity.
  - destruct (H x (or_introl eq_refl)) as [y E]. rewrite E. simpl.
    destruct IH as [ys E'].
    + intros x' Hx'. apply H. right. exact Hx'.
    + rewrite E'. simpl. eexists. reflexivity.
Qed.
End MapM.

Lemma chunk_rows_length {A : Type} (n k : nat) (l : list A) :
  List.length (chunk_rows n k l) = n.
Proof.
  revert l. induction n as [| n IH]; intros l; simpl.
  - reflexivity.
  - rewrite IH. reflexivity.
Qed.

Lemma chunk_rows_wf {A : Type} (n k : nat) (l : list A) :
  List.length l = n * k ->
  Forall (fun r => List.length r = k) (chunk_rows n k l).
Proof.
  revert l. induction n as [| n IH]; intros l Hl; simpl.
  - constructor.
  - constructor.
    + rewrite length_firstn. simpl in Hl. lia.
    + apply IH. rewrite length_skipn. simpl in Hl. lia.
Qed.

Lemma reshape_rows (flat : list F64.t) (r k : nat) (m : matrix) :
  List.length flat = r * k ->
  reshape flat k = Ok m ->
  m = Matrix k (chunk_rows r k flat) /\ shaped r k m.
Proof.
  intros Hl. unfold reshape.
  destruct (Nat.eqb k 0) eqn:Hk; [ discriminate | ].
  apply Nat.eqb_neq in Hk.
  rewrite Hl, Nat.Div0.mod_mul, Nat.div_mul by exact Hk. simpl.
  intros H. inversion H. split; [ reflexivity | ].
  unfold shaped, nrows, wf_matrix. simpl.
  rewrite chunk_rows_length. repeat split.
  apply chunk_rows_wf. exact Hl.
Qed.

Lemma reshape_ok (flat : list F64.t) (r k : nat) :
  List.length flat = r * k -> k <> 0 ->
  reshape flat k = Ok (Matrix k (chunk_rows r k flat)).
Proof.
  intros Hl Hk. unfold reshape.
  destruct (Nat.eqb k 0) eqn:E; [ apply Nat.eqb_eq in E; contradiction | ].
  rewrite Hl, Nat.Div0.mod_mul, Nat.div_mul by exact Hk. reflexivity.
Qed.

Lemma take_cols_shape (m s : matrix) (indicies : list nat) (r : nat) :
  nrows m = r ->
  take_cols m indicies = Ok s ->
  shaped r (List.length indicies) s.
Proof.
  intros Hr. unfold take_cols.
  destruct indicies as [| i indicies]; [ discriminate | ].
  destruct (forallb _ _); [ | discriminate ].
  intros H. inversion H. unfold shaped, nrows, wf_matrix. simpl.
  rewrite length_map. repeat split; [ exact Hr | ].
  apply Forall_forall. intros row Hrow.
  apply in_map_iff in Hrow. destruct Hrow as [row' [<- _]].
  simpl. rewrite length_map. reflexivity.
Qed.

Lemma take_cols_ok (m : matrix) (indicies : list nat) :
  indicies <> [] ->
  Forall (fun i => i < ncols m) indicies ->
  exists s, take_cols m indicies = Ok s.
Proof.
  intros Hne Hall. unfold take_cols.
  destruct indicies as [| i indicies]; [ congruence | ].
  assert (E : forallb (fun i => Nat.ltb i (ncols m)) (i :: indicies) = true).
  { apply forallb_forall. intros j Hj. apply Nat.ltb_lt.
    rewrite Forall_forall in Hall. apply Hall. exact Hj. }
  rewrite E. eexists. reflexivity.
Qed.

Lemma map2_app_rows (ra rb : list (list F64.t)) (ca cb : nat) :
  List.length ra = List.length rb ->
  Forall (fun r => List.length r = ca) ra ->
  Forall (fun r => List.length r = cb) rb ->
  List.length (map2 (@app F64.t) ra rb) = List.length ra
  /\ Forall (fun r => List.length r = ca + cb) (map2 (@app F64.t) ra rb)
  /\ (1 <= ca ->
      map (fun r => nth 0 r F64.zero) (map2 (@app F64.t) ra rb)
      = map (fun r => nth 0 r F64.zero) ra).
Proof.
  revert rb. induction ra as [| x ra IH]; intros [| y rb] Hlen Ha Hb;
    simpl in *; try discriminate.
  - repeat split; constructor.
  - inversion Ha as [| ? ? Hx Ha']; inversion Hb as [| ? ? Hy Hb']; subst.
    destruct (IH rb) as [H1 [H2 H3]]; [ lia | assumption | assumption | ].
    split; [ rewrite H1; reflexivity | split ].
    + constructor; [ rewrite length_app; reflexivity | exact H2 ].
    + intros Hca. rewrite (H3 Hca). f_equal.
      destruct x; [ simpl in Hca; lia | reflexivity ].
Qed.

Lemma hstack_shape (a b m : matrix) (r ca cb : nat) :
  shaped r ca a -> shaped r cb b ->
  hstack a b = Ok m ->
  shaped r (ca + cb) m
  /\ (1 <= ca -> column m 0 = column a 0).
Proof.
  intros [Ha1 [Ha2 Ha3]] [Hb1 [Hb2 Hb3]]. unfold hstack.
  destruct (Nat.eqb (nrows a) (nrows b)); [ | discriminate ].
  intros H. inversion H. clear H.
  unfold nrows, wf_matrix in *.
  rewrite Ha2 in Ha3. rewrite Hb2 in Hb3.
  destruct (@map2_app_rows (rows a) (rows b) ca cb) as [Hm1 [Hm2 Hm3]];
    [ lia | assumption | assumption | ].
  split.
  - unfold shaped, nrows, wf_matrix. simpl.
    rewrite Hm1, Ha2, Hb2. repeat split; assumption.
  - intros Hca. unfold column. simpl. rewrite Ha2, Hb2.
    replace (Nat.ltb 0 (ca + cb)) with true
      by (symmetry; apply Nat.ltb_lt; lia).
    replace (Nat.ltb 0 ca) with true by (symmetry; apply Nat.ltb_lt; lia).
    rewrite (Hm3 Hca). reflexivity.
Qed.

Lemma hstack_ok (a b : matrix) :
  nrows a = nrows b -> exists m, hstack a b = Ok m.
Proof.
  intros H. unfold hstack. rewrite H, Nat.eqb_refl. eexists. reflexivity.
Qed.

Lemma expand_dims_shape (v : list F64.t) :
  shaped (List.length v) 1 (expand_dims v)
  /\ column (expand_dims v) 0 = Ok v.
Proof.
  unfold shaped, nrows, wf_matrix, column, expand_dims. simpl.
  rewrite length_map, map_map, map_id. repeat split.
  apply Forall_forall. intros row Hrow.
  apply in_map_iff in Hrow. destruct Hrow as [x [<- _]]. reflexivity.
Qed.

Lemma index_of_bound (x : string) (l : list string) (i : nat) :
  index_of x l = Some i -> i < List.length l.
Proof.
  revert i. induction l as [| y l IH]; intros i; simpl.
  - discriminate.
  - destruct (String.eqb x y).
    + intros H. inversion H. lia.
    + destruct (index_of x l) as [j |]; [ | discriminate ].
      intros H. inversion H. specialize (IH j eq_refl). lia.
Qed.

Lemma index_of_In (x : string) (l : list string) :
  In x l -> exists i, index_of x l = Some i.
Proof.
  induction l as [| y l IH]; simpl.
  - intros [].
  - intros [-> | H].
    + rewrite String.eqb_refl. eexists. reflexivity.
    + destruct (String.eqb x y); [ eexists; reflexivity | ].
      destruct (IH H) as [i E]. rewrite E. eexists. reflexivity.
Qed.

Lemma batch_index_bound (f : list string) (x : string) (i : nat) :
  batch_index f x = Ok i -> i < _num_fields f false + 1.
Proof.
  unfold batch_index, _field_index, _num_fields.
  destruct (index_of x (_make_full_fields f false)) as [j |] eqn:E;
    simpl; [ | discriminate ].
  intros H. inversion H. apply index_of_bound in E. lia.
Qed.

Lemma batch_index_ok (f : list string) (x : string) :
  In x f -> x <> "U" -> exists i, batch_index f x = Ok i.
Proof.
  intros Hin Hx. unfold batch_index, _field_index.
  destruct (@index_of_In x (_make_full_fields f false)) as [j E].
  - apply make_full_fields_In. split; [ right; exact Hin | intros _; exact Hx ].
  - rewrite E. simpl. eexists. reflexivity.
Qed.

Lemma position_column_rows (f : list string) (flat : list F64.t) (r : nat) :
  List.length flat = r * (_num_fields f false + 1) ->
  position_column f flat
  = map (fun row => nth 0 row F64.zero)
      (chunk_rows r (_num_fields f false + 1) flat).
Proof.
  intros Hl. unfold position_column.
  rewrite Hl, Nat.div_mul by lia. reflexivity.
Qed.

Lemma load_batch_shape (time : time_dir) (comp res : option matrix)
  (f : list string) (flat : list F64.t) (r : nat) :
  fromfile time (batch_file f) = Ok flat ->
  List.length flat = r * (_num_fields f false + 1) ->
  load_batch time comp f = Ok res ->
  match comp with
  | None =>
      exists m, res = Some m
                /\ shaped r (1 + List.length f) m
                /\ column m 0 = Ok (position_column f flat)
  | Some c =>
      forall n, shaped r n c ->
        exists m, res = Some m
                  /\ shaped r (n + List.length f) m
                  /\ (1 <= n -> column m 0 = column c 0)
  end.
Proof.
  intros Hfile Hl. unfold load_batch. rewrite Hfile. cbn [bind].
  destruct (reshape flat (_num_fields f false + 1)) as [vals |] eqn:Hv;
    cbn [bind]; [ | discriminate ].
  destruct (@reshape_rows _ _ _ _ Hl Hv) as [Evals [Hv1 [Hv2 Hv3]]].
  destruct (mapM (batch_index f) f) as [indicies |] eqn:Hi;
    cbn [bind]; [ | discriminate ].
  apply mapM_length in Hi.
  destruct (take_cols vals indicies) as [svals |] eqn:Hs;
    cbn [bind]; [ | discriminate ].
  apply (@take_cols_shape _ _ _ _ Hv1) in Hs. rewrite Hi in Hs.
  destruct comp as [c |].
  - intros H n Hc.
    destruct (hstack c svals) as [m |] eqn:Hh; cbn [bind] in H;
      [ | discriminate ].
    inversion H. exists m. split; [ reflexivity | ].
    exact (@hstack_shape _ _ _ _ _ _ Hc Hs Hh).
  - unfold column at 1. rewrite Hv2.
    replace (Nat.ltb 0 (_num_fields f false + 1)) with true
      by (symmetry; apply Nat.ltb_lt; lia).
    cbn [bind].
    set (pos := map (fun row => nth 0 row F64.zero) (rows vals)).
    destruct (expand_dims_shape pos) as [Hp Hp0].
    assert (Hlen : List.length pos = r).
    { unfold pos. rewrite length_map. exact Hv1. }
    rewrite Hlen in Hp.
    destruct (hstack (expand_dims pos) svals) as [m |] eqn:Hh;
      cbn [bind]; [ | discriminate ].
    intros H. inversion H. exists m. split; [ reflexivity | ].
    destruct (@hstack_shape _ _ _ _ _ _ Hp Hs Hh) as [Hm Hcol].
    split; [ exact Hm | ].
    rewrite (Hcol (le_n 1)), Hp0. unfold pos.
    rewrite (@position_column_rows _ _ _ Hl), Evals. reflexivity.
Qed.

Lemma load_batch_ok (time : time_dir) (comp : option matrix)
  (f : list string) (flat : list F64.t) (r : nat) :
  f <> [] -> ~ In "U" f ->
  fromfile time (batch_file f) = Ok flat ->
  List.length flat = r * (_num_fields f false + 1) ->
  (forall c, comp = Some c -> nrows c = r) ->
  exists res, load_batch time comp f = Ok res.
Proof.
  intros Hne HU Hfile Hl Hcomp. unfold load_batch.
  rewrite Hfile. cbn [bind].
  rewrite (@reshape_ok flat r (_num_fields f false + 1) Hl) by lia.
  cbn [bind].
  destruct (@mapM_ok _ _ (batch_index f) f) as [indicies Hi].
  { intros x Hx. apply batch_index_ok; [ exact Hx | ].
    intros ->. exact (HU Hx). }
  rewrite Hi. cbn [bind].
  set (vals := Matrix (_num_fields f false + 1)
                 (chunk_rows r (_num_fields f false + 1) flat)).
  assert (Hv1 : nrows vals = r) by apply chunk_rows_length.
  destruct (@take_cols_ok vals indicies) as [svals Hs].
  { apply mapM_length in Hi. destruct indicies; [ | discriminate ].
    destruct f; [ congruence | discriminate ]. }
  { apply (@mapM_Forall _ _ (batch_index f) _ f indicies); [ | exact Hi ].
    intros x i _ E. apply (batch_index_bound _ _ E). }
  rewrite Hs. cbn [bind].
  destruct (@take_cols_shape _ _ _ _ Hv1 Hs) as [Hs1 _].
  destruct comp as [c |].
  - destruct (@hstack_ok c svals) as [m Hm].
    { rewrite Hs1. apply Hcomp. reflexivity. }
    rewrite Hm. cbn [bind]. eexists. reflexivity.
  - unfold column. cbn [ncols vals].
    replace (Nat.ltb 0 (_num_fields f false + 1)) with true
      by (symmetry; apply Nat.ltb_lt; lia).
    cbn [bind].
    match goal with
    | |- context [hstack ?a svals] =>
        destruct (@hstack_ok a svals) as [m Hm]
    end.
    { rewrite Hs1. unfold nrows, expand_dims. cbn [rows].
      rewrite !length_map. exact Hv1. }
    rewrite Hm. cbn [bind]. eexists. reflexivity.
Qed.

Lemma load_batches_shape (time : time_dir) (r : nat)
  (batches : list (list string)) :
  (forall f, In f batches ->
     exists flat, fromfile time (batch_file f) = Ok flat
                  /\ List.length flat = r * (_num_fields f false + 1)) ->
  forall c n res,
    shaped r n c -> 1 <= n ->
    load_batches time (Some c) batches = Ok res ->
    exists m, res = Some m
              /\ shaped r (n + List.length (List.concat batches)) m
              /\ column m 0 = column c 0.
Proof.
  induction batches as [| f rest IH]; intros Hfiles c n res Hc Hn; simpl.
  - intros H. inversion H. exists c. rewrite Nat.add_0_r. auto.
  - destruct (Hfiles f (or_introl eq_refl)) as [flat [Hfile Hl]].
    destruct (load_batch time (Some c) f) as [res1 |] eqn:Hb;
      cbn [bind]; [ | discriminate ].
    destruct (@load_batch_shape _ _ _ _ _ _ Hfile Hl Hb n Hc)
      as [m1 [-> [Hm1 Hcol1]]].
    intros H.
    destruct (IH (fun g Hg => Hfiles g (or_intror Hg)) m1
                (n + List.length f) res Hm1 ltac:(lia) H)
      as [m [-> [Hm Hcol]]].
    exists m. split; [ reflexivity | ].
    rewrite length_app, Nat.add_assoc. split; [ exact Hm | ].
    rewrite Hcol. apply Hcol1. exact Hn.
Qed.

Lemma load_batches_ok (time : time_dir) (r : nat)
  (batches : list (list string)) :
  (forall f, In f batches ->
     f <> [] /\ ~ In "U" f
     /\ exists flat, fromfile time (batch_file f) = Ok flat
                     /\ List.length flat = r * (_num_fields f false + 1)) ->
  forall comp,
    (forall c, comp = Some c -> exists n, shaped r n c) ->
    exists res, load_batches time comp batches = Ok res.
Proof.
  induction batches as [| f rest IH]; intros Hfiles comp Hcomp; simpl.
  - eexists. reflexivity.
  - destruct (Hfiles f (or_introl eq_refl)) as [Hne [HU [flat [Hfile Hl]]]].
    destruct (@load_batch_ok time comp f flat r Hne HU Hfile Hl)
      as [res1 Hb].
    { intros c Ec. destruct (Hcomp c Ec) as [n [Hn _]]. exact Hn. }
    rewrite Hb. cbn [bind].
    apply IH; [ intros g Hg; apply Hfiles; right; exact Hg | ].
    intros c1 Ec1. subst res1.
    pose proof (@load_batch_shape _ _ _ _ _ _ Hfile Hl Hb) as Hs.
    destruct comp as [c |].
    + destruct (Hcomp c eq_refl) as [n Hc].
      destruct (Hs n Hc) as [m [Em [Hm _]]]. inversion Em; subst.
      eexists. exact Hm.
    + destruct Hs as [m [Em [Hm _]]]. inversion Em; subst.
      eexists. exact Hm.
Qed.

Lemma field_iter_batch_fields (fields f : list string) (x : string) :
  In f (_field_iter fields false) -> In x f -> In x fields.
Proof.
  intros Hf Hx. rewrite <- (field_iter_concat fields false).
  apply in_concat. exists f. split; assumption.
Qed.

(** C6. When every batch of the requested fields has its file with the
    same number [r] of rows, the matrix assembled for the time
    directory, whenever there is one, has [1 + len(fields)] columns and
    [r] rows, and its column 0 is the position column of the first
    batch's file; and there is one as soon as the field list is not
    empty and does not name the velocity. *)
Theorem assemble_shape :
  forall (fields : list string) (time : time_dir) (r : nat),
    sampled fields time r ->
    (forall m, assemble fields time = Ok (Some m) ->
       shaped r (1 + List.length fields) m
       /\ exists first flat,
            hd_error (_field_iter fields false) = Some first
            /\ fromfile time (batch_file first) = Ok flat
            /\ column m 0 = Ok (position_column first flat))
    /\ (fields <> [] -> ~ In "U" fields ->
        exists m, assemble fields time = Ok (Some m)).
Proof.
  intros fields time r Hfiles.
  assert (Hshape : forall m, assemble fields time = Ok (Some m) ->
            shaped r (1 + List.length fields) m
            /\ exists first flat,
                 hd_error (_field_iter fields false) = Some first
                 /\ fromfile time (batch_file first) = Ok flat
                 /\ column m 0 = Ok (position_column first flat)).
  { intros m. unfold assemble. unfold sampled in Hfiles.
    pose proof (field_iter_concat fields false) as Hcat.
    destruct (_field_iter fields false) as [| first rest]; simpl.
    - discriminate.
    - destruct (Hfiles first (or_introl eq_refl)) as [flat [Hfile Hl]].
      destruct (load_batch time None first) as [res1 |] eqn:Hb;
        cbn [bind]; [ | discriminate ].
      destruct (@load_batch_shape _ _ _ _ _ _ Hfile Hl Hb)
        as [m1 [-> [Hm1 Hcol1]]].
      intros H.
      destruct (@load_batches_shape time r rest
                  (fun g Hg => Hfiles g (or_intror Hg)) m1
                  (1 + List.length first) (Some m) Hm1 ltac:(lia) H)
        as [m' [Em [Hm Hcol]]].
      inversion Em; subst m'. split.
      + destruct Hm as [Hr [Hn Hw]]. repeat split; [ exact Hr | | exact Hw ].
        rewrite Hn, <- Hcat. simpl List.concat. rewrite length_app. lia.
      + exists first, flat. repeat split; [ exact Hfile | ].
        rewrite Hcol. exact Hcol1. }
  split; [ exact Hshape | ].
  intros Hne HU.
  destruct (@load_batches_ok time r (_field_iter fields false)) with (comp := @None matrix)
    as [res Hres].
  - intros f Hf. split; [ | split ].
    + pose proof (field_iter_sizes fields false) as Hs.
      rewrite Forall_forall in Hs. specialize (Hs f Hf).
      destruct f; [ simpl in Hs; lia | discriminate ].
    + intros Hx. apply HU. exact (field_iter_batch_fields _ _ _ Hf Hx).
    + apply Hfiles. exact Hf.
  - discriminate.
  - destruct res as [m |]; [ exists m; exact Hres | ].
    exfalso. unfold assemble in Hshape.
    destruct (_field_iter fields false) as [| first rest] eqn:Hb.
    + apply field_iter_nil_iff in Hb. contradiction.
    + simpl in Hres.
      destruct (Hfiles first) as [flat [Hfile Hl]];
        [ rewrite Hb; left; reflexivity | ].
      destruct (load_batch time None first) as [res1 |] eqn:Hb1;
        cbn [bind] in Hres; [ | discriminate ].
      destruct (@load_batch_shape _ _ _ _ _ _ Hfile Hl Hb1)
        as [m1 [-> [Hm1 _]]].
      destruct (@load_batches_shape time r rest) with (c := m1)
        (n := 1 + List.length first) (res := @None matrix)
        as [m' [Em _]]; try assumption; try lia; try discriminate.
      intros g Hg. apply Hfiles. rewrite Hb. right. exact Hg.
Qed.

Lemma assemble_shape_witness :
  shaped 2 3 matrix_T_p
  /\ column matrix_T_p 0 = Ok (position_column ["T"; "p"] line_T_p).
Proof.
  assert (Hs : sampled ["T"; "p"] dir_5000 2).
  { intros f [<- | []]. exists line_T_p. split; vm_compute; reflexivity. }
  destruct (@assemble_shape ["T"; "p"] dir_5000 2 Hs) as [H1 H2].
  destruct H2 as [m Hm].
  - discriminate.
  - intros [E | [E | []]]; discriminate E.
  - destruct (H1 m Hm) as [Hsh [first [flat [Hhd [Hf Hc]]]]].
    assert (Em : m = matrix_T_p).
    { assert (E : assemble ["T"; "p"] dir_5000 = Ok (Some matrix_T_p))
        by (vm_compute; reflexivity).
      rewrite E in Hm. inversion Hm. reflexivity. }
    subst m.
    assert (Ef : first = ["T"; "p"]).
    { vm_compute in Hhd. inversion Hhd. reflexivity. }
    subst first.
    assert (El : flat = line_T_p).
    { vm_compute in Hf. inversion Hf. reflexivity. }
    subst flat.
    split; [ exact Hsh | exact Hc ].
Defined.

(** ** The validator *)

(** C1. The claim holds for a candidate without the time, and fails
    for the baseline: [results[base][time]] is read before any test,
    so a time the baseline lacks, or a results collection without the
    baseline, ends the run with [KeyError], and the comparisons at the
    other times are never made. *)
Theorem validate_baseline_gap_raises :
  validate [t6000; t5000] results_baseline_gap ["T"; "p"] default_base
  = ([], Some KeyError)
  /\ validate [t5000] results_no_baseline ["T"; "p"] default_base
     = ([], Some KeyError)
  /\ validate [t5000] results_candidate_gap ["T"; "p"] default_base
     = ([], None)
  /\ validate [t5000] results_baseline_gap ["T"; "p"] default_base
     = ([MaxTemperatureError one; MaxPressureError one;
         RelError "SandiaD_LTS_seulex" t5000 one scenario_mean "T"], None).
Proof.
  repeat split; vm_compute; reflexivity.
Qed.

(** C3, as stated, fails: in the scenario the validator reports a
    pressure error of 1%, not 0%; the pressure differs at the second
    point by 1010 over 101000. *)
Lemma scenario_pressure_error_is_one_percent :
  validate [t5000] scenario_results ["T"; "p"] default_base
  = ([MaxTemperatureError one; MaxPressureError one;
      RelError "SandiaD_LTS_seulex" t5000 one scenario_mean "T"], None)
  /\ F64.eqb one F64.zero = false.
Proof.
  split; vm_compute; reflexivity.
Qed.

(** C3, amended.  In the scenario the elementwise relative error is
    0.01 for the temperature at the first point and for the pressure
    at the second, and zero elsewhere; so the temperature error at the
    first point is 1%, and the validator reports 1% for the
    temperature, 1% for the pressure and 1% for the inf-norm. *)
Theorem scenario_errors :
  rel_diff (Some matrix_T_p) (Some matrix_T_p_candidate)
  = Ok (Matrix 2 [[one_hundredth; F64.zero]; [F64.zero; one_hundredth]])
  /\ F64.mul one_hundredth hundred = one
  /\ validate [t5000] scenario_results ["T"; "p"] default_base
     = ([MaxTemperatureError one; MaxPressureError one;
         RelError "SandiaD_LTS_seulex" t5000 one scenario_mean "T"], None).
Proof.
  repeat split; vm_compute; reflexivity.
Qed.

(** The two lookups of [validate], in general: a candidate without the
    time is passed over, a baseline without it ends the run. *)
Lemma validate_cases_skips_candidate (fields : list string) (base case : string)
  (time : F64.t) (comp : option matrix) (snaps : snapshots)
  (rest : results_t) :
  dict_get key_eq time snaps = None ->
  validate_cases fields base time comp ((case, snaps) :: rest)
  = validate_cases fields base time comp rest.
Proof.
  intros H. simpl. rewrite H. destruct (String.eqb case base); reflexivity.
Qed.

Lemma validate_raises_without_baseline (times : list F64.t)
  (results : results_t) (fields : list string) (base : string) (time : F64.t) :
  baseline results base time = Raise KeyError ->
  validate (time :: times) results fields base = ([], Some KeyError).
Proof.
  intros H. simpl. rewrite H. reflexivity.
Qed.

(** ** Rounding never loses a positive number *)

Lemma digits2_size (m : positive) : digits2_pos m = Pos.size m.
Proof. induction m; simpl; congruence. Qed.

Lemma digits2_lower (m : positive) :
  (2 ^ (Zpos (digits2_pos m) - 1) <= Zpos m)%Z.
Proof.
  induction m as [m IH | m IH |]; simpl digits2_pos.
  - rewrite Pos2Z.inj_succ.
    replace (Z.succ (Zpos (digits2_pos m)) - 1)%Z
      with (Z.succ (Zpos (digits2_pos m) - 1))%Z by lia.
    rewrite Z.pow_succ_r by lia. lia.
  - rewrite Pos2Z.inj_succ.
    replace (Z.succ (Zpos (digits2_pos m)) - 1)%Z
      with (Z.succ (Zpos (digits2_pos m) - 1))%Z by lia.
    rewrite Z.pow_succ_r by lia. lia.
  - simpl. lia.
Qed.

Lemma shr_1_div2 (mrs : shr_record) :
  (0 <= shr_m mrs)%Z -> shr_m (shr_1 mrs) = Z.div2 (shr_m mrs).
Proof.
  destruct mrs as [m r s]. simpl.
  destruct m as [| [p | p |] | p]; simpl; intros H; try reflexivity; lia.
Qed.

Lemma iter_shr_1_shiftr (p : positive) :
  forall mrs : shr_record,
    (0 <= shr_m mrs)%Z ->
    shr_m (iter_pos shr_1 p mrs) = Z.shiftr (shr_m mrs) (Zpos p).
Proof.
  induction p as [p IH | p IH |]; intros mrs H; simpl iter_pos.
  - assert (H1 : (0 <= shr_m (shr_1 mrs))%Z).
    { rewrite shr_1_div2 by exact H. apply Z.div2_nonneg. exact H. }
    assert (H2 : (0 <= shr_m (iter_pos shr_1 p (shr_1 mrs)))%Z).
    { rewrite IH by exact H1. apply Z.shiftr_nonneg. exact H1. }
    rewrite IH by exact H2. rewrite IH by exact H1.
    rewrite shr_1_div2 by exact H. rewrite Z.div2_spec.
    rewrite !Z.shiftr_shiftr by lia. f_equal. lia.
  - assert (H2 : (0 <= shr_m (iter_pos shr_1 p mrs))%Z).
    { rewrite IH by exact H. apply Z.shiftr_nonneg. exact H. }
    rewrite IH by exact H2. rewrite IH by exact H.
    rewrite Z.shiftr_shiftr by lia. f_equal. lia.
  - rewrite shr_1_div2 by exact H. apply Z.div2_spec.
Qed.

Lemma shiftr_keeps_positive (m p : positive) :
  (Zpos p < Zpos (digits2_pos m))%Z ->
  (0 < Z.shiftr (Zpos m) (Zpos p))%Z.
Proof.
  intros H. rewrite Z.shiftr_div_pow2 by lia.
  apply Z.div_str_pos. split; [ apply Z.pow_pos_nonneg; lia | ].
  eapply Z.le_trans; [ | apply digits2_lower ].
  apply Z.pow_le_mono_r; lia.
Qed.

Lemma record_of_loc_m (m : Z) (l : location) :
  shr_m (shr_record_of_loc m l) = m.
Proof. destruct l as [| []]; reflexivity. Qed.

Lemma shr_fexp_positive (m : positive) (e : Z) (l : location) :
  (emin F64.prec F64.emax <= e)%Z ->
  exists mrs e',
    shr_fexp F64.prec F64.emax (Zpos m) e l = (mrs, e')
    /\ (0 < shr_m mrs)%Z
    /\ (emin F64.prec F64.emax <= e')%Z.
Proof.
  intros He. unfold shr_fexp, shr.
  destruct (fexp F64.prec F64.emax (Zdigits2 (Zpos m) + e) - e)%Z
    as [| p | p] eqn:En.
  - eexists _, _. split; [ reflexivity | ].
    rewrite record_of_loc_m. split; [ lia | exact He ].
  - eexists _, _. split; [ reflexivity | ].
    rewrite iter_shr_1_shiftr by (rewrite record_of_loc_m; lia).
    rewrite record_of_loc_m. split; [ | lia ].
    apply shiftr_keeps_positive.
    unfold fexp, emin, F64.prec, F64.emax in *. simpl Zdigits2 in En. lia.
  - eexists _, _. split; [ reflexivity | ].
    rewrite record_of_loc_m. split; [ lia | exact He ].
Qed.

Lemma round_nearest_even_positive (m : Z) (l : location) :
  (0 < m)%Z -> (0 < round_nearest_even m l)%Z.
Proof.
  intros H. destruct l as [| []]; simpl; try lia.
  destruct (Z.even m); lia.
Qed.

Lemma binary_round_aux_positive (m : positive) (e : Z) (l : location) :
  (emin F64.prec F64.emax <= e)%Z ->
  is_pos (binary_round_aux F64.prec F64.emax false (Zpos m) e l) = true.
Proof.
  intros He. unfold binary_round_aux.
  destruct (shr_fexp_positive m l He) as [mrs1 [e1 [E1 [Hm1 He1]]]].
  rewrite E1.
  pose proof (round_nearest_even_positive (loc_of_shr_record mrs1) Hm1) as Hr.
  destruct (round_nearest_even (shr_m mrs1) (loc_of_shr_record mrs1))
    as [| m2 | m2]; try lia.
  destruct (shr_fexp_positive m2 loc_Exact He1) as [mrs2 [e2 [E2 [Hm2 _]]]].
  rewrite E2.
  destruct (shr_m mrs2) as [| m3 | m3]; try lia.
  destruct (Z.leb e2 (F64.emax - F64.prec)); reflexivity.
Qed.

Lemma binary_round_positive (m : positive) (e : Z) :
  (emin F64.prec F64.emax <= e)%Z ->
  is_pos (binary_round F64.prec F64.emax false m e) = true.
Proof.
  intros He. unfold binary_round, shl_align.
  destruct (fexp F64.prec F64.emax (Zpos (digits2_pos m) + e) - e)%Z
    as [| p | p] eqn:En.
  - apply binary_round_aux_positive. exact He.
  - apply binary_round_aux_positive. exact He.
  - apply binary_round_aux_positive. unfold fexp. lia.
Qed.

Lemma of_nat_positive (n : nat) : 1 <= n -> is_pos (F64.of_nat n) = true.
Proof.
  intros H. unfold F64.of_nat, F64.of_Z, binary_normalize.
  destruct (Z.of_nat n) as [| p | p] eqn:E; try lia.
  apply binary_round_positive. unfold emin, F64.prec, F64.emax. lia.
Qed.

Lemma eps_1e_300_value :
  eps_1e_300 = S754_finite false 6032057205060441 (-1049).
Proof. vm_compute. reflexivity. Qed.

Lemma valid_exponent (s : bool) (m : positive) (e : Z) :
  F64.valid (S754_finite s m e) = true ->
  (emin F64.prec F64.emax <= e)%Z.
Proof.
  unfold F64.valid, valid_binary, bounded, canonical_mantissa.
  intros H. apply andb_prop in H. destruct H as [H _].
  apply Z.eqb_eq in H. unfold fexp in H. lia.
Qed.

(** The floored magnitude of the baseline is never zero. *)
Lemma floored_abs_positive (x : F64.t) :
  regular x -> is_pos (F64.add eps_1e_300 (F64.abs x)) = true.
Proof.
  intros [Hf Hv]. rewrite eps_1e_300_value.
  destruct x as [s | s | | s m e]; try discriminate Hf.
  - reflexivity.
  - apply valid_exponent in Hv.
    unfold F64.add, F64.abs, SFabs, SFadd, cond_Zopp.
    match goal with
    | |- context [Z.add (Zpos ?a) (Zpos ?b)] =>
        change (Z.add (Zpos a) (Zpos b)) with (Zpos (a + b))
    end.
    unfold binary_normalize. apply binary_round_positive.
    unfold emin, F64.prec, F64.emax in *. lia.
Qed.

Lemma sub_self_zero (x : F64.t) :
  F64.is_finite x = true -> F64.abs (F64.sub x x) = F64.zero.
Proof.
  destruct x as [s | s | | s m e]; try discriminate; intros _.
  - destruct s; reflexivity.
  - unfold F64.sub, SFsub. rewrite Z.sub_diag. reflexivity.
Qed.

Lemma zero_div_positive (y : F64.t) :
  is_pos y = true -> F64.div F64.zero y = F64.zero.
Proof.
  destruct y as [s | s | | s m e]; try discriminate;
    destruct s; try discriminate; reflexivity.
Qed.

(** The relative error of a regular number against itself. *)
Lemma rel_err_self (x : F64.t) :
  regular x ->
  F64.div (F64.abs (F64.sub x x)) (F64.add eps_1e_300 (F64.abs x))
  = F64.zero.
Proof.
  intros H. rewrite (sub_self_zero _ (proj1 H)).
  apply zero_div_positive, floored_abs_positive, H.
Qed.

(** ** Elementwise operations on arrays of one shape *)

Lemma stretch_id {A : Type} (n : nat) (l : list A) :
  List.length l = n -> stretch n l = l.
Proof.
  destruct l as [| x [| y l]]; simpl; intros <-; reflexivity.
Qed.

Lemma map2_stretched (op : F64.t -> F64.t -> F64.t) (c : nat)
  (la lb : list (list F64.t)) :
  Forall (fun r => List.length r = c) la ->
  Forall (fun r => List.length r = c) lb ->
  map2 (fun ra rb => map2 op (stretch c ra) (stretch c rb)) la lb
  = map2 (map2 op) la lb.
Proof.
  intros Ha. revert lb. induction Ha as [| ra la Hra Ha IH];
    intros lb Hb; simpl.
  - reflexivity.
  - destruct Hb as [| rb lb Hrb Hb]; [ reflexivity | ].
    rewrite (stretch_id ra Hra), (stretch_id rb Hrb), (IH lb Hb).
    reflexivity.
Qed.

Lemma broadcast2_aligned (op : F64.t -> F64.t -> F64.t) (a b : matrix) :
  nrows a = nrows b -> ncols a = ncols b ->
  wf_matrix a -> wf_matrix b ->
  broadcast2 op a b = Ok (Matrix (ncols a) (map2 (map2 op) (rows a) (rows b))).
Proof.
  intros Hr Hc Ha Hb. unfold broadcast2, bdim, nrows in *.
  rewrite <- Hr, <- Hc, !Nat.eqb_refl.
  rewrite (stretch_id (rows a) eq_refl).
  rewrite (stretch_id (rows b) (eq_sym Hr)).
  unfold wf_matrix in Hb. rewrite <- Hc in Hb.
  rewrite (map2_stretched op Ha Hb). reflexivity.
Qed.

Lemma map2_map_rows (op : F64.t -> F64.t -> F64.t) (g h : F64.t -> F64.t)
  (l : list (list F64.t)) :
  map2 (map2 op) (map (map g) l) (map (map h) l)
  = map (map (fun x => op (g x) (h x))) l.
Proof.
  induction l as [| r l IH]; simpl.
  - reflexivity.
  - rewrite IH. f_equal.
    induction r as [| x r IHr]; simpl; [ reflexivity | ].
    rewrite IHr. reflexivity.
Qed.

Lemma map_rows_length (g : F64.t -> F64.t) (c : nat) (l : list (list F64.t)) :
  Forall (fun r => List.length r = c) l ->
  Forall (fun r => List.length r = c) (map (map g) l).
Proof.
  intros H. apply Forall_forall. intros r Hr.
  apply in_map_iff in Hr. destruct Hr as [r' [<- Hr']].
  rewrite length_map. rewrite Forall_forall in H. exact (H r' Hr').
Qed.

Lemma map_const_repeat {A B : Type} (y : B) (l : list A) :
  map (fun _ => y) l = repeat y (List.length l).
Proof.
  induction l as [| x l IH]; simpl; [ reflexivity | ].
  rewrite IH. reflexivity.
Qed.

(** The relative error of an array of regular numbers against itself
    is the array of zeros. *)
Lemma rel_diff_self (m : matrix) :
  wf_matrix m ->
  (forall row, In row (rows m) -> Forall regular (skipn 1 row)) ->
  rel_diff (Some m) (Some m) = Ok (zeros (nrows m) (ncols m - 1)).
Proof.
  intros Hwf Hreg. unfold rel_diff, as_array. cbn [bind].
  set (R := map (skipn 1) (rows m)).
  set (c := ncols m - 1).
  assert (HR : Forall (fun r => List.length r = c) R).
  { apply Forall_forall. intros r Hr. unfold R in Hr.
    apply in_map_iff in Hr. destruct Hr as [r' [<- Hr']].
    rewrite length_skipn. unfold wf_matrix in Hwf.
    rewrite Forall_forall in Hwf. rewrite (Hwf r' Hr'). reflexivity. }
  assert (HRl : List.length R = nrows m) by apply length_map.
  assert (Hid : R = map (map (fun x => x)) R).
  { rewrite (map_ext _ _ (fun r : list F64.t => map_id r)), map_id.
    reflexivity. }
  rewrite (@broadcast2_aligned F64.sub (drop_col0 m) (drop_col0 m)
             eq_refl eq_refl HR HR).
  cbn [bind]. unfold map_matrix, drop_col0. cbn [ncols rows]. fold R c.
  rewrite Hid at 1 2. rewrite map2_map_rows.
  rewrite map_map.
  rewrite (map_ext _ _ (fun r : list F64.t =>
             map_map (fun x => F64.sub x x) F64.abs r)).
  rewrite broadcast2_aligned; cbn [ncols rows nrows];
    [ | unfold nrows; cbn [rows]; rewrite !length_map; reflexivity
      | reflexivity
      | unfold wf_matrix; cbn [ncols rows]; apply map_rows_length, HR
      | unfold wf_matrix; cbn [ncols rows]; apply map_rows_length, HR ].
  rewrite map2_map_rows. unfold zeros. f_equal.
  rewrite <- HRl.
  assert (Hz : forall r, In r R ->
            map (fun x => F64.div (F64.abs (F64.sub x x))
                            (F64.add eps_1e_300 (F64.abs x))) r
            = repeat F64.zero c).
  { intros r Hr. rewrite Forall_forall in HR. rewrite <- (HR r Hr).
    rewrite <- map_const_repeat. apply map_ext_in.
    intros x Hx. apply rel_err_self.
    unfold R in Hr. apply in_map_iff in Hr. destruct Hr as [r' [<- Hr']].
    specialize (Hreg r' Hr'). rewrite Forall_forall in Hreg.
    exact (Hreg x Hx). }
  rewrite (map_ext_in _ _ _ Hz), map_const_repeat. reflexivity.
Qed.

(** ** The norms of an array of zeros *)

Lemma fold_maximum_zeros (n : nat) :
  fold_left F64.maximum (repeat F64.zero n) F64.zero = F64.zero.
Proof. induction n as [| n IH]; simpl; [ reflexivity | exact IH ]. Qed.

Lemma norm_inf_zeros (n : nat) :
  1 <= n -> norm_inf (repeat F64.zero n) = Ok F64.zero.
Proof.
  intros H. unfold norm_inf. rewrite map_repeat.
  destruct n as [| n]; [ lia | ].
  simpl. rewrite fold_maximum_zeros. reflexivity.
Qed.

Lemma mapM_repeat {A B : Type} (f : A -> outcome B) (x : A) (y : B) (n : nat) :
  f x = Ok y -> mapM f (repeat x n) = Ok (repeat y n).
Proof.
  intros H. induction n as [| n IH]; simpl.
  - reflexivity.
  - rewrite H. simpl. rewrite IH. reflexivity.
Qed.

Lemma max_of_max_zeros (r c : nat) :
  1 <= r -> 1 <= c -> max_of_max (zeros r c) = Ok F64.zero.
Proof.
  intros Hr Hc. unfold max_of_max, norm_inf_rows, zeros. cbn [ncols rows].
  destruct (Nat.eqb c 0) eqn:E; [ apply Nat.eqb_eq in E; lia | ].
  rewrite (mapM_repeat norm_inf _ r (norm_inf_zeros Hc)). cbn [bind].
  apply norm_inf_zeros. exact Hr.
Qed.

Lemma where_cols_zeros (r c : nat) :
  1 <= r -> 1 <= c ->
  exists rest, where_cols F64.zero (zeros r c) = 0 :: rest.
Proof.
  intros Hr Hc. destruct r as [| r]; [ lia | ].
  destruct c as [| c]; [ lia | ].
  unfold where_cols, zeros. cbn [rows]. simpl. eexists. reflexivity.
Qed.

Lemma fold_add_zeros (n : nat) :
  fold_left F64.add (repeat F64.zero n) F64.zero = F64.zero.
Proof. induction n as [| n IH]; simpl; [ reflexivity | exact IH ]. Qed.

Lemma norm_2_zeros (n : nat) : norm_2 (repeat F64.zero n) = F64.zero.
Proof.
  unfold norm_2, add_reduce. rewrite map_repeat.
  change (F64.mul F64.zero F64.zero) with F64.zero.
  destruct n as [| n]; simpl; [ reflexivity | ].
  rewrite fold_add_zeros. reflexivity.
Qed.

Lemma mean_err_zeros (r c : nat) :
  1 <= r -> 1 <= c -> mean_err (zeros r c) = F64.zero.
Proof.
  intros Hr Hc. unfold mean_err, norm_2_rows, zeros, nrows.
  cbn [ncols rows]. rewrite repeat_length, !map_repeat.
  rewrite norm_2_zeros, (zero_div_positive _ (of_nat_positive Hc)).
  rewrite norm_2_zeros.
  change (F64.mul F64.zero hundred) with F64.zero.
  apply zero_div_positive, of_nat_positive, Hr.
Qed.

Lemma field_err_zeros (fields : list string) (name : string) (r c : nat) :
  1 <= r -> List.length fields <= c ->
  field_err fields name (zeros r c)
  = Ok (option_map (fun _ => F64.zero) (index_of name fields)).
Proof.
  intros Hr Hc. unfold field_err.
  destruct (index_of name fields) as [ind |] eqn:E; [ | reflexivity ].
  apply index_of_bound in E. unfold column, zeros. cbn [ncols rows].
  replace (Nat.ltb ind c) with true by (symmetry; apply Nat.ltb_lt; lia).
  cbn [bind]. rewrite map_repeat, nth_repeat.
  rewrite (norm_inf_zeros Hr). reflexivity.
Qed.

(** C4, as stated, fails for a sample matrix without rows, as a time
    directory with empty sampled files yields, and for one holding a
    NaN: compared with itself the first makes the norm raise
    [ValueError], and the second has a NaN error, after which the
    lookup of the worst field raises [IndexError]. *)
Lemma self_comparison_without_zero_error :
  compare_case ["T"; "p"] "SandiaD_LTS_seulex" t5000
    (Some matrix_no_rows) (Some matrix_no_rows)
  = ([], Some ValueError)
  /\ (exists diff,
        rel_diff (Some matrix_nan) (Some matrix_nan) = Ok diff
        /\ max_of_max diff = Ok S754_nan)
  /\ compare_case ["T"; "p"] "SandiaD_LTS_seulex" t5000
       (Some matrix_nan) (Some matrix_nan)
     = ([MaxTemperatureError S754_nan; MaxPressureError F64.zero],
        Some IndexError).
Proof.
  split; [ vm_compute; reflexivity | split ].
  - eexists. split; vm_compute; reflexivity.
  - vm_compute. reflexivity.
Qed.

(** C4, amended.  For a sample matrix with at least one row, as many
    field columns as requested fields (at least one), and regular
    numbers (finite binary64 values) in its field columns, comparing
    it with itself gives a relative error that is zero everywhere, and
    the validator reports zero for the inf-norm, for the mean and for
    the temperature and the pressure when they are requested. *)
Theorem self_comparison_zero_error :
  forall (m : matrix) (fields : list string) (case : string) (time : F64.t),
    wf_matrix m ->
    1 <= nrows m ->
    fields <> [] ->
    List.length fields = ncols m - 1 ->
    (forall row, In row (rows m) -> Forall regular (skipn 1 row)) ->
    rel_diff (Some m) (Some m) = Ok (zeros (nrows m) (ncols m - 1))
    /\ exists f,
         nth_error fields 0 = Some f
         /\ compare_case fields case time (Some m) (Some m)
            = (zero_report fields case time f, None).
Proof.
  intros m fields case time Hwf Hr Hne Hlen Hreg.
  pose proof (rel_diff_self Hwf Hreg) as Hd.
  split; [ exact Hd | ].
  destruct fields as [| f fields']; [ congruence | ].
  exists f. split; [ reflexivity | ].
  assert (Hc : 1 <= ncols m - 1) by (rewrite <- Hlen; simpl; lia).
  unfold compare_case. rewrite Hd. cbn [bind].
  rewrite (max_of_max_zeros Hr Hc). cbn [bind].
  rewrite !field_err_zeros by (try exact Hr; rewrite Hlen; lia).
  destruct (where_cols_zeros Hr Hc) as [rest ->].
  rewrite (mean_err_zeros Hr Hc).
  change (F64.mul F64.zero hundred) with F64.zero.
  unfold max_field, zero_report. cbn [nth_error].
  rewrite app_assoc. reflexivity.
Qed.

Lemma self_comparison_zero_error_witness :
  rel_diff (Some matrix_T_p) (Some matrix_T_p) = Ok (zeros 2 2)
  /\ compare_case ["T"; "p"] "SandiaD_LTS_seulex" t5000
       (Some matrix_T_p) (Some matrix_T_p)
     = ([MaxTemperatureError F64.zero; MaxPressureError F64.zero;
         RelError "SandiaD_LTS_seulex" t5000 F64.zero F64.zero "T"], None).
Proof.
  destruct (@self_comparison_zero_error matrix_T_p ["T"; "p"]
              "SandiaD_LTS_seulex" t5000) as [H1 [f [Hf H2]]].
  - repeat constructor.
  - unfold nrows. simpl. lia.
  - discriminate.
  - reflexivity.
  - intros row [<- | [<- | []]]; repeat constructor.
  - inversion Hf; subst f. split; [ exact H1 | exact H2 ].
Defined.

(** * Further properties *)

Unset Implicit Arguments.

(** ** Rounding keeps signs and exponents in range *)

Lemma shr_fexp_range (m : positive) (e : Z) (l : location) :
  exists mrs e',
    shr_fexp F64.prec F64.emax (Zpos m) e l = (mrs, e')
    /\ (0 <= shr_m mrs)%Z
    /\ (emin F64.prec F64.emax <= e')%Z.
Proof.
  unfold shr_fexp, shr.
  destruct (fexp F64.prec F64.emax (Zdigits2 (Zpos m) + e) - e)%Z
    as [| p | p] eqn:En.
  - eexists _, _. split; [ reflexivity | ].
    rewrite record_of_loc_m. split; [ lia | ].
    unfold fexp, emin, F64.prec, F64.emax in *. lia.
  - eexists _, _. split; [ reflexivity | ].
    rewrite iter_shr_1_shiftr by (rewrite record_of_loc_m; lia).
    rewrite record_of_loc_m. split.
    + apply Z.shiftr_nonneg. lia.
    + unfold fexp, emin, F64.prec, F64.emax in *. lia.
  - eexists _, _. split; [ reflexivity | ].
    rewrite record_of_loc_m. split; [ lia | ].
    unfold fexp, emin, F64.prec, F64.emax in *. lia.
Qed.

Lemma shr_fexp_zero (e : Z) :
  (emin F64.prec F64.emax <= e)%Z ->
  shr_m (fst (shr_fexp F64.prec F64.emax 0 e loc_Exact)) = 0%Z.
Proof.
  intros He. unfold shr_fexp, shr. simpl Zdigits2.
  destruct (fexp F64.prec F64.emax (0 + e) - e)%Z as [| p | p] eqn:En;
    try reflexivity.
  unfold fexp, emin, F64.prec, F64.emax in *. lia.
Qed.

Lemma binary_round_aux_signed (s : bool) (m : positive) (e : Z) (l : location) :
  rounded_with_sign s (binary_round_aux F64.prec F64.emax s (Zpos m) e l).
Proof.
  unfold binary_round_aux.
  destruct (shr_fexp_range m e l) as [mrs1 [e1 [E1 [Hm1 He1]]]].
  rewrite E1.
  destruct (round_nearest_even (shr_m mrs1) (loc_of_shr_record mrs1))
    as [| m2 | m2] eqn:Er.
  - pose proof (shr_fexp_zero e1 He1) as Hz.
    destruct (shr_fexp F64.prec F64.emax 0 e1 loc_Exact) as [mrs2 e2].
    simpl in Hz. rewrite Hz. reflexivity.
  - destruct (shr_fexp_range m2 e1 loc_Exact) as [mrs2 [e2 [E2 [Hm2 He2]]]].
    rewrite E2.
    destruct (shr_m mrs2) as [| m3 | m3]; try lia; [ reflexivity | ].
    destruct (Z.leb e2 (F64.emax - F64.prec)); simpl; auto.
  - exfalso.
    assert (H : (0 <= round_nearest_even (shr_m mrs1)
                        (loc_of_shr_record mrs1))%Z).
    { destruct (loc_of_shr_record mrs1) as [| []]; simpl; try lia.
      destruct (Z.even (shr_m mrs1)); lia. }
    rewrite Er in H. lia.
Qed.

Lemma add_positive_rounded (x y : F64.t) :
  is_pos x = true -> F64.valid x = true -> F64.is_finite x = true ->
  rounded_with_sign false y ->
  is_pos (F64.add x y) = true.
Proof.
  intros Hx Hv Hf Hy.
  destruct x as [sx | sx | | sx mx ex]; try discriminate.
  destruct sx; try discriminate.
  apply valid_exponent in Hv.
  destruct y as [sy | sy | | sy my ey]; simpl in Hy; try contradiction.
  - reflexivity.
  - subst sy. reflexivity.
  - destruct Hy as [-> Hey].
    unfold F64.add, SFadd, cond_Zopp.
    match goal with
    | |- context [Z.add (Zpos ?a) (Zpos ?b)] =>
        change (Z.add (Zpos a) (Zpos b)) with (Zpos (a + b))
    end.
    unfold binary_normalize. apply binary_round_positive. lia.
Qed.

Lemma zero_leb_positive (y : F64.t) :
  is_pos y = true -> F64.leb F64.zero y = true.
Proof.
  destruct y as [s | s | | s m e]; try discriminate;
    destruct s; try discriminate; reflexivity.
Qed.

(** The tolerance around a time, [1e-10 + 1e-10 * |t|], is positive. *)
Lemma tolerance_positive (t : F64.t) :
  F64.is_finite t = true ->
  is_pos (F64.add tol_1e_10 (F64.mul tol_1e_10 (F64.abs t))) = true.
Proof.
  intros Hf. rewrite tol_1e_10_value.
  apply add_positive_rounded; try reflexivity.
  destruct t as [s | s | | s m e]; try discriminate Hf.
  - reflexivity.
  - unfold F64.mul, F64.abs, SFabs, SFmul.
    apply (binary_round_aux_signed false).
Qed.

(** X1. A finite time matches itself, whatever its magnitude; and a
    NaN matches no time, on either side. *)
Theorem timecheck_reflexive_and_nan :
  forall t : F64.t,
    (F64.is_finite t = true -> _timecheck t t = true)
    /\ _timecheck t S754_nan = false
    /\ _timecheck S754_nan t = false.
Proof.
  intros t. split; [ | split ].
  - intros Hf. unfold _timecheck, np_isclose, within_tol.
    rewrite Hf. cbn [andb].
    rewrite (sub_self_zero t Hf).
    apply zero_leb_positive, tolerance_positive, Hf.
  - unfold _timecheck, np_isclose. cbn [F64.is_finite].
    rewrite andb_false_r. destruct t; reflexivity.
  - reflexivity.
Qed.

Lemma timecheck_reflexive_and_nan_witness :
  _timecheck t5000_01 t5000_01 = true.
Proof.
  apply (proj1 (timecheck_reflexive_and_nan t5000_01)).
  reflexivity.
Defined.

(** ** What the loader can raise *)

Lemma reshape_inv (flat : list F64.t) (k : nat) (vals : matrix) :
  reshape flat k = Ok vals ->
  k <> 0
  /\ List.length flat = (List.length flat / k) * k
  /\ vals = Matrix k (chunk_rows (List.length flat / k) k flat).
Proof.
  unfold reshape.
  destruct (Nat.eqb k 0) eqn:Hk; [ discriminate | ].
  apply Nat.eqb_neq in Hk.
  destruct (Nat.eqb (List.length flat mod k) 0) eqn:Hm; [ | discriminate ].
  apply Nat.eqb_eq in Hm. intros H. inversion H.
  split; [ exact Hk | split; [ | reflexivity ] ].
  apply Nat.Div0.div_exact in Hm. lia.
Qed.

Lemma reshape_raises (flat : list F64.t) (k : nat) (e : exn) :
  reshape flat k = Raise e -> e = ValueError.
Proof.
  unfold reshape.
  destruct (Nat.eqb k 0); [ intros H; inversion H; reflexivity | ].
  destruct (Nat.eqb (List.length flat mod k) 0); [ discriminate | ].
  intros H. inversion H. reflexivity.
Qed.


Lemma batch_index_raises (f : list string) (x : string) (e : exn) :
  batch_index f x = Raise e -> e = ValueError.
Proof.
  unfold batch_index, _field_index.
  destruct (index_of x (_make_full_fields f false)); simpl.
  - discriminate.
  - intros H. inversion H. reflexivity.
Qed.


Lemma hstack_inv (a b m : matrix) :
  hstack a b = Ok m -> nrows a = nrows b.
Proof.
  unfold hstack. destruct (Nat.eqb (nrows a) (nrows b)) eqn:E;
    [ | discriminate ].
  intros _. apply Nat.eqb_eq. exact E.
Qed.

(** The index array of a non-empty batch is never refused. *)
Lemma take_cols_batch (f : list string) (vals : matrix) (indicies : list nat) :
  f <> [] ->
  ncols vals = _num_fields f false + 1 ->
  mapM (batch_index f) f = Ok indicies ->
  exists svals, take_cols vals indicies = Ok svals.
Proof.
  intros Hne Hc Hi. apply take_cols_ok.
  - apply mapM_length in Hi. destruct indicies; [ | discriminate ].
    destruct f; [ congruence | discriminate ].
  - rewrite Hc.
    apply (@mapM_Forall _ _ (batch_index f) _ f indicies); [ | exact Hi ].
    intros x i _ E. apply (batch_index_bound _ _ E).
Qed.



Lemma field_iter_nonempty_batches {A : Type} (fields : list A) (b : bool) :
  Forall (fun f => f <> []) (_field_iter fields b).
Proof.
  eapply Forall_impl; [ | apply field_iter_sizes ].
  intros f Hf E. subst f. simpl in Hf. lia.
Qed.



Lemma dict_get_set_present {V : Type} (k : string) (v : V) (d : dict string V) :
  dict_get String.eqb k (dict_set String.eqb k v d) = Some v.
Proof.
  induction d as [| [k' v'] d IH]; simpl.
  - rewrite String.eqb_refl. reflexivity.
  - destruct (String.eqb k' k) eqn:E; simpl; rewrite E; [ reflexivity | exact IH ].
Qed.





(** ** The shape of what the loader stores *)

Lemma load_batch_inv (time : time_dir) (comp res : option matrix)
  (f : list string) :
  load_batch time comp f = Ok res ->
  exists flat r,
    fromfile time (batch_file f) = Ok flat
    /\ List.length flat = r * (_num_fields f false + 1)
    /\ (forall c, comp = Some c -> nrows c = r).
Proof.
  unfold load_batch.
  destruct (fromfile time (batch_file f)) as [flat |]; cbn [bind];
    [ | discriminate ].
  destruct (reshape flat (_num_fields f false + 1)) as [vals |] eqn:Hv;
    cbn [bind]; [ | discriminate ].
  destruct (@reshape_inv _ _ _ Hv) as [_ [Hl Evals]].
  destruct (mapM (batch_index f) f) as [indicies |]; cbn [bind];
    [ | discriminate ].
  destruct (take_cols vals indicies) as [svals |] eqn:Hs; cbn [bind];
    [ | discriminate ].
  intros H. exists flat, (List.length flat / (_num_fields f false + 1)).
  split; [ reflexivity | split; [ exact Hl | ] ].
  intros c ->.
  destruct (hstack c svals) as [m |] eqn:Hh; cbn [bind] in H;
    [ | discriminate ].
  apply hstack_inv in Hh. rewrite Hh.
  assert (Hr : nrows vals = List.length flat / (_num_fields f false + 1)).
  { rewrite Evals. apply chunk_rows_length. }
  destruct (@take_cols_shape _ _ _ _ Hr Hs) as [Hs1 _]. exact Hs1.
Qed.

Lemma load_batches_slot (time : time_dir) (batches : list (list string)) :
  forall c n res,
    wf_matrix c -> ncols c = n -> 1 <= n ->
    load_batches time (Some c) batches = Ok res ->
    exists m, res = Some m /\ wf_matrix m
              /\ ncols m = n + List.length (List.concat batches).
Proof.
  induction batches as [| f rest IH]; intros c n res Hwf Hn Hn1; simpl.
  - intros H. inversion H. exists c. rewrite Nat.add_0_r. auto.
  - destruct (load_batch time (Some c) f) as [res1 |] eqn:Hb; cbn [bind];
      [ | discriminate ].
    destruct (load_batch_inv _ _ _ _ Hb) as [flat [r [Hfile [Hl Hc]]]].
    assert (Hsh : shaped r n c).
    { split; [ apply Hc; reflexivity | split; assumption ]. }
    destruct (@load_batch_shape _ _ _ _ _ _ Hfile Hl Hb n Hsh)
      as [m1 [-> [[_ [Hm1n Hm1w]] _]]].
    intros H.
    destruct (IH m1 (n + List.length f) res Hm1w Hm1n ltac:(lia) H)
      as [m [-> [Hw Hm]]].
    exists m. split; [ reflexivity | split; [ exact Hw | ] ].
    rewrite Hm, length_app. lia.
Qed.

Lemma assemble_slot_shape (fields : list string) (time : time_dir)
  (slot : option matrix) :
  assemble fields time = Ok slot -> slot_shape fields slot.
Proof.
  unfold assemble.
  pose proof (field_iter_concat fields false) as Hcat.
  destruct (_field_iter fields false) as [| first rest] eqn:Hb; simpl.
  - intros H. inversion H. simpl. symmetry. exact Hcat.
  - destruct (load_batch time None first) as [res1 |] eqn:Hb1; cbn [bind];
      [ | discriminate ].
    destruct (load_batch_inv _ _ _ _ Hb1) as [flat [r [Hfile [Hl _]]]].
    destruct (@load_batch_shape _ _ _ _ _ _ Hfile Hl Hb1)
      as [m1 [-> [[_ [Hm1n Hm1w]] _]]].
    intros H.
    destruct (@load_batches_slot time rest m1 (1 + List.length first) slot
                Hm1w Hm1n ltac:(lia) H) as [m [-> [Hw Hm]]].
    simpl. split; [ | split; [ exact Hw | ] ].
    + intros E. apply (proj2 (field_iter_nil_iff fields false)) in E.
      congruence.
    + rewrite Hm, <- Hcat. simpl List.concat. rewrite length_app. lia.
Qed.

(** Like [load_times_invariant], for what depends on the stored
    matrix being one the batch loop assembled. *)
Lemma load_times_invariant_assembled (I : load_state -> Prop)
  (fields : list string) (timelist : list F64.t) (nicecase : string) :
  (forall (st : load_state) time nice_t c results,
      I st -> In nice_t timelist ->
      assemble fields time = Ok c ->
      store nicecase nice_t c (snd st) = Ok results ->
      I (set_add nice_t (fst st), results)) ->
  forall (tds : list time_dir) (st st' : load_state) e,
    I st ->
    load_times fields timelist nicecase tds st = (st', e) ->
    I st'.
Proof.
  intros Hstore.
  induction tds as [| time rest IH]; intros st st' e Hst H; simpl in H.
  - inversion H; subst. exact Hst.
  - destruct (td_time time) as [t |]; [ | inversion H; subst; exact Hst ].
    destruct (negb (Nat.eqb (List.length timelist) 0)
              && negb (existsb (fun x => _timecheck x t) timelist)).
    + exact (IH _ _ _ Hst H).
    + destruct (assemble fields time) as [c | e'] eqn:Ha;
        [ | inversion H; subst; exact Hst ].
      destruct (find (fun x => _timecheck x t) timelist) as [nice_t |] eqn:Hf;
        [ | inversion H; subst; exact Hst ].
      destruct (store nicecase nice_t c (snd st)) as [results | e'] eqn:Hs;
        [ | inversion H; subst; exact Hst ].
      apply (IH _ _ _) in H; [ exact H | ].
      apply (Hstore st time nice_t c results Hst); [ | exact Ha | exact Hs ].
      apply find_some in Hf. apply Hf.
Qed.

Lemma dict_set_Forall_snd {K V : Type} (eqb : K -> K -> bool)
  (Q : V -> Prop) (k : K) (v : V) (d : dict K V) :
  Forall (fun kv => Q (snd kv)) d -> Q v ->
  Forall (fun kv => Q (snd kv)) (dict_set eqb k v d).
Proof.
  intros Hd Hv. induction Hd as [| [k' v'] d Hh Ht IH]; simpl.
  - constructor; [ exact Hv | constructor ].
  - destruct (eqb k' k); constructor; assumption.
Qed.

Lemma load_times_slots (fields : list string) (timelist : list F64.t)
  (nicecase : string) (tds : list time_dir) (st st' : load_state) e :
  slots_shaped fields (snd st) ->
  load_times fields timelist nicecase tds st = (st', e) ->
  slots_shaped fields (snd st').
Proof.
  apply (@load_times_invariant_assembled
           (fun s => slots_shaped fields (snd s)) fields timelist nicecase).
  intros s time nice_t c results Hs _ Ha. unfold store.
  destruct (dict_get String.eqb nicecase (snd s)) as [snaps |] eqn:Hg;
    [ | discriminate ].
  intros H. inversion H. cbn [snd].
  apply (@dict_set_values snapshots
           (fun sn => Forall (fun kv => slot_shape fields (snd kv)) sn));
    [ exact Hs | ].
  apply dict_set_Forall_snd.
  - exact (@dict_get_values snapshots
             (fun sn => Forall (fun kv => slot_shape fields (snd kv)) sn)
             _ _ _ Hs Hg).
  - exact (assemble_slot_shape _ _ _ Ha).
Qed.

Lemma load_case_slots (fields : list string) (timelist : list F64.t)
  (st st' : load_state) (case : case_dir) e :
  slots_shaped fields (snd st) ->
  load_case fields timelist st case = (st', e) ->
  slots_shaped fields (snd st').
Proof.
  intros Hs. unfold load_case.
  set (st0 := (fst st, dict_set String.eqb (cd_name case) [] (snd st))).
  assert (H0 : slots_shaped fields (snd st0)).
  { apply (@dict_set_values snapshots
             (fun sn => Forall (fun kv => slot_shape fields (snd kv)) sn));
      [ exact Hs | constructor ]. }
  assert (Hdrop : forall r, slots_shaped fields r ->
                    slots_shaped fields (drop_if_empty (cd_name case) r)).
  { intros r Hr. unfold drop_if_empty.
    destruct (dict_get String.eqb (cd_name case) r) as [[| kv sn] |];
      try exact Hr.
    apply dict_del_Forall. exact Hr. }
  destruct (times case) as [tds | e0].
  - destruct (load_times fields timelist (cd_name case) tds st0)
      as [st1 e1] eqn:Hl.
    pose proof (@load_times_slots _ _ _ _ _ _ _ H0 Hl) as H1.
    destruct e1 as [[] |]; intros H; inversion H; subst; cbn [snd];
      try exact H1; apply Hdrop; exact H1.
  - destruct e0; intros H; inversion H; subst; cbn [snd];
      try exact H0; apply Hdrop; exact H0.
Qed.

(** X3. Every snapshot the load returns has the shape the requested
    fields call for, whatever the files hold: a well-formed array of
    [1 + len(fields)] columns (or [None] when no field is requested).
    So the column [1 + i] that the plotter and the validator read
    exists for every requested field. *)
Theorem load_snapshot_shapes :
  forall home fields timelist timev results case snaps t slot,
    load home fields timelist = Ok (timev, results) ->
    In (case, snaps) results ->
    In (t, slot) snaps ->
    slot_shape fields slot.
Proof.
  intros home fields timelist timev results case snaps t slot. unfold load.
  assert (Hgen : forall cases st st' e,
             slots_shaped fields (snd st) ->
             load_cases fields timelist cases st = (st', e) ->
             slots_shaped fields (snd st')).
  { induction cases as [| c rest IH]; intros st st' e Hs H; simpl in H.
    - inversion H; subst. exact Hs.
    - destruct (load_case fields timelist st c) as [st1 [e1 |]] eqn:Hc.
      + inversion H; subst. exact (@load_case_slots _ _ _ _ _ _ Hs Hc).
      + exact (IH _ _ _ (@load_case_slots _ _ _ _ _ _ Hs Hc) H). }
  destruct (load_cases fields timelist (valid home)
              (set_of_list timelist, [])) as [st [e |]] eqn:E;
    [ discriminate | ].
  intros H Hcase Hslot. inversion H; subst.
  assert (Hs0 : slots_shaped fields
                  (snd (set_of_list timelist, @nil (string * snapshots))))
    by constructor.
  pose proof (Hgen _ _ _ _ Hs0 E) as Hs.
  unfold slots_shaped in Hs. cbn [snd] in Hs.
  rewrite Forall_forall in Hs. specialize (Hs _ Hcase). cbn [snd] in Hs.
  rewrite Forall_forall in Hs. exact (Hs _ Hslot).
Qed.

Lemma load_snapshot_shapes_witness :
  slot_shape ["T"; "p"] (Some matrix_T_p).
Proof.
  apply (@load_snapshot_shapes home_sampled ["T"; "p"] [t5000] [t5000]
           [("SandiaD_LTS", [(t5000, Some matrix_T_p)])]
           "SandiaD_LTS" [(t5000, Some matrix_T_p)] t5000 (Some matrix_T_p)).
  - vm_compute. reflexivity.
  - left. reflexivity.
  - left. reflexivity.
Defined.

(** ** Inputs the batch loop refuses *)

Lemma index_of_absent (x : string) (l : list string) :
  ~ In x l -> index_of x l = None.
Proof.
  induction l as [| y l IH]; simpl; intros H.
  - reflexivity.
  - destruct (String.eqb x y) eqn:E.
    + apply String.eqb_eq in E. subst. exfalso. apply H. left. reflexivity.
    + rewrite IH; [ reflexivity | ]. intros Hin. apply H. right. exact Hin.
Qed.

Lemma batch_index_velocity (f : list string) :
  batch_index f "U" = Raise ValueError.
Proof.
  unfold batch_index, _field_index.
  rewrite index_of_absent; [ reflexivity | ].
  intros H. apply make_full_fields_In in H. destruct H as [_ H].
  exact (H eq_refl eq_refl).
Qed.

Lemma mapM_raise_uniform {A B : Type} (f : A -> outcome B) (l : list A)
  (x : A) (e : exn) :
  In x l -> f x = Raise e ->
  (forall y e', f y = Raise e' -> e' = e) ->
  mapM f l = Raise e.
Proof.
  intros Hin Hx Hall. induction l as [| y l IH]; simpl.
  - destruct Hin.
  - destruct (f y) as [b | e'] eqn:E; simpl.
    + destruct Hin as [-> | Hin]; [ congruence | ].
      rewrite (IH Hin). reflexivity.
    + rewrite (Hall y e' E). reflexivity.
Qed.

Lemma load_batch_velocity (time : time_dir) (comp : option matrix)
  (f : list string) (flat : list F64.t) (r : nat) :
  In "U" f ->
  fromfile time (batch_file f) = Ok flat ->
  List.length flat = r * (_num_fields f false + 1) ->
  load_batch time comp f = Raise ValueError.
Proof.
  intros HU Hfile Hl. unfold load_batch. rewrite Hfile. cbn [bind].
  rewrite (@reshape_ok flat r (_num_fields f false + 1) Hl) by lia.
  cbn [bind].
  rewrite (@mapM_raise_uniform _ _ (batch_index f) f "U" ValueError HU
             (batch_index_velocity f)).
  - reflexivity.
  - intros y e'. apply batch_index_raises.
Qed.

Lemma load_batches_velocity (time : time_dir) (r : nat)
  (batches : list (list string)) :
  (forall f, In f batches ->
     f <> []
     /\ exists flat, fromfile time (batch_file f) = Ok flat
                     /\ List.length flat = r * (_num_fields f false + 1)) ->
  In "U" (List.concat batches) ->
  forall comp,
    (forall c, comp = Some c -> exists n, shaped r n c) ->
    load_batches time comp batches = Raise ValueError.
Proof.
  induction batches as [| f rest IH]; intros Hfiles HU comp Hcomp.
  - destruct HU.
  - simpl. destruct (Hfiles f (or_introl eq_refl)) as [Hne [flat [Hfile Hl]]].
    destruct (in_dec string_dec "U" f) as [Hin | Hnot].
    + rewrite (load_batch_velocity time comp f flat r Hin Hfile Hl).
      reflexivity.
    + destruct (@load_batch_ok time comp f flat r Hne Hnot Hfile Hl)
        as [res1 Hb].
      { intros c Ec. destruct (Hcomp c Ec) as [n [Hn _]]. exact Hn. }
      rewrite Hb. cbn [bind]. apply IH.
      * intros g Hg. apply Hfiles. right. exact Hg.
      * simpl in HU. apply in_app_or in HU. destruct HU; [ contradiction | ].
        assumption.
      * intros c1 Ec1. subst res1.
        pose proof (@load_batch_shape _ _ _ _ _ _ Hfile Hl Hb) as Hs.
        destruct comp as [c |].
        -- destruct (Hcomp c eq_refl) as [n Hc].
           destruct (Hs n Hc) as [m [Em [Hm _]]]. inversion Em; subst.
           eexists. exact Hm.
        -- destruct Hs as [m [Em [Hm _]]]. inversion Em; subst.
           eexists. exact Hm.
Qed.

(** X4. The velocity cannot be loaded: when [U] is among the
    requested fields, a time directory whose files are all in place
    makes the batch loop raise [ValueError], since the canonical list
    of the loading context leaves [U] out and [list.index] does not
    find it. *)
Theorem assemble_velocity_raises :
  forall (fields : list string) (time : time_dir) (r : nat),
    sampled fields time r ->
    In "U" fields ->
    assemble fields time = Raise ValueError.
Proof.
  intros fields time r Hs HU. unfold assemble.
  apply (@load_batches_velocity time r).
  - intros f Hf. split; [ | apply Hs; exact Hf ].
    pose proof (field_iter_nonempty_batches fields false) as Hne.
    rewrite Forall_forall in Hne. exact (Hne f Hf).
  - rewrite field_iter_concat. exact HU.
  - discriminate.
Qed.

Lemma assemble_velocity_raises_witness :
  assemble ["U"] dir_velocity = Raise ValueError.
Proof.
  apply (assemble_velocity_raises ["U"] dir_velocity 1).
  - intros f [<- | []]. eexists. split; vm_compute; reflexivity.
  - left. reflexivity.
Defined.

Lemma load_batches_app (time : time_dir) (pre post : list (list string)) :
  forall comp,
    load_batches time comp (pre ++ post)
    = bind (load_batches time comp pre)
        (fun c => load_batches time c post).
Proof.
  induction pre as [| f pre IH]; intros comp; simpl.
  - reflexivity.
  - destruct (load_batch time comp f) as [c | e]; cbn [bind].
    + apply IH.
    + reflexivity.
Qed.

Lemma load_batches_sampled (time : time_dir) (r : nat)
  (batches : list (list string)) :
  (forall f, In f batches ->
     f <> [] /\ ~ In "U" f
     /\ exists flat, fromfile time (batch_file f) = Ok flat
                     /\ List.length flat = r * (_num_fields f false + 1)) ->
  exists comp,
    load_batches time None batches = Ok comp
    /\ (forall c, comp = Some c -> nrows c = r)
    /\ (batches <> [] -> exists c, comp = Some c).
Proof.
  intros Hfiles.
  destruct (@load_batches_ok time r batches Hfiles None) as [res Hres];
    [ discriminate | ].
  exists res. split; [ exact Hres | ].
  destruct batches as [| first rest].
  - simpl in Hres. inversion Hres. split; [ discriminate | congruence ].
  - simpl in Hres.
    destruct (Hfiles first (or_introl eq_refl)) as [_ [_ [flat [Hfile Hl]]]].
    destruct (load_batch time None first) as [res1 |] eqn:Hb1;
      cbn [bind] in Hres; [ | discriminate ].
    destruct (@load_batch_shape _ _ _ _ _ _ Hfile Hl Hb1)
      as [m1 [-> [Hm1 _]]].
    destruct (@load_batches_shape time r rest
                (fun g Hg => proj2 (proj2 (Hfiles g (or_intror Hg))))
                m1 (1 + List.length first) res Hm1 ltac:(lia) Hres)
      as [m [-> [[Hm _] _]]].
    split.
    + intros c Ec. injection Ec as <-. exact Hm.
    + intros _. exists m. reflexivity.
Qed.

(** X5. The batch loop refuses files that do not fit together: after
    batches of [r] rows each, a batch whose file is not a whole number
    of rows, or holds another number of rows than [r], ends the
    assembly with [ValueError]. *)
Theorem assemble_unequal_rows_raises :
  forall (fields : list string) (time : time_dir) (r : nat)
         (pre : list (list string)) (f : list string)
         (post : list (list string)) (flat : list F64.t),
    _field_iter fields false = pre ++ f :: post ->
    ~ In "U" fields ->
    (forall g, In g pre ->
       exists flat', fromfile time (batch_file g) = Ok flat'
                     /\ List.length flat' = r * (_num_fields g false + 1)) ->
    fromfile time (batch_file f) = Ok flat ->
    List.length flat mod (_num_fields f false + 1) <> 0
    \/ (pre <> [] /\ List.length flat <> r * (_num_fields f false + 1)) ->
    assemble fields time = Raise ValueError.
Proof.
  intros fields time r pre f post flat Hb HU Hpre Hfile Hbad.
  assert (Hin : forall g, In g (pre ++ f :: post) ->
                  g <> [] /\ ~ In "U" g).
  { intros g Hg. rewrite <- Hb in Hg. split.
    - pose proof (field_iter_nonempty_batches fields false) as Hne.
      rewrite Forall_forall in Hne. exact (Hne g Hg).
    - intros Hx. apply HU.
      exact (field_iter_batch_fields fields g "U" Hg Hx). }
  assert (Hf : f <> [] /\ ~ In "U" f).
  { apply Hin. apply in_or_app. right. left. reflexivity. }
  assert (Hstep : forall comp,
            (forall c, comp = Some c -> nrows c = r) ->
            (pre <> [] -> exists c, comp = Some c) ->
            load_batch time comp f = Raise ValueError).
  { intros comp Hrows Hsome. unfold load_batch. rewrite Hfile. cbn [bind].
    destruct (reshape flat (_num_fields f false + 1)) as [vals | e] eqn:Hv;
      cbn [bind].
    2:{ rewrite (reshape_raises _ _ _ Hv). reflexivity. }
    destruct (reshape_inv _ _ _ Hv) as [_ [Hl Evals]].
    destruct Hbad as [Hmod | [Hp Hlen]].
    { exfalso. apply Hmod. rewrite Hl. apply Nat.Div0.mod_mul. }
    destruct (@mapM_ok _ _ (batch_index f) f) as [indicies Hi].
    { intros x Hx. apply batch_index_ok; [ exact Hx | ].
      intros ->. exact (proj2 Hf Hx). }
    rewrite Hi. cbn [bind].
    destruct (take_cols_batch f vals indicies (proj1 Hf)) as [svals Hs];
      [ rewrite Evals; reflexivity | exact Hi | ].
    rewrite Hs. cbn [bind].
    assert (Hr : nrows vals
                 = List.length flat / (_num_fields f false + 1)).
    { rewrite Evals. apply chunk_rows_length. }
    destruct (@take_cols_shape _ _ _ _ Hr Hs) as [Hs1 _].
    destruct (Hsome Hp) as [c ->].
    unfold hstack. rewrite (Hrows c eq_refl), Hs1.
    destruct (Nat.eqb r (List.length flat / (_num_fields f false + 1)))
      eqn:E; [ | reflexivity ].
    apply Nat.eqb_eq in E. rewrite <- E in Hl. contradiction. }
  destruct (load_batches_sampled time r pre) as [comp [Hres [Hrows Hsome]]].
  { intros g Hg.
    destruct (Hin g (in_or_app _ _ _ (or_introl Hg))) as [H1 H2].
    split; [ exact H1 | split; [ exact H2 | exact (Hpre g Hg) ] ]. }
  unfold assemble. rewrite Hb, load_batches_app, Hres. cbn [bind].
  simpl. rewrite (Hstep comp Hrows Hsome). reflexivity.
Qed.

Lemma assemble_unequal_rows_raises_witness :
  assemble fields_11 dir_unequal = Raise ValueError.
Proof.
  apply (assemble_unequal_rows_raises fields_11 dir_unequal 2
           [firstn 10 fields_11] ["T"] []
           (map F64.of_Z [0; 1; 300; 2; 3; 4; 5]%Z)).
  - reflexivity.
  - intros H. repeat (destruct H as [H | H]; [ discriminate H | ]).
    exact H.
  - intros g [<- | []]. eexists. split; vm_compute; reflexivity.
  - vm_compute. reflexivity.
  - right. split; [ discriminate | vm_compute; discriminate ].
Defined.

(** ** Storing snapshots *)

Lemma dict_set_set {K V : Type} (eqb : K -> K -> bool) (k : K) (v1 v2 : V)
  (d : dict K V) :
  eqb k k = true ->
  dict_set eqb k v2 (dict_set eqb k v1 d) = dict_set eqb k v2 d.
Proof.
  intros Hk. induction d as [| [k' v'] d IH]; simpl.
  - rewrite Hk. reflexivity.
  - destruct (eqb k' k) eqn:E; simpl; rewrite E; [ reflexivity | ].
    rewrite IH. reflexivity.
Qed.

Lemma set_add_idempotent (x : F64.t) (s : time_set) :
  set_add x (set_add x s) = set_add x s.
Proof.
  unfold set_add at 1. rewrite set_add_has. reflexivity.
Qed.

Lemma find_existsb {A : Type} (p : A -> bool) (l : list A) (x : A) :
  find p l = Some x -> existsb p l = true.
Proof.
  intros H. apply find_some in H. apply existsb_exists.
  exists x. exact H.
Qed.

(** One turn of the loop over time directories, for a directory that
    is read to the end. *)
Lemma load_times_stores (fields : list string) (timelist : list F64.t)
  (nicecase : string) (time : time_dir) (rest : list time_dir)
  (st : load_state) (t x : F64.t) (c : option matrix) (snaps : snapshots) :
  td_time time = Some t ->
  find (fun y => _timecheck y t) timelist = Some x ->
  assemble fields time = Ok c ->
  dict_get String.eqb nicecase (snd st) = Some snaps ->
  load_times fields timelist nicecase (time :: rest) st
  = load_times fields timelist nicecase rest
      (set_add x (fst st),
       dict_set String.eqb nicecase (dict_set key_eq x c snaps) (snd st)).
Proof.
  intros Ht Hf Hc Hg. cbn [load_times].
  rewrite Ht, (find_existsb _ _ _ Hf), andb_false_r, Hc, Hf.
  unfold store.
  destruct (dict_get String.eqb nicecase (snd st)) as [snaps' |] eqn:E;
    [ | discriminate ].
  inversion Hg; subst. reflexivity.
Qed.

(** X6. The last directory read wins: when two time directories match
    the same requested time, the matrix of the one listed later
    replaces the other, and the loader goes on as if the earlier one
    had never been read. *)
Theorem load_later_directory_replaces :
  forall fields timelist nicecase time1 time2 rest (st : load_state)
         t1 t2 x c1 c2 snaps,
    td_time time1 = Some t1 ->
    td_time time2 = Some t2 ->
    find (fun y => _timecheck y t1) timelist = Some x ->
    find (fun y => _timecheck y t2) timelist = Some x ->
    assemble fields time1 = Ok c1 ->
    assemble fields time2 = Ok c2 ->
    dict_get String.eqb nicecase (snd st) = Some snaps ->
    load_times fields timelist nicecase (time1 :: time2 :: rest) st
    = load_times fields timelist nicecase (time2 :: rest) st.
Proof.
  intros fields timelist nicecase time1 time2 rest st t1 t2 x c1 c2 snaps
    Ht1 Ht2 Hf1 Hf2 Hc1 Hc2 Hg.
  rewrite (load_times_stores fields timelist nicecase time1 (time2 :: rest)
             st t1 x c1 snaps Ht1 Hf1 Hc1 Hg).
  rewrite (load_times_stores fields timelist nicecase time2 rest
             _ t2 x c2 (dict_set key_eq x c1 snaps) Ht2 Hf2 Hc2).
  2:{ cbn [snd]. apply dict_get_set_present. }
  rewrite (load_times_stores fields timelist nicecase time2 rest
             st t2 x c2 snaps Ht2 Hf2 Hc2 Hg).
  cbn [fst snd].
  rewrite set_add_idempotent.
  rewrite (dict_set_set String.eqb) by apply String.eqb_refl.
  rewrite (dict_set_set key_eq) by apply key_eq_refl.
  reflexivity.
Qed.

Lemma load_later_directory_replaces_witness :
  load_times ["T"; "p"] [t5000] "SandiaD_LTS" [dir_5000; dir_5000_again]
    ([t5000], [("SandiaD_LTS", [])])
  = ([t5000],
     [("SandiaD_LTS", [(t5000, Some matrix_T_p_candidate)])], None).
Proof.
  etransitivity.
  - apply (load_later_directory_replaces ["T"; "p"] [t5000] "SandiaD_LTS"
             dir_5000 dir_5000_again [] ([t5000], [("SandiaD_LTS", [])])
             t5000 t5000_0000001 t5000
             (Some matrix_T_p) (Some matrix_T_p_candidate) []);
      vm_compute; reflexivity.
  - vm_compute. reflexivity.
Defined.

(** X7. A missing file costs a case its remaining directories only:
    when the first time directory is stored and the second lacks a
    sampled file, the case stays in the results with the first
    snapshot, no exception leaves the loop, and the directories after
    the second are not read. *)
Theorem load_case_keeps_snapshots_before_missing_file :
  forall fields timelist (st : load_state) case time1 time2 rest
         t1 t2 x c1,
    times case = Ok (time1 :: time2 :: rest) ->
    td_time time1 = Some t1 ->
    td_time time2 = Some t2 ->
    find (fun y => _timecheck y t1) timelist = Some x ->
    existsb (fun y => _timecheck y t2) timelist = true ->
    assemble fields time1 = Ok c1 ->
    assemble fields time2 = Raise FileNotFoundError ->
    load_case fields timelist st case
    = ((set_add x (fst st),
        dict_set String.eqb (cd_name case) [(x, c1)] (snd st)), None).
Proof.
  intros fields timelist st case time1 time2 rest t1 t2 x c1
    Htimes Ht1 Ht2 Hf1 Hm2 Hc1 Hc2.
  unfold load_case. rewrite Htimes.
  rewrite (load_times_stores fields timelist (cd_name case) time1
             (time2 :: rest) _ t1 x c1 [] Ht1 Hf1 Hc1).
  2:{ cbn [snd]. apply dict_get_set_present. }
  cbn [load_times fst snd]. rewrite Ht2, Hm2, andb_false_r, Hc2.
  rewrite (dict_set_set String.eqb) by apply String.eqb_refl.
  cbn [fst snd dict_set].
  unfold drop_if_empty. rewrite dict_get_set_present. reflexivity.
Qed.

Lemma load_case_keeps_snapshots_before_missing_file_witness :
  load_case ["T"; "p"] [t5000] ([t5000], [])
    (CaseDir "SandiaD_LTS" true (Some [dir_5000; dir_unsampled; dir_latest]))
  = (([t5000], [("SandiaD_LTS", [(t5000, Some matrix_T_p)])]), None).
Proof.
  etransitivity.
  - apply (load_case_keeps_snapshots_before_missing_file ["T"; "p"] [t5000]
             ([t5000], [])
             (CaseDir "SandiaD_LTS" true
                (Some [dir_5000; dir_unsampled; dir_latest]))
             dir_5000 dir_unsampled [dir_latest] t5000 t5000 t5000
             (Some matrix_T_p));
      vm_compute; reflexivity.
  - vm_compute. reflexivity.
Defined.

(** ** A directory that is not a time *)

Lemma load_times_skips (fields : list string) (timelist : list F64.t)
  (nicecase : string) (pre tds : list time_dir) (st : load_state) :
  timelist <> [] ->
  Forall (fun x => exists t, td_time x = Some t
                    /\ existsb (fun y => _timecheck y t) timelist = false)
    pre ->
  load_times fields timelist nicecase (pre ++ tds) st
  = load_times fields timelist nicecase tds st.
Proof.
  intros Hne Hpre. induction Hpre as [| x pre [t [Ht Hno]] _ IH]; simpl.
  - reflexivity.
  - rewrite Ht, Hno. destruct timelist; [ congruence | ]. simpl. exact IH.
Qed.

(** X21. A directory whose name is not a number ends the whole load:
    when the cases before it load, and the directories listed before
    it in its case match no requested time, [load] raises
    [ValueError], whether or not the name would have matched, and
    returns none of the cases already loaded. *)
Theorem load_unparsable_directory_raises :
  forall (home : list case_dir) (fields : list string)
         (timelist : list F64.t) (earlier later : list case_dir)
         (case : case_dir) (pre rest : list time_dir) (d : time_dir)
         (st : load_state),
    valid home = earlier ++ case :: later ->
    load_cases fields timelist earlier (set_of_list timelist, []) = (st, None) ->
    times case = Ok (pre ++ d :: rest) ->
    timelist <> [] ->
    Forall (fun x => exists t, td_time x = Some t
                      /\ existsb (fun y => _timecheck y t) timelist = false)
      pre ->
    td_time d = None ->
    load home fields timelist = Raise ValueError.
Proof.
  intros home fields timelist earlier later case pre rest d st
    Hv He Ht Hne Hpre Hd.
  unfold load. rewrite Hv.
  rewrite (@load_cases_app fields timelist earlier (case :: later) _ st He).
  simpl. unfold load_case. rewrite Ht.
  rewrite (load_times_skips fields timelist (cd_name case) pre (d :: rest)
             _ Hne Hpre).
  simpl. rewrite Hd. reflexivity.
Qed.

Lemma load_unparsable_directory_raises_witness :
  load home_stray ["T"; "p"] [t5000] = Raise ValueError.
Proof.
  apply (load_unparsable_directory_raises home_stray ["T"; "p"] [t5000]
           [] [] (CaseDir "SandiaD_LTS" true (Some [dir_6000; dir_latest]))
           [dir_6000] [] dir_latest ([t5000], [])).
  - reflexivity.
  - reflexivity.
  - reflexivity.
  - discriminate.
  - constructor; [ | constructor ].
    exists t6000. split; [ reflexivity | vm_compute; reflexivity ].
  - reflexivity.
Defined.

(** ** The results the loader returns *)

(** Two keys are one key when they are the same number, the two zeros
    being one number. *)
Lemma key_eq_spec (a b : F64.t) :
  key_eq a b = true <->
  a = b \/ (exists s s', a = S754_zero s /\ b = S754_zero s').
Proof.
  unfold key_eq. split.
  - intros H.
    assert (Hfin : forall (s : bool) (m m' : positive) (e e' : Z),
               F64.same (S754_finite s m e) (S754_finite s m' e')
               || F64.eqb (S754_finite s m e) (S754_finite s m' e') = true ->
               m = m' /\ e = e').
    { intros s m m' e e' Hf. apply orb_true_iff in Hf.
      destruct Hf as [Hf | Hf].
      - simpl in Hf. apply andb_true_iff in Hf. destruct Hf as [Hf He].
        apply andb_true_iff in Hf. destruct Hf as [_ Hm].
        apply Pos.eqb_eq in Hm. apply Z.eqb_eq in He. auto.
      - unfold F64.eqb, SFeqb, SFcompare in Hf.
        destruct s;
          destruct (Z.compare e e') eqn:Ee; try discriminate Hf;
          apply Z.compare_eq in Ee;
          destruct (Pos.compare_cont Eq m m') eqn:Em; try discriminate Hf;
          apply Pos.compare_eq in Em; auto. }
    destruct a as [s | s | | s m e]; destruct b as [s' | s' | | s' m' e'];
      try (right; do 2 eexists; split; reflexivity);
      try (left; reflexivity);
      try (simpl in H; discriminate H);
      try (destruct s; simpl in H; discriminate H);
      try (destruct s'; simpl in H; discriminate H);
      try (destruct s; destruct s'; simpl in H; try discriminate H;
           left; reflexivity).
    destruct s; destruct s'; try (simpl in H; discriminate H);
      destruct (Hfin _ _ _ _ _ H) as [-> ->]; left; reflexivity.
  - intros [-> | [s [s' [-> ->]]]].
    + apply key_eq_refl.
    + simpl. apply orb_true_r.
Qed.

Lemma key_eq_euclid (k x y : F64.t) :
  key_eq k y = true -> key_eq k x = true -> key_eq y x = true.
Proof.
  rewrite !key_eq_spec. intros H1 H2.
  destruct H1 as [H1 | [s [s' [H1 H1']]]];
    destruct H2 as [H2 | [t [t' [H2 H2']]]]; subst;
    try (left; reflexivity);
    right; do 2 eexists; split; reflexivity.
Qed.

Lemma snaps_get_set_same (x : F64.t) (v : option matrix) (d : snapshots) :
  dict_get key_eq x (dict_set key_eq x v d) = Some v.
Proof.
  induction d as [| [k' v'] d IH]; simpl.
  - rewrite key_eq_refl. reflexivity.
  - destruct (key_eq k' x) eqn:E; simpl; rewrite E; [ reflexivity | exact IH ].
Qed.

Lemma snaps_get_set_other (x y : F64.t) (v : option matrix) (d : snapshots) :
  key_eq y x = false ->
  dict_get key_eq x (dict_set key_eq y v d) = dict_get key_eq x d.
Proof.
  intros Hyx. induction d as [| [k' v'] d IH]; simpl.
  - rewrite Hyx. reflexivity.
  - destruct (key_eq k' y) eqn:Ey; simpl.
    + destruct (key_eq k' x) eqn:Ex; [ | reflexivity ].
      rewrite (key_eq_euclid k' x y Ey Ex) in Hyx. discriminate.
    + destruct (key_eq k' x); [ reflexivity | exact IH ].
Qed.

Lemma snaps_set_In (x t : F64.t) (v m : option matrix) (d : snapshots) :
  In (t, m) (dict_set key_eq x v d) ->
  In (t, m) d \/ (m = v /\ key_eq t x = true).
Proof.
  induction d as [| [k' v'] d IH]; simpl.
  - intros [H | []]. inversion H; subst. right.
    split; [ reflexivity | apply key_eq_refl ].
  - destruct (key_eq k' x) eqn:E; simpl.
    + intros [H | H]; [ | left; right; exact H ].
      inversion H; subst. right. split; [ reflexivity | exact E ].
    + intros [H | H]; [ left; left; exact H | ].
      destruct (IH H) as [H' | H']; [ left; right; exact H' | right; exact H' ].
Qed.

(** *** Slots of other cases *)

Lemma results_get_set_other (n k : string) (v : snapshots) (d : results_t) :
  k <> n ->
  dict_get String.eqb n (dict_set String.eqb k v d)
  = dict_get String.eqb n d.
Proof.
  intros Hkn. induction d as [| [k' v'] d IH]; simpl.
  - destruct (String.eqb k n) eqn:E; [ | reflexivity ].
    apply String.eqb_eq in E. contradiction.
  - destruct (String.eqb k' k) eqn:Ek; simpl.
    + apply String.eqb_eq in Ek. subst k'.
      destruct (String.eqb k n) eqn:E; [ | reflexivity ].
      apply String.eqb_eq in E. contradiction.
    + destruct (String.eqb k' n); [ reflexivity | exact IH ].
Qed.

Lemma results_get_del_other (n k : string) (d : results_t) :
  k <> n ->
  dict_get String.eqb n (dict_del String.eqb k d) = dict_get String.eqb n d.
Proof.
  intros Hkn. induction d as [| [k' v'] d IH]; simpl.
  - reflexivity.
  - destruct (String.eqb k' k) eqn:Ek; simpl.
    + apply String.eqb_eq in Ek. subst k'.
      destruct (String.eqb k n) eqn:E; [ | reflexivity ].
      apply String.eqb_eq in E. contradiction.
    + destruct (String.eqb k' n); [ reflexivity | exact IH ].
Qed.

Lemma drop_if_empty_other (n k : string) (d : results_t) :
  k <> n ->
  dict_get String.eqb n (drop_if_empty k d) = dict_get String.eqb n d.
Proof.
  intros Hkn. unfold drop_if_empty.
  destruct (dict_get String.eqb k d) as [[| kv s] |]; try reflexivity.
  apply results_get_del_other, Hkn.
Qed.

Lemma drop_if_empty_kept (k : string) (s : snapshots) (d : results_t) :
  dict_get String.eqb k d = Some s -> s <> [] ->
  dict_get String.eqb k (drop_if_empty k d) = Some s.
Proof.
  intros Hg Hs. unfold drop_if_empty. rewrite Hg.
  destruct s; [ congruence | exact Hg ].
Qed.

(** *** The loop over the directories, directory by directory *)

(** Whatever holds of the loader's state and survives the storing of
    the matrix of each directory under the first requested time that
    matches it holds after the loop, however the loop ends. *)
Lemma load_times_invariant_dirs (I : load_state -> Prop)
  (fields : list string) (timelist : list F64.t) (nicecase : string) :
  forall tds : list time_dir,
    (forall (st : load_state) d td nice_t c results,
        I st -> In d tds -> td_time d = Some td ->
        find (fun x => _timecheck x td) timelist = Some nice_t ->
        assemble fields d = Ok c ->
        store nicecase nice_t c (snd st) = Ok results ->
        I (set_add nice_t (fst st), results)) ->
    forall (st st' : load_state) e,
      I st ->
      load_times fields timelist nicecase tds st = (st', e) ->
      I st'.
Proof.
  induction tds as [| time rest IH]; intros Hstore st st' e Hst H;
    simpl in H.
  - inversion H; subst. exact Hst.
  - assert (Hrest : forall (st : load_state) d td nice_t c results,
               I st -> In d rest -> td_time d = Some td ->
               find (fun x => _timecheck x td) timelist = Some nice_t ->
               assemble fields d = Ok c ->
               store nicecase nice_t c (snd st) = Ok results ->
               I (set_add nice_t (fst st), results)).
    { intros s d td nice_t c results Hs Hd. apply Hstore; [ exact Hs | ].
      right. exact Hd. }
    destruct (td_time time) as [t |] eqn:Ht;
      [ | inversion H; subst; exact Hst ].
    destruct (negb (Nat.eqb (List.length timelist) 0)
              && negb (existsb (fun x => _timecheck x t) timelist)).
    + exact (IH Hrest _ _ _ Hst H).
    + destruct (assemble fields time) as [c | e'] eqn:Ha;
        [ | inversion H; subst; exact Hst ].
      destruct (find (fun x => _timecheck x t) timelist) as [nice_t |] eqn:Hf;
        [ | inversion H; subst; exact Hst ].
      destruct (store nicecase nice_t c (snd st)) as [results | e'] eqn:Hs;
        [ | inversion H; subst; exact Hst ].
      apply (IH Hrest _ _ _) in H; [ exact H | ].
      apply (Hstore st time t nice_t c results Hst); auto.
      left. reflexivity.
Qed.

Lemma load_times_other (fields : list string) (timelist : list F64.t)
  (nicecase n : string) (tds : list time_dir) (st st' : load_state) e :
  nicecase <> n ->
  load_times fields timelist nicecase tds st = (st', e) ->
  dict_get String.eqb n (snd st') = dict_get String.eqb n (snd st).
Proof.
  intros Hn.
  apply (load_times_invariant_dirs
           (fun s => dict_get String.eqb n (snd s)
                     = dict_get String.eqb n (snd st))
           fields timelist nicecase tds); [ | reflexivity ].
  intros s d td nice_t c results Hs _ _ _ _. unfold store.
  destruct (dict_get String.eqb nicecase (snd s)) as [snaps |];
    [ | discriminate ].
  intros H. inversion H. cbn [snd].
  rewrite results_get_set_other by exact Hn. exact Hs.
Qed.

Lemma load_case_other (fields : list string) (timelist : list F64.t)
  (st st' : load_state) (case : case_dir) (n : string) e :
  cd_name case <> n ->
  load_case fields timelist st case = (st', e) ->
  dict_get String.eqb n (snd st') = dict_get String.eqb n (snd st).
Proof.
  intros Hn. unfold load_case.
  set (st0 := (fst st, dict_set String.eqb (cd_name case) [] (snd st))).
  assert (H0 : dict_get String.eqb n (snd st0)
               = dict_get String.eqb n (snd st)).
  { apply results_get_set_other, Hn. }
  destruct (times case) as [tds | e0].
  - destruct (load_times fields timelist (cd_name case) tds st0)
      as [st1 e1] eqn:Hl.
    pose proof (load_times_other fields timelist (cd_name case) n tds
                  st0 st1 e1 Hn Hl) as H1.
    destruct e1 as [[] |]; intros H; injection H as E _; rewrite <- E;
      cbn [snd]; rewrite ?drop_if_empty_other by exact Hn;
      rewrite H1; exact H0.
  - destruct e0; intros H; injection H as E _; rewrite <- E;
      cbn [snd]; rewrite ?drop_if_empty_other by exact Hn; exact H0.
Qed.

Lemma load_cases_other (fields : list string) (timelist : list F64.t)
  (n : string) (cases : list case_dir) :
  ~ In n (map cd_name cases) ->
  forall (st st' : load_state) e,
    load_cases fields timelist cases st = (st', e) ->
    dict_get String.eqb n (snd st') = dict_get String.eqb n (snd st).
Proof.
  induction cases as [| c rest IH]; intros Hn st st' e H; simpl in H.
  - inversion H. reflexivity.
  - assert (Hc : cd_name c <> n).
    { intros E. apply Hn. left. exact E. }
    assert (Hrest : ~ In n (map cd_name rest)).
    { intros Hin. apply Hn. right. exact Hin. }
    destruct (load_case fields timelist st c) as [st1 [e1 |]] eqn:Hl.
    + inversion H; subst.
      exact (load_case_other fields timelist st st' c n _ Hc Hl).
    + rewrite (IH Hrest _ _ _ H).
      exact (load_case_other fields timelist st st1 c n _ Hc Hl).
Qed.

Lemma load_cases_split (fields : list string) (timelist : list F64.t)
  (earlier later : list case_dir) :
  forall (st st' : load_state),
    load_cases fields timelist (earlier ++ later) st = (st', None) ->
    exists st1,
      load_cases fields timelist earlier st = (st1, None)
      /\ load_cases fields timelist later st1 = (st', None).
Proof.
  induction earlier as [| c rest IH]; intros st st' H; simpl in *.
  - exists st. split; [ reflexivity | exact H ].
  - destruct (load_case fields timelist st c) as [st1 [e1 |]];
      [ discriminate | ].
    exact (IH _ _ H).
Qed.

(** *** A directory that is read is in the results *)

(** The loop gets past the directories that lack no file, unless an
    exception other than [FileNotFoundError] ends it. *)
Lemma load_times_through (fields : list string) (timelist : list F64.t)
  (nicecase : string) (pre l : list time_dir) :
  forall (st st' : load_state) e,
    dict_get String.eqb nicecase (snd st) <> None ->
    Forall (fun p => assemble fields p <> Raise FileNotFoundError) pre ->
    load_times fields timelist nicecase (pre ++ l) st = (st', e) ->
    e = None \/ e = Some FileNotFoundError ->
    exists st1 : load_state,
      load_times fields timelist nicecase l st1 = (st', e)
      /\ dict_get String.eqb nicecase (snd st1) <> None.
Proof.
  induction pre as [| p pre IH]; intros st st' e Hslot Hpre H He.
  - exists st. split; [ exact H | exact Hslot ].
  - inversion Hpre as [| ? ? Hp Hpre']; subst. simpl in H.
    destruct (td_time p) as [t |];
      [ | inversion H; subst; destruct He; discriminate ].
    destruct (negb (Nat.eqb (List.length timelist) 0)
              && negb (existsb (fun x => _timecheck x t) timelist)).
    + exact (IH _ _ _ Hslot Hpre' H He).
    + destruct (assemble fields p) as [c | e'].
      2:{ inversion H; subst. destruct He as [He | He];
            [ discriminate | inversion He; subst; congruence ]. }
      destruct (find (fun x => _timecheck x t) timelist) as [nice_t |];
        [ | inversion H; subst; destruct He; discriminate ].
      unfold store in H.
      destruct (dict_get String.eqb nicecase (snd st)) as [snaps |];
        [ | congruence ].
      apply (IH _ _ _) in H; auto.
      cbn [snd]. rewrite dict_get_set_present. discriminate.
Qed.

Lemma load_times_keeps (fields : list string) (timelist : list F64.t)
  (nicecase : string) (pre rest : list time_dir) (d : time_dir)
  (td x : F64.t) (m : option matrix) (st st' : load_state) e :
  dict_get String.eqb nicecase (snd st) <> None ->
  Forall (fun p => assemble fields p <> Raise FileNotFoundError) pre ->
  td_time d = Some td ->
  find (fun y => _timecheck y td) timelist = Some x ->
  assemble fields d = Ok m ->
  Forall (stored_elsewhere timelist x) rest ->
  load_times fields timelist nicecase (pre ++ d :: rest) st = (st', e) ->
  e = None \/ e = Some FileNotFoundError ->
  exists snaps,
    dict_get String.eqb nicecase (snd st') = Some snaps
    /\ dict_get key_eq x snaps = Some m.
Proof.
  intros Hslot Hpre Htd Hf Ha Hrest H He.
  destruct (load_times_through fields timelist nicecase pre (d :: rest)
              st st' e Hslot Hpre H He) as [st1 [H1 Hslot1]].
  destruct (dict_get String.eqb nicecase (snd st1)) as [snaps1 |] eqn:Hg;
    [ | congruence ].
  rewrite (load_times_stores fields timelist nicecase d rest st1 td x m
             snaps1 Htd Hf Ha Hg) in H1.
  revert H1.
  apply (load_times_invariant_dirs
           (fun s => exists snaps,
                dict_get String.eqb nicecase (snd s) = Some snaps
                /\ dict_get key_eq x snaps = Some m)
           fields timelist nicecase rest).
  - intros s q tq y c results [snaps [Hs Hx]] Hq Htq Hfq _. unfold store.
    rewrite Hs. intros E. inversion E. cbn [snd].
    exists (dict_set key_eq y c snaps).
    split; [ apply dict_get_set_present | ].
    rewrite Forall_forall in Hrest.
    rewrite (snaps_get_set_other x y c snaps (Hrest q Hq tq y Htq Hfq)).
    exact Hx.
  - cbn [snd]. exists (dict_set key_eq x m snaps1).
    split; [ apply dict_get_set_present | apply snaps_get_set_same ].
Qed.

Lemma load_case_keeps (fields : list string) (timelist : list F64.t)
  (st st' : load_state) (c : case_dir) (pre rest : list time_dir)
  (d : time_dir) (td x : F64.t) (m : option matrix) :
  times c = Ok (pre ++ d :: rest) ->
  Forall (fun p => assemble fields p <> Raise FileNotFoundError) pre ->
  td_time d = Some td ->
  find (fun y => _timecheck y td) timelist = Some x ->
  assemble fields d = Ok m ->
  Forall (stored_elsewhere timelist x) rest ->
  load_case fields timelist st c = (st', None) ->
  exists snaps,
    dict_get String.eqb (cd_name c) (snd st') = Some snaps
    /\ dict_get key_eq x snaps = Some m.
Proof.
  intros Ht Hpre Htd Hf Ha Hrest. unfold load_case. rewrite Ht.
  destruct (load_times fields timelist (cd_name c) (pre ++ d :: rest)
              (fst st, dict_set String.eqb (cd_name c) [] (snd st)))
    as [st1 e] eqn:Hl.
  assert (He : e = None \/ e = Some FileNotFoundError ->
               exists snaps,
                 dict_get String.eqb (cd_name c) (snd st1) = Some snaps
                 /\ dict_get key_eq x snaps = Some m).
  { apply (load_times_keeps fields timelist (cd_name c) pre rest d td x m
             (fst st, dict_set String.eqb (cd_name c) [] (snd st)) st1 e);
      auto.
    cbn [snd]. rewrite dict_get_set_present. discriminate. }
  assert (Hdone : forall snaps,
             dict_get String.eqb (cd_name c) (snd st1) = Some snaps ->
             dict_get key_eq x snaps = Some m ->
             dict_get String.eqb (cd_name c)
               (drop_if_empty (cd_name c) (snd st1)) = Some snaps).
  { intros snaps Hg Hx. apply drop_if_empty_kept; [ exact Hg | ].
    intros ->. discriminate. }
  destruct e as [[] |]; intros H; inversion H; subst; cbn [snd].
  - destruct He as [snaps [Hg Hx]]; [ right; reflexivity | ].
    exists snaps. split; [ exact (Hdone snaps Hg Hx) | exact Hx ].
  - destruct He as [snaps [Hg Hx]]; [ left; reflexivity | ].
    exists snaps. split; [ exact (Hdone snaps Hg Hx) | exact Hx ].
Qed.

(** *** Every snapshot in the results comes from a directory *)

Section Origin.

Variable home : list case_dir.
Variable fields : list string.
Variable timelist : list F64.t.

Lemma origin_del (k : string) (d : results_t) :
  Forall (case_from home fields timelist) d ->
  Forall (case_from home fields timelist) (dict_del String.eqb k d).
Proof.
  induction 1 as [| [k' v'] d Hh Ht IH]; simpl.
  - constructor.
  - destruct (String.eqb k' k); [ exact Ht | constructor; assumption ].
Qed.

Lemma origin_drop (k : string) (d : results_t) :
  Forall (case_from home fields timelist) d ->
  Forall (case_from home fields timelist) (drop_if_empty k d).
Proof.
  intros H. unfold drop_if_empty.
  destruct (dict_get String.eqb k d) as [[| kv s] |]; try exact H.
  apply origin_del, H.
Qed.

Lemma origin_restore (k : string) (s : snapshots) (d : results_t) :
  dict_get String.eqb k d = Some s ->
  case_from home fields timelist (k, s) ->
  Forall (case_from home fields timelist) (dict_del String.eqb k d) ->
  Forall (case_from home fields timelist) d.
Proof.
  induction d as [| [k' v'] d IH]; simpl.
  - discriminate.
  - destruct (String.eqb k' k) eqn:E.
    + intros H Hs Hd. inversion H; subst. apply String.eqb_eq in E. subst k'.
      constructor; [ exact Hs | exact Hd ].
    + intros H Hs Hd. inversion Hd; subst.
      constructor; [ assumption | apply IH; assumption ].
Qed.

(** During the loop over the directories of [c]: the slot of [c]
    holds snapshots of [c], and the other slots are as between two
    cases. *)
Lemma load_times_origin (c : case_dir) (tds : list time_dir)
  (st st' : load_state) e :
  times c = Ok tds ->
  Forall (case_from home fields timelist)
    (dict_del String.eqb (cd_name c) (snd st)) ->
  (forall snaps, dict_get String.eqb (cd_name c) (snd st) = Some snaps ->
                 forall t m, In (t, m) snaps ->
                             stored_from fields timelist c t m) ->
  load_times fields timelist (cd_name c) tds st = (st', e) ->
  Forall (case_from home fields timelist)
    (dict_del String.eqb (cd_name c) (snd st'))
  /\ (forall snaps, dict_get String.eqb (cd_name c) (snd st') = Some snaps ->
                    forall t m, In (t, m) snaps ->
                                stored_from fields timelist c t m).
Proof.
  intros Ht Hothers Hslot.
  apply (load_times_invariant_dirs
           (fun s =>
              Forall (case_from home fields timelist)
                (dict_del String.eqb (cd_name c) (snd s))
              /\ (forall snaps,
                     dict_get String.eqb (cd_name c) (snd s) = Some snaps ->
                     forall t m, In (t, m) snaps ->
                                 stored_from fields timelist c t m))
           fields timelist (cd_name c) tds); [ | split; assumption ].
  intros s d td nice_t v results [Ho Hs] Hd Htd Hf Ha. unfold store.
  destruct (dict_get String.eqb (cd_name c) (snd s)) as [snaps |] eqn:Hg;
    [ | discriminate ].
  intros E. inversion E. cbn [snd]. split.
  - rewrite (@dict_del_set_same _ _ _ _ _ Hg). exact Ho.
  - intros snaps'. rewrite dict_get_set_present. intros E'.
    inversion E'; subst snaps'. intros t m Hin.
    destruct (snaps_set_In _ _ _ _ _ Hin) as [Hold | [-> Hk]].
    + exact (Hs snaps eq_refl t m Hold).
    + exists tds, d, td, nice_t. auto 10.
Qed.

Lemma load_case_origin (c : case_dir) (st st' : load_state) :
  In c (valid home) ->
  Forall (case_from home fields timelist) (snd st) ->
  load_case fields timelist st c = (st', None) ->
  Forall (case_from home fields timelist) (snd st').
Proof.
  intros Hc Hst. unfold load_case.
  set (st0 := (fst st, dict_set String.eqb (cd_name c) [] (snd st))).
  assert (H0 : Forall (case_from home fields timelist)
                 (dict_del String.eqb (cd_name c) (snd st0))).
  { apply dict_del_set_fresh. exact Hst. }
  assert (Hs0 : forall snaps,
             dict_get String.eqb (cd_name c) (snd st0) = Some snaps ->
             forall t m, In (t, m) snaps ->
                         stored_from fields timelist c t m).
  { intros snaps. cbn [snd st0]. rewrite dict_get_set_present.
    intros E. inversion E. intros t m []. }
  assert (Hexit : forall results : results_t,
             Forall (case_from home fields timelist)
               (dict_del String.eqb (cd_name c) results) ->
             (forall snaps,
                 dict_get String.eqb (cd_name c) results = Some snaps ->
                 forall t m, In (t, m) snaps ->
                             stored_from fields timelist c t m) ->
             Forall (case_from home fields timelist)
               (drop_if_empty (cd_name c) results)).
  { intros results Ho Hs. unfold drop_if_empty.
    destruct (dict_get String.eqb (cd_name c) results) as [[| kv s] |] eqn:Hg.
    - exact Ho.
    - apply (origin_restore (cd_name c) (kv :: s)); [ exact Hg | | exact Ho ].
      exists c. split; [ exact Hc | ]. split; [ reflexivity | ].
      exact (Hs _ eq_refl).
    - rewrite (@dict_del_absent _ _ _ Hg) in Ho. exact Ho. }
  destruct (times c) as [tds | e0] eqn:Ht.
  - destruct (load_times fields timelist (cd_name c) tds st0)
      as [st1 e] eqn:Hl.
    destruct (load_times_origin c tds st0 st1 e Ht H0 Hs0 Hl) as [H1 Hs1].
    destruct e as [[] |]; intros H; inversion H; subst; cbn [snd];
      apply Hexit; assumption.
  - destruct e0; intros H; inversion H; subst; cbn [snd];
      apply Hexit; assumption.
Qed.

Lemma load_cases_origin (cases : list case_dir) :
  (forall c, In c cases -> In c (valid home)) ->
  forall st st' : load_state,
    Forall (case_from home fields timelist) (snd st) ->
    load_cases fields timelist cases st = (st', None) ->
    Forall (case_from home fields timelist) (snd st').
Proof.
  induction cases as [| c rest IH]; intros Hsub st st' Hst H; simpl in H.
  - inversion H; subst. exact Hst.
  - destruct (load_case fields timelist st c) as [st1 [e |]] eqn:Hc;
      [ discriminate | ].
    apply (IH (fun c' Hc' => Hsub c' (or_intror Hc')) st1 st');
      [ | exact H ].
    apply (load_case_origin c st st1); auto.
    apply Hsub. left. reflexivity.
Qed.

End Origin.

(** C8, amended.  Requested times are binary64 numbers here: floats,
    or integers that [float] converts without rounding, which are
    equal to their conversion as keys.  When the load returns, the set
    it returns is the set of the requested times, nothing more: a
    discovered time is recorded under the first requested time it
    matches, which the set already holds.  The results are the cases
    with their snapshots, the empty ones removed: every case in them
    has a snapshot; every snapshot is keyed by a requested time and is
    the matrix of a time directory of that case that this time is the
    first to match; and, the entries of the working directory having
    distinct names, a time directory that is read (no directory
    listed before it in its case lacks a file) is in the results of
    its case, under the first requested time that matches it, unless a
    directory listed after it is stored under the same key. *)
Theorem load_returns_requested_times :
  forall (home : list case_dir) (fields : list string)
         (timelist : list F64.t) (timev : time_set) (results : results_t),
    load home fields timelist = Ok (timev, results) ->
    timev = set_of_list timelist
    /\ (forall case snaps, In (case, snaps) results -> snaps <> [])
    /\ (forall case snaps t m,
          In (case, snaps) results -> In (t, m) snaps ->
          In t timelist
          /\ exists c, In c (valid home) /\ cd_name c = case
                       /\ stored_from fields timelist c t m)
    /\ (NoDup (map cd_name (valid home)) ->
        forall c pre d rest td x m,
          In c (valid home) ->
          times c = Ok (pre ++ d :: rest) ->
          Forall (fun p => assemble fields p <> Raise FileNotFoundError) pre ->
          td_time d = Some td ->
          find (fun y => _timecheck y td) timelist = Some x ->
          assemble fields d = Ok m ->
          Forall (stored_elsewhere timelist x) rest ->
          exists snaps,
            dict_get String.eqb (cd_name c) results = Some snaps
            /\ dict_get key_eq x snaps = Some m).
Proof.
  intros home fields timelist timev results Hload.
  destruct (@load_state_on_return home fields timelist timev results Hload)
    as [Htv [Hne Hkeys]].
  unfold load in Hload.
  destruct (load_cases fields timelist (valid home)
              (set_of_list timelist, [])) as [st [e |]] eqn:E;
    [ discriminate | ].
  inversion Hload; subst st. clear Hload.
  split; [ exact Htv | ]. split; [ exact Hne | ]. split.
  - intros case snaps t m Hcase Hin.
    split; [ exact (Hkeys case snaps t m Hcase Hin) | ].
    pose proof (load_cases_origin home fields timelist (valid home)
                  (fun c Hc => Hc) (set_of_list timelist, [])
                  (timev, results) (Forall_nil _) E) as Ho.
    cbn [snd] in Ho. rewrite Forall_forall in Ho.
    destruct (Ho _ Hcase) as [c [Hc [Hn Hall]]].
    exists c. split; [ exact Hc | ]. split; [ exact Hn | ].
    exact (Hall t m Hin).
  - intros Hnd c pre d rest td x m Hc Ht Hpre Htd Hf Ha Hrest.
    destruct (in_split c (valid home) Hc) as [earlier [later Hv]].
    rewrite Hv in E, Hnd.
    destruct (load_cases_split fields timelist earlier (c :: later) _ _ E)
      as [st1 [_ E2]].
    simpl in E2.
    destruct (load_case fields timelist st1 c) as [st2 [e2 |]] eqn:Hl;
      [ discriminate | ].
    destruct (load_case_keeps fields timelist st1 st2 c pre rest d td x m
                Ht Hpre Htd Hf Ha Hrest Hl) as [snaps [Hg Hx]].
    exists snaps. split; [ | exact Hx ].
    rewrite <- Hg.
    apply (load_cases_other fields timelist (cd_name c) later) in E2;
      [ exact E2 | ].
    rewrite map_app in Hnd. apply NoDup_remove_2 in Hnd.
    intros Hin. apply Hnd. apply in_or_app. right. exact Hin.
Qed.

Lemma load_returns_requested_times_witness :
  [t5000] = set_of_list [t5000]
  /\ (forall case snaps,
        In (case, snaps) [("SandiaD_LTS", [(t5000, Some matrix_T_p)])] ->
        snaps <> [])
  /\ (forall case snaps t m,
        In (case, snaps) [("SandiaD_LTS", [(t5000, Some matrix_T_p)])] ->
        In (t, m) snaps ->
        In t [t5000]
        /\ exists c, In c (valid home_discovered) /\ cd_name c = case
                     /\ stored_from ["T"; "p"] [t5000] c t m)
  /\ (NoDup (map cd_name (valid home_discovered)) ->
      forall c pre d rest td x m,
        In c (valid home_discovered) ->
        times c = Ok (pre ++ d :: rest) ->
        Forall (fun p => assemble ["T"; "p"] p <> Raise FileNotFoundError)
          pre ->
        td_time d = Some td ->
        find (fun y => _timecheck y td) [t5000] = Some x ->
        assemble ["T"; "p"] d = Ok m ->
        Forall (stored_elsewhere [t5000] x) rest ->
        exists snaps,
          dict_get String.eqb (cd_name c)
            [("SandiaD_LTS", [(t5000, Some matrix_T_p)])] = Some snaps
          /\ dict_get key_eq x snaps = Some m).
Proof.
  apply (load_returns_requested_times home_discovered ["T"; "p"] [t5000]).
  vm_compute. reflexivity.
Defined.

(** ** The canonical field list *)

Lemma str_le_cases (a b : string) :
  str_le a b <-> String_as_OT.lt a b \/ a = b.
Proof.
  unfold str_le, String.leb.
  rewrite <- String_as_OT.cmp_lt, <- String_as_OT.cmp_eq.
  unfold String_as_OT.cmp.
  destruct (String.compare a b); split; intros H; auto;
    try discriminate; destruct H; discriminate.
Qed.

Lemma str_le_trans (a b c : string) : str_le a b -> str_le b c -> str_le a c.
Proof.
  rewrite !str_le_cases. intros [H1 | ->] [H2 | ->]; auto.
  left. exact (String_as_OT.lt_trans _ _ _ H1 H2).
Qed.

Lemma str_le_antisym (a b : string) : str_le a b -> str_le b a -> a = b.
Proof. apply String.leb_antisym. Qed.

Lemma Sorted_head_least (x : string) (l : list string) :
  Sorted str_le (x :: l) -> forall y, In y l -> str_le x y.
Proof.
  intros Hs. apply Sorted_StronglySorted in Hs.
  - inversion Hs as [| ? ? _ Hall]; subst.
    intros y Hy. rewrite Forall_forall in Hall. exact (Hall y Hy).
  - intros a b c. apply str_le_trans.
Qed.

(** A set of strings has one sorted listing. *)
Lemma sorted_listing_unique (l l' : list string) :
  Sorted str_le l -> NoDup l ->
  Sorted str_le l' -> NoDup l' ->
  (forall x, In x l <-> In x l') ->
  l = l'.
Proof.
  revert l'. induction l as [| x l IH]; intros l' Hs Hn Hs' Hn' Hsame.
  - destruct l' as [| y l']; [ reflexivity | ].
    exfalso. apply (proj2 (Hsame y)). left. reflexivity.
  - destruct l' as [| y l'].
    { exfalso. apply (proj1 (Hsame x)). left. reflexivity. }
    assert (Exy : x = y).
    { apply str_le_antisym.
      - destruct (proj2 (Hsame y) (or_introl eq_refl)) as [-> | Hy].
        + destruct (String.leb_total y y); assumption.
        + exact (Sorted_head_least x l Hs y Hy).
      - destruct (proj1 (Hsame x) (or_introl eq_refl)) as [-> | Hx].
        + destruct (String.leb_total x x); assumption.
        + exact (Sorted_head_least y l' Hs' x Hx). }
    subst y. f_equal.
    inversion Hs; inversion Hs'; inversion Hn; inversion Hn'; subst.
    apply IH; try assumption.
    intros z. split; intros Hz.
    + destruct (proj1 (Hsame z) (or_intror Hz)) as [-> | H];
        [ contradiction | exact H ].
    + destruct (proj2 (Hsame z) (or_intror Hz)) as [-> | H];
        [ contradiction | exact H ].
Qed.

Lemma filter_Sorted (p : string -> bool) (l : list string) :
  Sorted str_le l -> Sorted str_le (filter p l).
Proof.
  intros Hs. apply StronglySorted_Sorted.
  apply Sorted_StronglySorted in Hs;
    [ | intros a b c; apply str_le_trans ].
  induction Hs as [| x l Hl IH Hall]; simpl.
  - constructor.
  - destruct (p x); [ | exact IH ].
    constructor; [ exact IH | ].
    rewrite Forall_forall in *. intros y Hy.
    apply filter_In in Hy. apply Hall, Hy.
Qed.

Lemma make_full_fields_drops_velocity (fields : list string) :
  _make_full_fields fields false
  = filter (fun x => negb (String.eqb x "U")) (_make_full_fields fields true).
Proof.
  destruct (make_full_fields_canonical fields false) as [Hs [Hn Hin]].
  destruct (make_full_fields_canonical fields true) as [Hs' [Hn' Hin']].
  apply sorted_listing_unique; try assumption.
  - apply filter_Sorted. exact Hs'.
  - apply NoDup_filter. exact Hn'.
  - intros x. rewrite filter_In, Hin, Hin', negb_true_iff, String.eqb_neq.
    split.
    + intros [H1 H2]. split; [ split; [ exact H1 | discriminate ] | ].
      apply H2. reflexivity.
    + intros [[H1 _] H2]. split; [ exact H1 | intros _; exact H2 ].
Qed.

(** X8. The two contexts agree on the order of the fields: the
    canonical list of the loading context is the one of the extraction
    context with the velocity taken out, so the columns the loader
    indexes are in the order the extraction asked for. *)
Theorem make_full_fields_load_is_extract_without_velocity :
  forall fields : list string,
    _make_full_fields fields false
    = filter (fun x => negb (String.eqb x "U")) (_make_full_fields fields true).
Proof.
  exact make_full_fields_drops_velocity.
Qed.

(** X9. The canonical list depends on the set of the requested fields
    only, not on their order or repetition; so does the name of the
    file a batch is read from. *)
Theorem make_full_fields_of_the_set :
  forall (f g : list string) (for_extract : bool),
    (forall x, In x f <-> In x g) ->
    _make_full_fields f for_extract = _make_full_fields g for_extract
    /\ batch_file f = batch_file g.
Proof.
  intros f g b Hsame.
  assert (E : forall b', _make_full_fields f b' = _make_full_fields g b').
  { intros b'.
    destruct (make_full_fields_canonical f b') as [Hs [Hn Hin]].
    destruct (make_full_fields_canonical g b') as [Hs' [Hn' Hin']].
    apply sorted_listing_unique; try assumption.
    intros x. rewrite Hin, Hin', Hsame. reflexivity. }
  split; [ apply E | ].
  unfold batch_file, _make_fields. rewrite (E false). reflexivity.
Qed.

Lemma make_full_fields_of_the_set_witness :
  _make_full_fields ["p"; "T"; "T"] false = _make_full_fields ["T"; "p"] false
  /\ batch_file ["p"; "T"; "T"] = batch_file ["T"; "p"].
Proof.
  apply (make_full_fields_of_the_set ["p"; "T"; "T"] ["T"; "p"] false).
  intros x. simpl. tauto.
Defined.

Lemma insert_sorted_length (x : string) (l : list string) :
  List.length (insert_sorted x l) = S (List.length l).
Proof.
  induction l as [| y l IH]; simpl; [ reflexivity | ].
  destruct (String.leb x y); simpl; [ reflexivity | rewrite IH; reflexivity ].
Qed.

Lemma sorted_length (l : list string) :
  List.length (sorted l) = List.length l.
Proof.
  induction l as [| x l IH]; simpl; [ reflexivity | ].
  rewrite insert_sorted_length, IH. reflexivity.
Qed.

Lemma nodup_length_le (l : list string) :
  List.length (nodup string_dec l) <= List.length l.
Proof.
  induction l as [| x l IH]; simpl; [ lia | ].
  destruct (in_dec string_dec x l); simpl; lia.
Qed.

Lemma filter_out_one (x : string) (l : list string) :
  NoDup l -> In x l ->
  S (List.length (filter (fun y => negb (String.eqb y x)) l)) = List.length l.
Proof.
  induction 1 as [| y l Hy Hl IH]; intros Hin; simpl.
  - destruct Hin.
  - destruct (String.eqb y x) eqn:E; simpl.
    + apply String.eqb_eq in E. subst y. f_equal.
      clear IH Hin Hl. induction l as [| z l IHl]; simpl; [ reflexivity | ].
      destruct (String.eqb z x) eqn:Ez.
      * apply String.eqb_eq in Ez. subst z. exfalso. apply Hy. left. reflexivity.
      * simpl. f_equal. apply IHl. intros H. apply Hy. right. exact H.
    + f_equal. apply IH. destruct Hin as [-> | Hin]; [ | exact Hin ].
      rewrite String.eqb_refl in E. discriminate.
Qed.

(** X10. The file a batch is read from has as many columns as the
    extraction of that batch named fields: the position stands where
    the velocity was.  For a batch of [n] fields this is between 6 and
    [6 + n] columns. *)
Theorem num_fields_bounds :
  forall f : list string,
    _num_fields f false + 1 = _num_fields f true
    /\ 6 <= _num_fields f true <= 6 + List.length f.
Proof.
  intros f. unfold _num_fields.
  destruct (make_full_fields_canonical f true) as [_ [Hn Hin]].
  split; [ | split ].
  - rewrite make_full_fields_drops_velocity.
    rewrite Nat.add_1_r. apply filter_out_one; [ exact Hn | ].
    apply Hin. split; [ left; left; reflexivity | discriminate ].
  - change 6 with (List.length req_fields).
    apply NoDup_incl_length.
    + repeat constructor; simpl; intuition discriminate.
    + intros x Hx. apply Hin. split; [ left; exact Hx | discriminate ].
  - unfold _make_full_fields, set_diff, set_union, py_set.
    rewrite sorted_length.
    eapply Nat.le_trans; [ apply filter_length_le | ].
    eapply Nat.le_trans; [ apply nodup_length_le | ].
    rewrite length_app. change (List.length req_fields) with 6.
    pose proof (nodup_length_le f). lia.
Qed.

(** ** The index of a field *)

Lemma index_of_nth (x : string) (l : list string) (i : nat) :
  index_of x l = Some i -> nth_error l i = Some x.
Proof.
  revert i. induction l as [| y l IH]; intros i; simpl.
  - discriminate.
  - destruct (String.eqb x y) eqn:E.
    + apply String.eqb_eq in E. intros H. inversion H. subst. reflexivity.
    + destruct (index_of x l) as [j |]; [ | discriminate ].
      intros H. inversion H. simpl. apply IH. reflexivity.
Qed.

(** X11. A field's index is its place in the canonical list, so two
    fields never share a column; and the lookup fails, with
    [ValueError], exactly for a field that is neither required nor in
    the batch, or for the velocity in the loading context. *)
Theorem field_index_is_the_place :
  forall (x y : string) (f : list string) (for_extract : bool) (i : nat),
    (_field_index x f for_extract = Ok i ->
     nth_error (_make_full_fields f for_extract) i = Some x
     /\ i < _num_fields f for_extract
     /\ (_field_index y f for_extract = Ok i -> x = y))
    /\ (_field_index x f for_extract = Raise ValueError <->
        ~ ((In x req_fields \/ In x f) /\ (for_extract = false -> x <> "U"))).
Proof.
  intros x y f b i. unfold _field_index, _num_fields. split.
  - destruct (index_of x (_make_full_fields f b)) as [j |] eqn:E;
      [ | discriminate ].
    intros H. inversion H; subst j.
    split; [ exact (index_of_nth _ _ _ E) | ].
    split; [ exact (@index_of_bound _ _ _ E) | ].
    destruct (index_of y (_make_full_fields f b)) as [j |] eqn:E';
      [ | discriminate ].
    intros H'. inversion H'; subst j.
    apply index_of_nth in E. apply index_of_nth in E'. congruence.
  - rewrite <- make_full_fields_In.
    destruct (index_of x (_make_full_fields f b)) as [j |] eqn:E.
    + split; [ discriminate | ]. intros H. exfalso. apply H.
      apply index_of_nth in E. exact (nth_error_In _ _ E).
    + split; [ | reflexivity ]. intros _ Hin.
      destruct (@index_of_In _ _ Hin) as [j E']. congruence.
Qed.

Lemma field_index_is_the_place_witness :
  nth_error (_make_full_fields ["T"; "p"] false) 1 = Some "T"
  /\ 1 < _num_fields ["T"; "p"] false
  /\ (_field_index "T" ["T"; "p"] false = Ok 1 -> "T" = "T").
Proof.
  apply (proj1 (field_index_is_the_place "T" "T" ["T"; "p"] false 1)).
  reflexivity.
Defined.

(** ** The batches as slices *)

Lemma field_iter_cons {A : Type} (x : A) (l : list A) (b : bool) :
  _field_iter (x :: l) b
  = firstn 10 (x :: l) :: _field_iter (skipn 10 (x :: l)) b.
Proof.
  simp _field_iter. cbn zeta.
  destruct (Nat.le_ge_cases 10 (List.length (x :: l))) as [H | H].
  - rewrite Nat.min_l by exact H. reflexivity.
  - rewrite Nat.min_r by exact H.
    rewrite firstn_all, skipn_all, firstn_all2, skipn_all2 by exact H.
    reflexivity.
Qed.

Lemma field_iter_slices_bounded (A : Type) (b : bool) :
  forall n (l : list A), List.length l <= n ->
    (forall j, nth_error (_field_iter l b) j
               = (if Nat.ltb (10 * j) (List.length l)
                  then Some (firstn 10 (skipn (10 * j) l))
                  else None))
    /\ List.length (_field_iter l b) = (List.length l + 9) / 10.
Proof.
  induction n as [| n IH]; intros l Hl.
  - destruct l; [ | simpl in Hl; lia ].
    simp _field_iter. split; [ intros []; reflexivity | reflexivity ].
  - destruct l as [| x l].
    { simp _field_iter. split; [ intros []; reflexivity | reflexivity ]. }
    rewrite field_iter_cons.
    destruct (IH (skipn 10 (x :: l))) as [IH1 IH2].
    { rewrite length_skipn. simpl in *. lia. }
    split.
    + intros [| j].
      * reflexivity.
      * cbn [nth_error]. rewrite IH1, length_skipn, skipn_skipn.
        replace (10 * S j) with (10 * j + 10) by lia.
        destruct (Nat.ltb (10 * j) (List.length (x :: l) - 10)) eqn:E1;
          destruct (Nat.ltb (10 * j + 10) (List.length (x :: l))) eqn:E2;
          try reflexivity;
          apply Nat.ltb_lt in E1 || apply Nat.ltb_ge in E1;
          apply Nat.ltb_lt in E2 || apply Nat.ltb_ge in E2; lia.
    + cbn [List.length]. rewrite IH2, length_skipn. cbn [List.length].
      destruct (Nat.le_ge_cases 10 (S (List.length l))) as [H | H].
      * replace (S (List.length l) + 9)
          with (S (List.length l) - 10 + 9 + 1 * 10) by lia.
        rewrite Nat.div_add by lia. lia.
      * replace (S (List.length l) - 10) with 0 by lia.
        change ((0 + 9) / 10) with 0.
        apply (Nat.div_unique _ 10 1 (List.length l)); lia.
Qed.

(** X12. The batches are the consecutive slices of ten: batch [j] is
    [fields[10*j : 10*j + 10]], and there are [ceil(len(fields) / 10)]
    of them, so every batch but the last holds exactly ten fields. *)
Theorem field_iter_slices :
  forall (A : Type) (fields : list A) (for_extract : bool) (j : nat),
    nth_error (_field_iter fields for_extract) j
    = (if Nat.ltb (10 * j) (List.length fields)
       then Some (firstn 10 (skipn (10 * j) fields))
       else None)
    /\ List.length (_field_iter fields for_extract)
       = (List.length fields + 9) / 10.
Proof.
  intros A fields b j.
  destruct (field_iter_slices_bounded A b (List.length fields) fields
              (le_n _)) as [H1 H2].
  split; [ apply H1 | exact H2 ].
Qed.

(** ** Which column holds which field *)

Lemma map2_app_columns (ra rb : list (list F64.t)) (ca : nat) :
  List.length ra = List.length rb ->
  Forall (fun r => List.length r = ca) ra ->
  forall j,
    map (fun r => nth j r F64.zero) (map2 (@app F64.t) ra rb)
    = if Nat.ltb j ca
      then map (fun r => nth j r F64.zero) ra
      else map (fun r => nth (j - ca) r F64.zero) rb.
Proof.
  revert rb. induction ra as [| x ra IH]; intros [| y rb] Hlen Ha j;
    simpl in *; try discriminate.
  - destruct (Nat.ltb j ca); reflexivity.
  - inversion Ha as [| ? ? Hx Ha']; subst.
    rewrite (IH rb) by (assumption || lia).
    destruct (Nat.ltb j (List.length x)) eqn:E.
    + apply Nat.ltb_lt in E. rewrite app_nth1 by exact E. reflexivity.
    + apply Nat.ltb_ge in E. rewrite app_nth2 by exact E. reflexivity.
Qed.

Lemma hstack_columns (a b m : matrix) (r ca cb : nat) :
  shaped r ca a -> shaped r cb b ->
  hstack a b = Ok m ->
  (forall j, j < ca -> column m j = column a j)
  /\ (forall j, j < cb -> column m (ca + j) = column b j).
Proof.
  intros [Ha1 [Ha2 Ha3]] [Hb1 [Hb2 Hb3]]. unfold hstack.
  destruct (Nat.eqb (nrows a) (nrows b)); [ | discriminate ].
  intros H. inversion H. clear H.
  unfold nrows, wf_matrix in *. rewrite Ha2 in Ha3.
  assert (Hlen : List.length (rows a) = List.length (rows b)) by lia.
  split; intros j Hj; unfold column; cbn [ncols rows]; rewrite Ha2, Hb2.
  - replace (Nat.ltb j (ca + cb)) with true
      by (symmetry; apply Nat.ltb_lt; lia).
    replace (Nat.ltb j ca) with true by (symmetry; apply Nat.ltb_lt; lia).
    rewrite (map2_app_columns _ _ ca Hlen Ha3).
    replace (Nat.ltb j ca) with true by (symmetry; apply Nat.ltb_lt; lia).
    reflexivity.
  - replace (Nat.ltb (ca + j) (ca + cb)) with true
      by (symmetry; apply Nat.ltb_lt; lia).
    replace (Nat.ltb j cb) with true by (symmetry; apply Nat.ltb_lt; lia).
    rewrite (map2_app_columns _ _ ca Hlen Ha3).
    replace (Nat.ltb (ca + j) ca) with false
      by (symmetry; apply Nat.ltb_ge; lia).
    replace (ca + j - ca) with j by lia. reflexivity.
Qed.

Lemma take_cols_column (vals s : matrix) (indicies : list nat) (i k : nat) :
  take_cols vals indicies = Ok s ->
  nth_error indicies i = Some k ->
  column s i = column vals k.
Proof.
  unfold take_cols. destruct indicies as [| i0 rest] eqn:Ei.
  - destruct i; discriminate.
  - rewrite <- Ei.
    destruct (forallb (fun j => Nat.ltb j (ncols vals)) indicies) eqn:Hall;
      [ | discriminate ].
    intros H Hk. inversion H. unfold column. cbn [ncols rows].
    assert (Hi : i < List.length indicies)
      by (apply nth_error_Some; congruence).
    assert (Hkb : k < ncols vals).
    { rewrite forallb_forall in Hall. apply Nat.ltb_lt. apply Hall.
      exact (nth_error_In _ _ Hk). }
    replace (Nat.ltb i (List.length indicies)) with true
      by (symmetry; apply Nat.ltb_lt; exact Hi).
    replace (Nat.ltb k (ncols vals)) with true
      by (symmetry; apply Nat.ltb_lt; exact Hkb).
    f_equal. rewrite map_map. apply map_ext. intros row.
    rewrite (nth_indep _ F64.zero (nth 0 row F64.zero))
      by (rewrite length_map; exact Hi).
    rewrite (map_nth (fun j => nth j row F64.zero) indicies 0 i).
    rewrite (nth_error_nth _ _ 0 Hk). reflexivity.
Qed.

Lemma mapM_nth {A B : Type} (g : A -> outcome B) (l : list A) (ys : list B)
  (i : nat) (x : A) (y : B) :
  mapM g l = Ok ys -> nth_error l i = Some x -> g x = Ok y ->
  nth_error ys i = Some y.
Proof.
  revert ys i. induction l as [| a l IH]; intros ys i; simpl.
  - destruct i; discriminate.
  - destruct (g a) as [b |] eqn:E; simpl; [ | discriminate ].
    destruct (mapM g l) as [ys' |]; simpl; [ | discriminate ].
    intros H. inversion H; subst ys. destruct i as [| i]; simpl.
    + intros Hx Hy. inversion Hx; subst. congruence.
    + intros Hx Hy. exact (IH ys' i eq_refl Hx Hy).
Qed.

(** What one batch adds to the matrix: the columns kept, then one
    column per field of the batch, each read at the field's index in
    the batch file. *)
Lemma load_batch_columns (time : time_dir) (comp : option matrix)
  (m : matrix) (f : list string) (flat : list F64.t) (r n : nat) :
  fromfile time (batch_file f) = Ok flat ->
  List.length flat = r * (_num_fields f false + 1) ->
  match comp with
  | None => n = 1
  | Some c => shaped r n c
  end ->
  load_batch time comp f = Ok (Some m) ->
  (forall c j, comp = Some c -> j < n -> column m j = column c j)
  /\ (forall i x idx,
        nth_error f i = Some x ->
        _field_index x f false = Ok idx ->
        column m (n + i) = Ok (file_column f flat (1 + idx))).
Proof.
  intros Hfile Hl Hcomp. unfold load_batch. rewrite Hfile. cbn [bind].
  rewrite (@reshape_ok flat r (_num_fields f false + 1) Hl) by lia.
  cbn [bind].
  set (vals := Matrix (_num_fields f false + 1)
                 (chunk_rows r (_num_fields f false + 1) flat)).
  assert (Hvals : shaped r (_num_fields f false + 1) vals).
  { unfold shaped, nrows, wf_matrix, vals. cbn [ncols rows].
    rewrite chunk_rows_length. repeat split.
    apply chunk_rows_wf. exact Hl. }
  destruct (mapM (batch_index f) f) as [indicies |] eqn:Hi; cbn [bind];
    [ | discriminate ].
  destruct (take_cols vals indicies) as [svals |] eqn:Hs; cbn [bind];
    [ | discriminate ].
  pose proof (@take_cols_shape _ _ _ _ (proj1 Hvals) Hs) as Hsv.
  rewrite (@mapM_length _ _ _ _ _ Hi) in Hsv.
  assert (Hfield : forall i x idx,
            nth_error f i = Some x ->
            _field_index x f false = Ok idx ->
            i < List.length f
            /\ column svals i = Ok (file_column f flat (1 + idx))).
  { intros i x idx Hx Hidx.
    assert (Hlt : i < List.length f)
      by (apply nth_error_Some; congruence).
    split; [ exact Hlt | ].
    assert (Hk : nth_error indicies i = Some (1 + idx)).
    { apply (mapM_nth (batch_index f) f indicies i x (1 + idx) Hi Hx).
      unfold batch_index. rewrite Hidx. reflexivity. }
    rewrite (take_cols_column vals svals indicies i (1 + idx) Hs Hk).
    unfold column, file_column. cbn [ncols rows vals].
    assert (Hb : 1 + idx < _num_fields f false + 1).
    { apply (@batch_index_bound f x). unfold batch_index.
      rewrite Hidx. reflexivity. }
    replace (Nat.ltb (1 + idx) (_num_fields f false + 1)) with true
      by (symmetry; apply Nat.ltb_lt; exact Hb).
    rewrite Hl, Nat.div_mul by lia. reflexivity. }
  destruct comp as [c |].
  - destruct (hstack c svals) as [m' |] eqn:Hh; cbn [bind];
      [ | discriminate ].
    intros H. inversion H; subst m'.
    destruct (hstack_columns c svals m r n (List.length f) Hcomp Hsv Hh)
      as [Hleft Hright].
    split.
    + intros c' j Ec Hj. inversion Ec; subst. exact (Hleft j Hj).
    + intros i x idx Hx Hidx.
      destruct (Hfield i x idx Hx Hidx) as [Hlt Hcol].
      rewrite (Hright i Hlt). exact Hcol.
  - subst n. unfold column at 1. cbn [ncols vals].
    replace (Nat.ltb 0 (_num_fields f false + 1)) with true
      by (symmetry; apply Nat.ltb_lt; lia).
    cbn [bind].
    set (pos := map (fun row => nth 0 row F64.zero) (rows vals)).
    destruct (expand_dims_shape pos) as [Hp _].
    assert (Hlen : List.length pos = r).
    { unfold pos. rewrite length_map. exact (proj1 Hvals). }
    rewrite Hlen in Hp.
    destruct (hstack (expand_dims pos) svals) as [m' |] eqn:Hh;
      cbn [bind]; [ | discriminate ].
    intros H. inversion H; subst m'.
    destruct (hstack_columns _ svals m r 1 (List.length f) Hp Hsv Hh)
      as [_ Hright].
    split; [ discriminate | ].
    intros i x idx Hx Hidx.
    destruct (Hfield i x idx Hx Hidx) as [Hlt Hcol].
    rewrite (Hright i Hlt). exact Hcol.
Qed.

Lemma load_batches_columns (time : time_dir) (r : nat)
  (batches : list (list string)) :
  (forall f, In f batches ->
     exists flat, fromfile time (batch_file f) = Ok flat
                  /\ List.length flat = r * (_num_fields f false + 1)) ->
  forall c n m,
    shaped r n c -> 1 <= n ->
    load_batches time (Some c) batches = Ok (Some m) ->
    (forall j, j < n -> column m j = column c j)
    /\ (forall b f i x idx flat,
          nth_error batches b = Some f ->
          nth_error f i = Some x ->
          _field_index x f false = Ok idx ->
          fromfile time (batch_file f) = Ok flat ->
          column m (n + List.length (List.concat (firstn b batches)) + i)
          = Ok (file_column f flat (1 + idx))).
Proof.
  induction batches as [| f0 rest IH]; intros Hfiles c n m Hc Hn; simpl.
  - intros H. inversion H; subst. split; [ reflexivity | ].
    intros b f i x idx flat Hb. destruct b; discriminate.
  - destruct (Hfiles f0 (or_introl eq_refl)) as [flat0 [Hfile0 Hl0]].
    destruct (load_batch time (Some c) f0) as [res1 |] eqn:Hb0; cbn [bind];
      [ | discriminate ].
    destruct (@load_batch_shape _ _ _ _ _ _ Hfile0 Hl0 Hb0 n Hc)
      as [m1 [-> [Hm1 _]]].
    destruct (load_batch_columns time (Some c) m1 f0 flat0 r n
                Hfile0 Hl0 Hc Hb0) as [Hleft0 Hnew0].
    intros H.
    destruct (IH (fun g Hg => Hfiles g (or_intror Hg)) m1
                (n + List.length f0) m Hm1 ltac:(lia) H) as [Hleft Hnew].
    split.
    + intros j Hj. rewrite (Hleft j) by lia. exact (Hleft0 c j eq_refl Hj).
    + intros b f i x idx flat Hb Hx Hidx Hfile. destruct b as [| b].
      * simpl in Hb. inversion Hb; subst f.
        assert (flat = flat0) by congruence. subst flat.
        assert (Hlt : i < List.length f0)
          by (apply nth_error_Some; congruence).
        cbn [firstn List.concat List.length]. rewrite Nat.add_0_r.
        rewrite (Hleft (n + i)) by lia.
        exact (Hnew0 i x idx Hx Hidx).
      * simpl in Hb. cbn [firstn]. simpl List.concat. rewrite length_app.
        replace (n + (List.length f0
                      + List.length (List.concat (firstn b rest))) + i)
          with (n + List.length f0
                + List.length (List.concat (firstn b rest)) + i) by lia.
        exact (Hnew b f i x idx flat Hb Hx Hidx Hfile).
Qed.

Lemma full_batches_before {A : Type} (fields : list A) (b : bool) (j : nat)
  (f : list A) :
  nth_error (_field_iter fields b) j = Some f ->
  List.length (List.concat (firstn j (_field_iter fields b))) = 10 * j.
Proof.
  intros Hj.
  assert (Hlt : 10 * j < List.length fields).
  { rewrite (proj1 (field_iter_slices_bounded A b _ fields (le_n _)) j) in Hj.
    destruct (Nat.ltb (10 * j) (List.length fields)) eqn:E;
      [ apply Nat.ltb_lt; exact E | discriminate ]. }
  clear Hj f.
  assert (Hfull : forall j', j' < j ->
            exists f', nth_error (_field_iter fields b) j' = Some f'
                       /\ List.length f' = 10).
  { intros j' Hj'. eexists. split.
    - rewrite (proj1 (field_iter_slices_bounded A b _ fields (le_n _)) j').
      replace (Nat.ltb (10 * j') (List.length fields)) with true
        by (symmetry; apply Nat.ltb_lt; lia).
      reflexivity.
    - rewrite length_firstn, length_skipn. lia. }
  clear Hlt. revert Hfull. generalize (_field_iter fields b) as l.
  induction j as [| j IH]; intros l Hfull.
  - reflexivity.
  - destruct (Hfull 0 ltac:(lia)) as [f0 [H0 Hlen0]].
    destruct l as [| x l]; [ discriminate | ].
    simpl in H0. inversion H0; subst x.
    cbn [firstn]. simpl List.concat. rewrite length_app, Hlen0.
    rewrite (IH l); [ lia | ].
    intros j' Hj'. exact (Hfull (S j') ltac:(lia)).
Qed.

(** X13. The columns of the assembled matrix follow the requested
    fields: for the field at place [i] of batch [j], column
    [1 + 10*j + i] of the matrix is the column of the batch's file at
    the field's index in the batch's canonical list, whatever required
    fields the file holds beside it. *)
Theorem assemble_columns_follow_fields :
  forall (fields : list string) (time : time_dir) (r : nat) (m : matrix)
         (j i idx : nat) (f : list string) (x : string) (flat : list F64.t),
    sampled fields time r ->
    assemble fields time = Ok (Some m) ->
    nth_error (_field_iter fields false) j = Some f ->
    nth_error f i = Some x ->
    _field_index x f false = Ok idx ->
    fromfile time (batch_file f) = Ok flat ->
    column m (1 + 10 * j + i) = Ok (file_column f flat (1 + idx)).
Proof.
  intros fields time r m j i idx f x flat Hs Ha Hj Hx Hidx Hfile.
  pose proof (full_batches_before fields false j f Hj) as Hoff.
  unfold assemble, sampled in *.
  destruct (_field_iter fields false) as [| first rest]; simpl in Ha.
  - destruct j; discriminate.
  - destruct (Hs first (or_introl eq_refl)) as [flat0 [Hfile0 Hl0]].
    destruct (load_batch time None first) as [res1 |] eqn:Hb0;
      cbn [bind] in Ha; [ | discriminate ].
    destruct (@load_batch_shape _ _ _ _ _ _ Hfile0 Hl0 Hb0)
      as [m1 [-> [Hm1 _]]].
    destruct (load_batch_columns time None m1 first flat0 r 1
                Hfile0 Hl0 eq_refl Hb0) as [_ Hnew0].
    destruct (load_batches_columns time r rest
                (fun g Hg => Hs g (or_intror Hg)) m1
                (1 + List.length first) m Hm1 ltac:(lia) Ha)
      as [Hleft Hnew].
    destruct j as [| j].
    + simpl in Hj. inversion Hj; subst f.
      assert (flat = flat0) by congruence. subst flat.
      assert (Hlt : i < List.length first)
        by (apply nth_error_Some; congruence).
      replace (1 + 10 * 0 + i) with (1 + i) by lia.
      rewrite (Hleft (1 + i)) by lia.
      exact (Hnew0 i x idx Hx Hidx).
    + simpl in Hj. cbn [firstn] in Hoff. simpl List.concat in Hoff.
      rewrite length_app in Hoff.
      replace (1 + 10 * S j + i)
        with (1 + List.length first
              + List.length (List.concat (firstn j rest)) + i) by lia.
      exact (Hnew j f i x idx flat Hj Hx Hidx Hfile).
Qed.

Lemma assemble_columns_follow_fields_witness :
  column matrix_T_p 2 = Ok (file_column ["T"; "p"] line_T_p 7).
Proof.
  apply (assemble_columns_follow_fields ["T"; "p"] dir_5000 2 matrix_T_p
           0 1 6 ["T"; "p"] "p" line_T_p).
  - intros f [<- | []]. exists line_T_p. split; vm_compute; reflexivity.
  - vm_compute. reflexivity.
  - reflexivity.
  - reflexivity.
  - vm_compute. reflexivity.
  - vm_compute. reflexivity.
Defined.

(** ** Broadcasting in the relative error *)

Lemma map2_length {A B C : Type} (f : A -> B -> C) (l : list A) (l' : list B) :
  List.length (map2 f l l') = Nat.min (List.length l) (List.length l').
Proof.
  revert l'. induction l as [| x l IH]; intros [| y l']; simpl; try reflexivity.
  rewrite IH. reflexivity.
Qed.

Lemma stretch_length {A : Type} (la lb : list A) (r : nat) :
  bdim (List.length la) (List.length lb) = Some r ->
  List.length (stretch r la) = r /\ List.length (stretch r lb) = r.
Proof.
  unfold bdim.
  destruct (Nat.eqb (List.length la) (List.length lb)) eqn:E.
  - apply Nat.eqb_eq in E. intros H. inversion H; subst r. split.
    + destruct la as [| x [| y la]]; reflexivity.
    + rewrite E. destruct lb as [| x [| y lb]]; reflexivity.
  - apply Nat.eqb_neq in E.
    destruct (Nat.eqb (List.length la) 1) eqn:Ea.
    + apply Nat.eqb_eq in Ea. intros H. inversion H; subst r. split.
      * destruct la as [| x [| y la]]; try discriminate.
        simpl. apply repeat_length.
      * destruct lb as [| x [| y lb]]; reflexivity.
    + apply Nat.eqb_neq in Ea.
      destruct (Nat.eqb (List.length lb) 1) eqn:Eb; [ | discriminate ].
      apply Nat.eqb_eq in Eb. intros H. inversion H; subst r. split.
      * destruct la as [| x [| y la]]; reflexivity.
      * destruct lb as [| x [| y lb]]; try discriminate.
        simpl. apply repeat_length.
Qed.

Lemma broadcast2_shape (op : F64.t -> F64.t -> F64.t) (a b : matrix) :
  match broadcast2 op a b with
  | Ok m => bdim (nrows a) (nrows b) = Some (nrows m)
            /\ bdim (ncols a) (ncols b) = Some (ncols m)
  | Raise e => e = ValueError
               /\ (bdim (nrows a) (nrows b) = None
                   \/ bdim (ncols a) (ncols b) = None)
  end.
Proof.
  unfold broadcast2.
  destruct (bdim (nrows a) (nrows b)) as [r |] eqn:Er.
  - destruct (bdim (ncols a) (ncols b)) as [c |] eqn:Ec.
    + split; [ | reflexivity ].
      destruct (stretch_length (rows a) (rows b) r Er) as [Ha Hb].
      unfold nrows. cbn [rows]. rewrite map2_length, Ha, Hb, Nat.min_id.
      reflexivity.
    + split; [ reflexivity | right; reflexivity ].
  - split; [ reflexivity | left; reflexivity ].
Qed.

Lemma bdim_absorbs (a b r : nat) : bdim a b = Some r -> bdim r a = Some r.
Proof.
  unfold bdim. destruct (Nat.eqb a b) eqn:E.
  - intros H. inversion H. rewrite Nat.eqb_refl. reflexivity.
  - destruct (Nat.eqb a 1) eqn:Ea.
    + apply Nat.eqb_eq in Ea. intros H. inversion H; subst.
      rewrite Nat.eqb_sym, E. destruct (Nat.eqb r 1); reflexivity.
    + destruct (Nat.eqb b 1); [ | discriminate ].
      intros H. inversion H. rewrite Nat.eqb_refl. reflexivity.
Qed.

Lemma rel_diff_shape (c t : matrix) :
  match rel_diff (Some c) (Some t) with
  | Ok diff =>
      bdim (nrows c) (nrows t) = Some (nrows diff)
      /\ bdim (ncols c - 1) (ncols t - 1) = Some (ncols diff)
  | Raise e =>
      e = ValueError
      /\ (bdim (nrows c) (nrows t) = None
          \/ bdim (ncols c - 1) (ncols t - 1) = None)
  end.
Proof.
  unfold rel_diff, as_array. cbn [bind].
  assert (Hr : forall m, nrows (drop_col0 m) = nrows m).
  { intros m. unfold nrows, drop_col0. cbn [rows]. apply length_map. }
  pose proof (broadcast2_shape F64.sub (drop_col0 c) (drop_col0 t)) as H1.
  rewrite !Hr in H1. cbn [drop_col0 ncols] in H1.
  destruct (broadcast2 F64.sub (drop_col0 c) (drop_col0 t)) as [num | e];
    cbn [bind]; [ | exact H1 ].
  destruct H1 as [Hrows Hcols].
  pose proof (broadcast2_shape F64.div (map_matrix F64.abs num)
                (map_matrix (fun x => F64.add eps_1e_300 (F64.abs x))
                   (drop_col0 c))) as H2.
  assert (Hn : forall g m, nrows (map_matrix g m) = nrows m).
  { intros g m. unfold nrows, map_matrix. cbn [rows]. apply length_map. }
  rewrite !Hn, Hr in H2. cbn [map_matrix drop_col0 ncols] in H2.
  rewrite (bdim_absorbs _ _ _ Hrows), (bdim_absorbs _ _ _ Hcols) in H2.
  destruct (broadcast2 F64.div _ _) as [diff | e].
  - destruct H2 as [E1 E2]. inversion E1. inversion E2.
    split; congruence.
  - destruct H2 as [_ [H | H]]; discriminate.
Qed.

(** X14. The relative error is refused, with [ValueError], only when
    the row counts or the field counts of the two matrices differ and
    neither is 1; otherwise it has the broadcast shape.  A baseline or
    a candidate of a single row is thus stretched over the rows of the
    other rather than refused. *)
Theorem rel_diff_broadcasts :
  forall c t : matrix,
    match rel_diff (Some c) (Some t) with
    | Ok diff =>
        bdim (nrows c) (nrows t) = Some (nrows diff)
        /\ bdim (ncols c - 1) (ncols t - 1) = Some (ncols diff)
    | Raise e =>
        e = ValueError
        /\ (bdim (nrows c) (nrows t) = None
            \/ bdim (ncols c - 1) (ncols t - 1) = None)
    end.
Proof.
  exact rel_diff_shape.
Qed.

(** ** Relative errors are never negative *)

Lemma shr_fexp_nonneg (m e : Z) (l : location) :
  (0 <= m)%Z ->
  (0 <= shr_m (fst (shr_fexp F64.prec F64.emax m e l)))%Z.
Proof.
  intros Hm. unfold shr_fexp, shr.
  destruct (fexp F64.prec F64.emax (Zdigits2 m + e) - e)%Z as [| p | p];
    cbn [fst]; rewrite ?record_of_loc_m; try exact Hm.
  rewrite iter_shr_1_shiftr by (rewrite record_of_loc_m; exact Hm).
  rewrite record_of_loc_m. apply Z.shiftr_nonneg. exact Hm.
Qed.

Lemma binary_round_aux_unsigned (m e : Z) (l : location) :
  (0 <= m)%Z ->
  unsigned (binary_round_aux F64.prec F64.emax false m e l).
Proof.
  intros Hm. unfold binary_round_aux.
  pose proof (shr_fexp_nonneg m e l Hm) as H1.
  destruct (shr_fexp F64.prec F64.emax m e l) as [mrs1 e1]. cbn [fst] in H1.
  assert (Hr : (0 <= round_nearest_even (shr_m mrs1)
                       (loc_of_shr_record mrs1))%Z).
  { destruct (loc_of_shr_record mrs1) as [| []]; simpl; try lia.
    destruct (Z.even (shr_m mrs1)); lia. }
  pose proof (shr_fexp_nonneg _ e1 loc_Exact Hr) as H2.
  destruct (shr_fexp F64.prec F64.emax
              (round_nearest_even (shr_m mrs1) (loc_of_shr_record mrs1))
              e1 loc_Exact) as [mrs2 e2].
  cbn [fst] in H2.
  destruct (shr_m mrs2) as [| m3 | m3]; try lia; [ reflexivity | ].
  destruct (Z.leb e2 (F64.emax - F64.prec)); reflexivity.
Qed.

Lemma abs_unsigned (x : F64.t) : unsigned (F64.abs x).
Proof. destruct x; reflexivity. Qed.

Lemma floored_abs_unsigned (x : F64.t) :
  unsigned (F64.add eps_1e_300 (F64.abs x)).
Proof.
  rewrite eps_1e_300_value.
  destruct x as [s | s | | s m e]; try reflexivity.
  unfold F64.add, F64.abs, SFabs, SFadd, cond_Zopp.
  match goal with
  | |- context [Z.add (Zpos ?a) (Zpos ?b)] =>
      change (Z.add (Zpos a) (Zpos b)) with (Zpos (a + b))
  end.
  unfold binary_normalize, binary_round.
  match goal with
  | |- context [shl_align ?a ?b ?c] => destruct (shl_align a b c) as [mz ez]
  end.
  apply binary_round_aux_unsigned. lia.
Qed.

Lemma div_unsigned (x y : F64.t) :
  unsigned x -> unsigned y -> unsigned (F64.div x y).
Proof.
  destruct x as [sx | sx | | sx mx ex]; destruct y as [sy | sy | | sy my ey];
    simpl; intros Hx Hy; subst; try reflexivity; try exact I.
  unfold F64.div, SFdiv, SFdiv_core_binary. cbn [xorb].
  match goal with
  | |- context [Z.div_eucl ?a ?b] =>
      assert (Hq : (0 <= fst (Z.div_eucl a b))%Z);
      [ change (fst (Z.div_eucl a b)) with (Z.div a b);
        apply Z.div_pos; [ | lia ]
      | destruct (Z.div_eucl a b) as [q r] ]
  end.
  - match goal with
    | |- (0 <= match ?s with _ => _ end)%Z => destruct s
    end; try lia.
    apply Z.shiftl_nonneg. lia.
  - cbn [fst] in Hq. apply binary_round_aux_unsigned. exact Hq.
Qed.

Lemma unsigned_fixed (x : F64.t) :
  unsigned x -> F64.is_nan x = false ->
  F64.abs x = x /\ F64.eqb x x = true.
Proof.
  destruct x as [s | s | | s m e]; simpl; intros Hx Hn; subst;
    try discriminate; split; try reflexivity.
  unfold F64.eqb, SFeqb, SFcompare.
  rewrite Z.compare_refl, Pos.compare_cont_refl. reflexivity.
Qed.

Lemma map2_Forall {A B C : Type} (f : A -> B -> C) (P : C -> Prop)
  (l : list A) (l' : list B) :
  (forall x y, In x l -> In y l' -> P (f x y)) ->
  Forall P (map2 f l l').
Proof.
  revert l'. induction l as [| x l IH]; intros [| y l'] H; simpl;
    try constructor.
  - apply H; left; reflexivity.
  - apply IH. intros a b Ha Hb. apply H; right; assumption.
Qed.

Lemma stretch_In {A : Type} (n : nat) (l : list A) (x : A) :
  In x (stretch n l) -> In x l.
Proof.
  destruct l as [| y [| z l]]; simpl; try tauto.
  intros H. apply repeat_spec in H. left. symmetry. exact H.
Qed.

Lemma broadcast2_entries (op : F64.t -> F64.t -> F64.t)
  (P Q R : F64.t -> Prop) (a b m : matrix) :
  (forall x y, P x -> Q y -> R (op x y)) ->
  Forall (Forall P) (rows a) -> Forall (Forall Q) (rows b) ->
  broadcast2 op a b = Ok m ->
  Forall (Forall R) (rows m).
Proof.
  intros Hop Ha Hb. unfold broadcast2.
  destruct (bdim (nrows a) (nrows b)) as [r |]; [ | discriminate ].
  destruct (bdim (ncols a) (ncols b)) as [c |]; [ | discriminate ].
  intros H. inversion H. cbn [rows].
  apply map2_Forall. intros ra rb Hra Hrb.
  apply stretch_In in Hra. apply stretch_In in Hrb.
  rewrite Forall_forall in Ha, Hb.
  apply map2_Forall. intros x y Hx Hy.
  apply stretch_In in Hx. apply stretch_In in Hy.
  pose proof (Ha ra Hra) as Hpa. pose proof (Hb rb Hrb) as Hqb.
  rewrite Forall_forall in Hpa, Hqb. apply Hop; auto.
Qed.

Lemma map_matrix_entries (g : F64.t -> F64.t) (R : F64.t -> Prop)
  (m : matrix) :
  (forall x, R (g x)) -> Forall (Forall R) (rows (map_matrix g m)).
Proof.
  intros Hg. unfold map_matrix. cbn [rows].
  apply Forall_forall. intros row Hrow. apply in_map_iff in Hrow.
  destruct Hrow as [row' [<- _]]. apply Forall_forall. intros x Hx.
  apply in_map_iff in Hx. destruct Hx as [x' [<- _]]. apply Hg.
Qed.

Lemma rel_diff_unsigned (c t : option matrix) (diff : matrix) :
  rel_diff c t = Ok diff -> Forall (Forall unsigned) (rows diff).
Proof.
  unfold rel_diff.
  destruct (as_array c) as [cm |]; cbn [bind]; [ | discriminate ].
  destruct (as_array t) as [tm |]; cbn [bind]; [ | discriminate ].
  destruct (broadcast2 F64.sub (drop_col0 cm) (drop_col0 tm)) as [num |];
    cbn [bind]; [ | discriminate ].
  apply (broadcast2_entries F64.div unsigned unsigned unsigned).
  - apply div_unsigned.
  - apply map_matrix_entries, abs_unsigned.
  - apply map_matrix_entries, floored_abs_unsigned.
Qed.

(** ** The comparison of two matrices of one shape *)

Lemma broadcast2_wf (op : F64.t -> F64.t -> F64.t) (a b m : matrix) :
  wf_matrix a -> wf_matrix b ->
  broadcast2 op a b = Ok m -> wf_matrix m.
Proof.
  intros Ha Hb. unfold broadcast2.
  destruct (bdim (nrows a) (nrows b)) as [r |]; [ | discriminate ].
  destruct (bdim (ncols a) (ncols b)) as [c |] eqn:Ec; [ | discriminate ].
  intros H. inversion H. unfold wf_matrix. cbn [rows ncols].
  apply map2_Forall. intros ra rb Hra Hrb.
  apply stretch_In in Hra. apply stretch_In in Hrb.
  unfold wf_matrix in Ha, Hb. rewrite Forall_forall in Ha, Hb.
  rewrite <- (Ha ra Hra), <- (Hb rb Hrb) in Ec.
  destruct (stretch_length ra rb c Ec) as [E1 E2].
  rewrite map2_length, E1, E2. apply Nat.min_id.
Qed.

Lemma drop_col0_wf (m : matrix) : wf_matrix m -> wf_matrix (drop_col0 m).
Proof.
  unfold wf_matrix, drop_col0. cbn [rows ncols]. intros H.
  apply Forall_forall. intros row Hrow. apply in_map_iff in Hrow.
  destruct Hrow as [row' [<- Hr]]. rewrite Forall_forall in H.
  rewrite length_skipn, (H row' Hr). reflexivity.
Qed.

Lemma map_matrix_wf (g : F64.t -> F64.t) (m : matrix) :
  wf_matrix m -> wf_matrix (map_matrix g m).
Proof.
  unfold wf_matrix, map_matrix. cbn [rows ncols]. apply map_rows_length.
Qed.

Lemma rel_diff_wf (c t diff : matrix) :
  wf_matrix c -> wf_matrix t ->
  rel_diff (Some c) (Some t) = Ok diff -> wf_matrix diff.
Proof.
  intros Hc Ht. unfold rel_diff, as_array. cbn [bind].
  destruct (broadcast2 F64.sub (drop_col0 c) (drop_col0 t)) as [num |] eqn:E;
    cbn [bind]; [ | discriminate ].
  apply broadcast2_wf.
  - apply map_matrix_wf.
    exact (broadcast2_wf F64.sub _ _ _ (drop_col0_wf c Hc)
             (drop_col0_wf t Ht) E).
  - apply map_matrix_wf, drop_col0_wf, Hc.
Qed.

Lemma fold_maximum_In (v : list F64.t) (x : F64.t) :
  In (fold_left F64.maximum v x) (x :: v).
Proof.
  revert x. induction v as [| y v IH]; intros x; simpl.
  - left. reflexivity.
  - destruct (IH (F64.maximum x y)) as [H | H].
    + rewrite <- H. unfold F64.maximum.
      destruct (F64.leb y x || F64.is_nan x); auto.
    + right. right. exact H.
Qed.

Lemma max_reduce_In (v : list F64.t) (x : F64.t) :
  max_reduce v = Ok x -> In x v.
Proof.
  destruct v as [| y v]; simpl; [ discriminate | ].
  intros H. inversion H. apply fold_maximum_In.
Qed.

Lemma norm_inf_ok (v : list F64.t) :
  v <> [] -> exists x, norm_inf v = Ok x.
Proof.
  destruct v as [| y v]; [ congruence | ]. intros _.
  unfold norm_inf. simpl. eexists. reflexivity.
Qed.

Lemma norm_inf_In (v : list F64.t) (x : F64.t) :
  norm_inf v = Ok x -> exists d, In d v /\ x = F64.abs d.
Proof.
  unfold norm_inf. intros H. apply max_reduce_In in H.
  apply in_map_iff in H. destruct H as [d [E Hd]].
  exists d. split; [ exact Hd | symmetry; exact E ].
Qed.

Lemma max_of_max_ok (diff : matrix) :
  wf_matrix diff -> 1 <= nrows diff -> 1 <= ncols diff ->
  exists mx, max_of_max diff = Ok mx.
Proof.
  intros Hwf Hr Hc. unfold max_of_max, norm_inf_rows.
  destruct (Nat.eqb (ncols diff) 0) eqn:E;
    [ apply Nat.eqb_eq in E; lia | ].
  destruct (@mapM_ok _ _ norm_inf (rows diff)) as [v Hv].
  { intros row Hrow. apply norm_inf_ok.
    unfold wf_matrix in Hwf. rewrite Forall_forall in Hwf.
    intros ->. specialize (Hwf [] Hrow). simpl in Hwf. lia. }
  rewrite Hv. cbn [bind]. apply norm_inf_ok.
  apply (@mapM_length _ _ norm_inf) in Hv. unfold nrows in Hr.
  destruct v; [ simpl in Hv; lia | discriminate ].
Qed.

Lemma max_of_max_In (diff : matrix) (mx : F64.t) :
  max_of_max diff = Ok mx ->
  exists row d, In row (rows diff) /\ In d row
                /\ mx = F64.abs (F64.abs d).
Proof.
  unfold max_of_max, norm_inf_rows.
  destruct (Nat.eqb (ncols diff) 0); [ discriminate | ].
  destruct (mapM norm_inf (rows diff)) as [v |] eqn:Hv; cbn [bind];
    [ | discriminate ].
  intros H. apply norm_inf_In in H. destruct H as [y [Hy ->]].
  assert (Hall : Forall (fun y => exists row d,
                           In row (rows diff) /\ In d row
                           /\ y = F64.abs d) v).
  { apply (@mapM_Forall _ _ norm_inf _ (rows diff) v); [ | exact Hv ].
    intros row z Hrow Hz. apply norm_inf_In in Hz.
    destruct Hz as [d [Hd ->]]. exists row, d. auto. }
  rewrite Forall_forall in Hall. destruct (Hall y Hy) as [row [d [H1 [H2 ->]]]].
  exists row, d. auto.
Qed.

Lemma In_combine_seq {A : Type} (l : list A) (d : A) (s : nat) :
  In d l -> exists i, In (i, d) (combine (seq s (List.length l)) l).
Proof.
  revert s. induction l as [| x l IH]; intros s; simpl.
  - intros [].
  - intros [-> | H].
    + exists s. left. reflexivity.
    + destruct (IH (S s) H) as [i Hi]. exists i. right. exact Hi.
Qed.

Lemma where_cols_found (x d : F64.t) (m : matrix) (row : list F64.t) :
  In row (rows m) -> In d row -> F64.eqb x d = true ->
  where_cols x m <> [].
Proof.
  intros Hrow Hd He. unfold where_cols.
  destruct (In_combine_seq row d 0 Hd) as [i Hi].
  assert (Hin : In i (flat_map
                        (fun r => map fst
                           (filter (fun jv => F64.eqb x (snd jv))
                              (combine (seq 0 (List.length r)) r)))
                        (rows m))).
  { apply in_flat_map. exists row. split; [ exact Hrow | ].
    apply in_map_iff. exists (i, d). split; [ reflexivity | ].
    apply filter_In. split; [ exact Hi | exact He ]. }
  intros E. rewrite E in Hin. destruct Hin.
Qed.

Lemma where_cols_bound (x : F64.t) (m : matrix) :
  wf_matrix m -> Forall (fun j => j < ncols m) (where_cols x m).
Proof.
  intros Hwf. apply Forall_forall. intros j Hj. unfold where_cols in Hj.
  apply in_flat_map in Hj. destruct Hj as [row [Hrow Hj]].
  apply in_map_iff in Hj. destruct Hj as [[i d] [E Hid]]. simpl in E. subst i.
  apply filter_In in Hid. destruct Hid as [Hid _].
  apply in_combine_l in Hid. apply in_seq in Hid.
  unfold wf_matrix in Hwf. rewrite Forall_forall in Hwf.
  rewrite (Hwf row Hrow) in Hid. lia.
Qed.

Lemma where_cols_nan (m : matrix) : where_cols S754_nan m = [].
Proof.
  unfold where_cols. induction (rows m) as [| row l IH]; simpl.
  - reflexivity.
  - rewrite IH, app_nil_r.
    induction (combine (seq 0 (List.length row)) row) as [| jv l' IH'];
      simpl; [ reflexivity | exact IH' ].
Qed.

Lemma field_err_ok (fields : list string) (name : string) (diff : matrix) :
  wf_matrix diff -> 1 <= nrows diff ->
  List.length fields <= ncols diff ->
  exists v, field_err fields name diff = Ok v.
Proof.
  intros Hwf Hr Hc. unfold field_err.
  destruct (index_of name fields) as [ind |] eqn:E;
    [ | eexists; reflexivity ].
  apply index_of_bound in E. unfold column.
  replace (Nat.ltb ind (ncols diff)) with true
    by (symmetry; apply Nat.ltb_lt; lia).
  cbn [bind].
  destruct (norm_inf_ok (map (fun r => nth ind r F64.zero) (rows diff)))
    as [x Hx].
  { unfold nrows in Hr. destruct (rows diff); [ simpl in Hr; lia | ].
    discriminate. }
  rewrite Hx. cbn [bind]. eexists. reflexivity.
Qed.

Lemma In_combine_seq_nth {A : Type} (l : list A) (i s : nat) (d : A) :
  In (i, d) (combine (seq s (List.length l)) l) ->
  s <= i /\ nth_error l (i - s) = Some d.
Proof.
  revert s. induction l as [| x l IH]; intros s; simpl.
  - intros [].
  - intros [H | H].
    + inversion H; subst. rewrite Nat.sub_diag. split; [ lia | reflexivity ].
    + destruct (IH (S s) H) as [Hle Hn]. split; [ lia | ].
      replace (i - s) with (S (i - S s)) by lia. exact Hn.
Qed.

Lemma where_cols_In (x : F64.t) (m : matrix) (j : nat) :
  In j (where_cols x m) ->
  exists row d, In row (rows m) /\ nth_error row j = Some d
                /\ F64.eqb x d = true.
Proof.
  unfold where_cols. intros Hj. apply in_flat_map in Hj.
  destruct Hj as [row [Hrow Hj]]. apply in_map_iff in Hj.
  destruct Hj as [[i d] [E Hid]]. simpl in E. subst i.
  apply filter_In in Hid. destruct Hid as [Hid He]. simpl in He.
  apply In_combine_seq_nth in Hid. destruct Hid as [_ Hn].
  rewrite Nat.sub_0_r in Hn. exists row, d. auto.
Qed.

Lemma rel_diff_aligned (c t : matrix) (r n : nat) :
  shaped r (1 + n) c -> shaped r (1 + n) t ->
  exists diff, rel_diff (Some c) (Some t) = Ok diff
               /\ nrows diff = r /\ ncols diff = n /\ wf_matrix diff.
Proof.
  intros [Hrc [Hcc Hwc]] [Hrt [Hct Hwt]].
  pose proof (rel_diff_shape c t) as H.
  pose proof (rel_diff_wf c t) as Hwf.
  rewrite Hrc, Hrt, Hcc, Hct in H.
  replace (1 + n - 1) with n in H by lia.
  unfold bdim in H. rewrite !Nat.eqb_refl in H.
  destruct (rel_diff (Some c) (Some t)) as [diff | e].
  - exists diff. destruct H as [H1 H2]. inversion H1. inversion H2.
    repeat split; auto.
  - destruct H as [_ [H | H]]; discriminate.
Qed.

Lemma is_nan_eq (x : F64.t) : F64.is_nan x = true -> x = S754_nan.
Proof. destruct x; simpl; intros H; try discriminate; reflexivity. Qed.

Lemma abs_nan (x : F64.t) : F64.is_nan (F64.abs x) = F64.is_nan x.
Proof. destruct x; reflexivity. Qed.

(** X15. The comparison of a baseline and a candidate of one shape,
    with at least one row and one field.  The relative errors are
    computed and the lines for [T] and [p] are printed; the largest
    relative error is never negative.  Then either it is not a number,
    and the comparison stops with [IndexError] before its summary
    line, or the summary line is printed, with the largest relative
    error as a percentage and the name of a field whose column holds
    it.  The mean of the summary line is left open: numpy adds eight
    terms and more in blocks, [add_reduce] from the left. *)
Theorem compare_case_aligned :
  forall (fields : list string) (case : string) (time : F64.t)
         (c t : matrix) (r : nat),
    fields <> [] -> 1 <= r ->
    shaped r (1 + List.length fields) c ->
    shaped r (1 + List.length fields) t ->
    exists diff mx T_err p_err,
      rel_diff (Some c) (Some t) = Ok diff
      /\ max_of_max diff = Ok mx
      /\ field_err fields "T" diff = Ok T_err
      /\ field_err fields "p" diff = Ok p_err
      /\ unsigned mx
      /\ (F64.is_nan mx = true ->
          compare_case fields case time (Some c) (Some t)
          = (opt_line MaxTemperatureError T_err
               ++ opt_line MaxPressureError p_err, Some IndexError))
      /\ (F64.is_nan mx = false ->
          exists j f row mean,
            nth_error fields j = Some f
            /\ In row (rows diff) /\ nth_error row j = Some mx
            /\ compare_case fields case time (Some c) (Some t)
               = ((opt_line MaxTemperatureError T_err
                     ++ opt_line MaxPressureError p_err)
                    ++ [RelError case time (F64.mul mx hundred) mean f],
                  None)).
Proof.
  intros fields case time c t r Hne Hr Hc Ht.
  destruct (rel_diff_aligned c t r (List.length fields) Hc Ht)
    as [diff [Hd [Hrows [Hcols Hwf]]]].
  assert (Hlen : 1 <= List.length fields).
  { destruct fields; [ congruence | simpl; lia ]. }
  destruct (max_of_max_ok diff Hwf) as [mx Hmx]; [ lia | lia | ].
  destruct (field_err_ok fields "T" diff Hwf) as [T_err HT]; [ lia | lia | ].
  destruct (field_err_ok fields "p" diff Hwf) as [p_err Hp]; [ lia | lia | ].
  exists diff, mx, T_err, p_err.
  destruct (max_of_max_In diff mx Hmx) as [row [d [Hrow [Hdin Emx]]]].
  pose proof (rel_diff_unsigned _ _ _ Hd) as Hun.
  rewrite Forall_forall in Hun. specialize (Hun row Hrow).
  rewrite Forall_forall in Hun. specialize (Hun d Hdin).
  assert (Hu : unsigned mx).
  { subst mx. apply abs_unsigned. }
  repeat split; try assumption.
  - intros Hnan. apply is_nan_eq in Hnan. unfold compare_case.
    rewrite Hd. cbn [bind]. rewrite Hmx. cbn [bind]. rewrite HT, Hp.
    rewrite Hnan, where_cols_nan. reflexivity.
  - intros Hnan.
    assert (Hdn : F64.is_nan d = false).
    { rewrite Emx, !abs_nan in Hnan. exact Hnan. }
    destruct (unsigned_fixed d Hun Hdn) as [Hfix Heq].
    assert (Emx' : mx = d). { rewrite Emx, Hfix, Hfix. reflexivity. }
    assert (Hnonempty : where_cols mx diff <> []).
    { apply (where_cols_found mx d diff row Hrow Hdin).
      rewrite Emx'. exact Heq. }
    destruct (where_cols mx diff) as [| j l] eqn:Ew; [ congruence | ].
    pose proof (where_cols_bound mx diff Hwf) as Hb.
    rewrite Ew in Hb. apply Forall_inv in Hb. rename Hb into Hj.
    destruct (where_cols_In mx diff j) as [row' [d' [Hrow' [Hn He]]]].
    { rewrite Ew. left. reflexivity. }
    destruct (nth_error fields j) as [f |] eqn:Ef;
      [ | apply nth_error_None in Ef; lia ].
    pose proof (rel_diff_unsigned _ _ _ Hd) as Hun'.
    rewrite Forall_forall in Hun'. specialize (Hun' row' Hrow').
    rewrite Forall_forall in Hun'.
    specialize (Hun' d' (nth_error_In _ _ Hn)).
    assert (Ed : d' = d).
    { clear - He Hun Hun' Hdn Emx'. subst mx.
      destruct d as [s | s | | s m e]; destruct d' as [s' | s' | | s' m' e'];
        simpl in *; subst; try discriminate; try reflexivity.
      unfold F64.eqb, SFeqb, SFcompare in He.
      destruct (Z.compare e e') eqn:Ee; try discriminate.
      apply Z.compare_eq in Ee. subst e'.
      destruct (Pos.compare_cont Eq m m') eqn:Em; try discriminate.
      apply Pos.compare_eq in Em.
      subst. reflexivity. }
    exists j, f, row', (mean_err diff). subst d'. rewrite <- Emx' in Hn.
    repeat split; try assumption.
    unfold compare_case. rewrite Hd. cbn [bind]. rewrite Hmx. cbn [bind].
    rewrite HT, Hp, Ew. unfold max_field. rewrite Ef. reflexivity.
Qed.

Lemma compare_case_aligned_witness :
  exists diff mx T_err p_err,
    rel_diff (Some matrix_T_p) (Some matrix_T_p_candidate) = Ok diff
    /\ max_of_max diff = Ok mx
    /\ field_err ["T"; "p"] "T" diff = Ok T_err
    /\ field_err ["T"; "p"] "p" diff = Ok p_err
    /\ unsigned mx
    /\ (F64.is_nan mx = true ->
        compare_case ["T"; "p"] "SandiaD_LTS_seulex" t5000
          (Some matrix_T_p) (Some matrix_T_p_candidate)
        = (opt_line MaxTemperatureError T_err
             ++ opt_line MaxPressureError p_err, Some IndexError))
    /\ (F64.is_nan mx = false ->
        exists j f row mean,
          nth_error ["T"; "p"] j = Some f
          /\ In row (rows diff) /\ nth_error row j = Some mx
          /\ compare_case ["T"; "p"] "SandiaD_LTS_seulex" t5000
               (Some matrix_T_p) (Some matrix_T_p_candidate)
             = ((opt_line MaxTemperatureError T_err
                   ++ opt_line MaxPressureError p_err)
                  ++ [RelError "SandiaD_LTS_seulex" t5000
                        (F64.mul mx hundred) mean f], None)).
Proof.
  apply (compare_case_aligned ["T"; "p"] "SandiaD_LTS_seulex" t5000
           matrix_T_p matrix_T_p_candidate 2).
  - discriminate.
  - lia.
  - repeat split. vm_compute. repeat constructor.
  - repeat split. vm_compute. repeat constructor.
Defined.

(** ** Which comparisons are reported *)

Lemma field_err_line (out : list line) (mk : F64.t -> line)
  (v : option F64.t) (case : string) (time a b : F64.t) (f : string) :
  (forall x, mk x <> RelError case time a b f) ->
  In (RelError case time a b f) (out ++ opt_line mk v) ->
  In (RelError case time a b f) out.
Proof.
  intros Hmk H. apply in_app_or in H. destruct H as [H | H]; [ exact H | ].
  destruct v as [x |]; simpl in H; [ | destruct H ].
  destruct H as [H | []]. destruct (Hmk x H).
Qed.

Lemma max_field_In (fields : list string) (loc1 : list nat) (f : string) :
  max_field fields loc1 = Ok f -> In f fields.
Proof.
  unfold max_field. destruct loc1 as [| j l]; [ discriminate | ].
  destruct (nth_error fields j) as [g |] eqn:E; [ | discriminate ].
  intros H. inversion H; subst. exact (nth_error_In _ _ E).
Qed.

Lemma compare_case_lines (fields : list string) (case : string)
  (time : F64.t) (comp test : option matrix) (out : list line)
  (e : option exn) (case' : string) (time' a b : F64.t) (f : string) :
  compare_case fields case time comp test = (out, e) ->
  In (RelError case' time' a b f) out ->
  case' = case /\ time' = time /\ In f fields /\ e = None.
Proof.
  unfold compare_case.
  destruct (bind (rel_diff comp test) _) as [[diff m] | e0];
    [ | intros H; inversion H; subst; intros [] ].
  destruct (field_err fields "T" diff) as [T_err | e0];
    [ | intros H; inversion H; subst; intros [] ].
  assert (HT : forall l, In (RelError case' time' a b f)
                           (opt_line MaxTemperatureError T_err ++ l) ->
                         In (RelError case' time' a b f) l).
  { intros l H. apply in_app_or in H. destruct H as [H | H]; [ | exact H ].
    destruct T_err; simpl in H; [ destruct H as [H | []]; discriminate | ].
    destruct H. }
  assert (Hp : forall p_err l, In (RelError case' time' a b f)
                           (opt_line MaxPressureError p_err ++ l) ->
                         In (RelError case' time' a b f) l).
  { intros p_err l H. apply in_app_or in H.
    destruct H as [H | H]; [ | exact H ].
    destruct p_err; simpl in H; [ destruct H as [H | []]; discriminate | ].
    destruct H. }
  destruct (field_err fields "p" diff) as [p_err | e0].
  - destruct (max_field fields (where_cols m diff)) as [g | e0] eqn:Eg.
    + intros H. inversion H; subst. clear H. rewrite <- app_assoc.
      intros H. apply HT, Hp in H. destruct H as [H | []].
      inversion H; subst. apply max_field_In in Eg. auto.
    + intros H. inversion H; subst. clear H. intros H.
      apply HT in H. rewrite <- (app_nil_r (opt_line _ p_err)) in H.
      apply Hp in H. destruct H.
  - intros H. inversion H; subst. clear H. intros H.
    rewrite <- (app_nil_r (opt_line _ T_err)) in H. apply HT in H.
    destruct H.
Qed.

Lemma compare_case_reports (fields : list string) (case : string)
  (time : F64.t) (comp test : option matrix) (out : list line) :
  compare_case fields case time comp test = (out, None) ->
  exists a b f, In (RelError case time a b f) out.
Proof.
  unfold compare_case.
  destruct (bind (rel_diff comp test) _) as [[diff m] | e0];
    [ | discriminate ].
  destruct (field_err fields "T" diff) as [T_err | e0]; [ | discriminate ].
  destruct (field_err fields "p" diff) as [p_err | e0]; [ | discriminate ].
  destruct (max_field fields (where_cols m diff)) as [g | e0];
    [ | discriminate ].
  intros H. inversion H. do 3 eexists. apply in_or_app. right. left.
  reflexivity.
Qed.

Lemma validate_cases_lines (fields : list string) (base : string)
  (time : F64.t) (comp : option matrix) (cases : results_t) :
  forall out e case' time' a b f,
    validate_cases fields base time comp cases = (out, e) ->
    In (RelError case' time' a b f) out ->
    case' <> base /\ time' = time /\ In f fields
    /\ exists snaps test,
         In (case', snaps) cases
         /\ dict_get key_eq time snaps = Some test.
Proof.
  induction cases as [| [case snaps] rest IH]; intros out e case' time' a b f;
    simpl.
  - intros H. inversion H. intros [].
  - assert (Hrest : forall out e,
               validate_cases fields base time comp rest = (out, e) ->
               In (RelError case' time' a b f) out ->
               case' <> base /\ time' = time /\ In f fields
               /\ exists snaps0 test,
                    ((case, snaps) = (case', snaps0) \/ In (case', snaps0) rest)
                    /\ dict_get key_eq time snaps0 = Some test).
    { intros out0 e0 H0 Hin.
      destruct (IH _ _ _ _ _ _ _ H0 Hin) as [H1 [H2 [H3 [s [t [H4 H5]]]]]].
      repeat split; try assumption. exists s, t. auto. }
    destruct (String.eqb case base) eqn:Ecb; [ apply Hrest | ].
    destruct (dict_get key_eq time snaps) as [test |] eqn:Eg;
      [ | apply Hrest ].
    destruct (compare_case fields case time comp test) as [o [e0 |]] eqn:Ec.
    + intros H. inversion H; subst. intros Hin.
      destruct (compare_case_lines _ _ _ _ _ _ _ _ _ _ _ _ Ec Hin)
        as [_ [_ [_ Habs]]]. discriminate.
    + destruct (validate_cases fields base time comp rest) as [o' e'] eqn:Er.
      intros H. inversion H; subst. intros Hin. apply in_app_or in Hin.
      destruct Hin as [Hin | Hin].
      * destruct (compare_case_lines _ _ _ _ _ _ _ _ _ _ _ _ Ec Hin)
          as [-> [-> [Hf _]]].
        apply String.eqb_neq in Ecb. repeat split; try assumption.
        exists snaps, test. auto.
      * exact (Hrest _ _ eq_refl Hin).
Qed.

Lemma validate_cases_reports (fields : list string) (base : string)
  (time : F64.t) (comp : option matrix) (cases : results_t) :
  forall out case snaps test,
    validate_cases fields base time comp cases = (out, None) ->
    In (case, snaps) cases -> case <> base ->
    dict_get key_eq time snaps = Some test ->
    exists a b f, In (RelError case time a b f) out.
Proof.
  induction cases as [| [case0 snaps0] rest IH]; intros out case snaps test;
    simpl.
  - intros _ [].
  - intros H Hin Hne Hg.
    assert (Hrest : forall out0,
               validate_cases fields base time comp rest = (out0, None) ->
               In (case, snaps) rest ->
               exists a b f, In (RelError case time a b f) out0).
    { intros out0 H0 Hin0. exact (IH _ _ _ _ H0 Hin0 Hne Hg). }
    destruct (String.eqb case0 base) eqn:Ecb.
    { destruct Hin as [Hin | Hin]; [ | exact (Hrest _ H Hin) ].
      inversion Hin; subst. apply String.eqb_eq in Ecb. contradiction. }
    destruct (dict_get key_eq time snaps0) as [test0 |] eqn:Eg0.
    + destruct (compare_case fields case0 time comp test0)
        as [o [e0 |]] eqn:Ec; [ discriminate | ].
      destruct (validate_cases fields base time comp rest) as [o' e'] eqn:Er.
      inversion H; subst.
      destruct Hin as [Hin | Hin].
      * inversion Hin; subst.
        destruct (compare_case_reports _ _ _ _ _ _ Ec) as [a [b [f Hl]]].
        exists a, b, f. apply in_or_app. left. exact Hl.
      * destruct (Hrest _ eq_refl Hin) as [a [b [f Hl]]].
        exists a, b, f. apply in_or_app. right. exact Hl.
    + destruct Hin as [Hin | Hin]; [ | exact (Hrest _ H Hin) ].
      inversion Hin; subst. congruence.
Qed.

(** X16. Every summary line that [validate] prints, also in a run
    that an exception ends, is for a requested time at which the
    baseline has data, and for a case other than the baseline that has
    data at that time; the field it names is one of [fields]. *)
Theorem validate_reports_only_cases_with_data :
  forall (times : list F64.t) (results : results_t) (fields : list string)
         (base : string) (out : list line) (e : option exn)
         (case : string) (time a b : F64.t) (f : string),
    validate times results fields base = (out, e) ->
    In (RelError case time a b f) out ->
    case <> base /\ In time times /\ In f fields
    /\ (exists comp, baseline results base time = Ok comp)
    /\ exists snaps test,
         In (case, snaps) results
         /\ dict_get key_eq time snaps = Some test.
Proof.
  intros times results fields base. induction times as [| t0 rest IH];
    intros out e case time a b f; simpl.
  - intros H. inversion H. intros [].
  - destruct (baseline results base t0) as [comp | e0] eqn:Eb;
      [ | intros H; inversion H; intros [] ].
    assert (Hhere : forall o e1,
               validate_cases fields base t0 comp results = (o, e1) ->
               In (RelError case time a b f) o ->
               case <> base /\ (t0 = time \/ In time rest) /\ In f fields
               /\ (exists comp, baseline results base time = Ok comp)
               /\ exists snaps test,
                    In (case, snaps) results
                    /\ dict_get key_eq time snaps = Some test).
    { intros o e1 Hv Hin.
      destruct (validate_cases_lines _ _ _ _ _ _ _ _ _ _ _ _ Hv Hin)
        as [H1 [-> [H3 [s [t [H4 H5]]]]]].
      repeat split; auto. - exists comp. exact Eb. - exists s, t. auto. }
    destruct (validate_cases fields base t0 comp results) as [o [e1 |]] eqn:Ev.
    + intros H. inversion H; subst. apply (Hhere _ _ eq_refl).
    + destruct (validate rest results fields base) as [o' e'] eqn:Er.
      intros H. inversion H; subst. intros Hin. apply in_app_or in Hin.
      destruct Hin as [Hin | Hin]; [ exact (Hhere _ _ eq_refl Hin) | ].
      destruct (IH _ _ _ _ _ _ _ eq_refl Hin) as [H1 [H2 [H3 [H4 H5]]]].
      repeat split; auto.
Qed.

Lemma validate_reports_only_cases_with_data_witness :
  "SandiaD_LTS_seulex" <> default_base /\ In t5000 [t5000]
  /\ In "T" ["T"; "p"]
  /\ (exists comp, baseline scenario_results default_base t5000 = Ok comp)
  /\ exists snaps test,
       In ("SandiaD_LTS_seulex", snaps) scenario_results
       /\ dict_get key_eq t5000 snaps = Some test.
Proof.
  eapply (validate_reports_only_cases_with_data [t5000] scenario_results
            ["T"; "p"] default_base
            (fst (validate [t5000] scenario_results ["T"; "p"] default_base))
            (snd (validate [t5000] scenario_results ["T"; "p"] default_base))).
  - vm_compute. reflexivity.
  - vm_compute. right. right. left. reflexivity.
Defined.

(** X17. When [validate] completes, it has printed a summary line for
    every requested time and every case other than the baseline that
    has data at that time. *)
Theorem validate_reports_every_case_with_data :
  forall (times : list F64.t) (results : results_t) (fields : list string)
         (base : string) (out : list line)
         (case : string) (time : F64.t) (snaps : snapshots)
         (test : option matrix),
    validate times results fields base = (out, None) ->
    In time times -> In (case, snaps) results -> case <> base ->
    dict_get key_eq time snaps = Some test ->
    exists a b f, In (RelError case time a b f) out.
Proof.
  intros times results fields base. induction times as [| t0 rest IH];
    intros out case time snaps test; simpl.
  - intros _ [].
  - intros H Hin Hc Hne Hg.
    destruct (baseline results base t0) as [comp | e0]; [ | discriminate ].
    destruct (validate_cases fields base t0 comp results)
      as [o [e1 |]] eqn:Ev; [ discriminate | ].
    destruct (validate rest results fields base) as [o' e'] eqn:Er.
    inversion H; subst.
    destruct Hin as [-> | Hin].
    + destruct (validate_cases_reports _ _ _ _ _ _ _ _ _ Ev Hc Hne Hg)
        as [a [b [f Hl]]].
      exists a, b, f. apply in_or_app. left. exact Hl.
    + destruct (IH _ _ _ _ _ eq_refl Hin Hc Hne Hg) as [a [b [f Hl]]].
      exists a, b, f. apply in_or_app. right. exact Hl.
Qed.

Lemma validate_reports_every_case_with_data_witness :
  exists a b f,
    In (RelError "SandiaD_LTS_seulex" t5000 a b f)
      (fst (validate [t5000] scenario_results ["T"; "p"] default_base)).
Proof.
  apply (validate_reports_every_case_with_data [t5000] scenario_results
           ["T"; "p"] default_base _ "SandiaD_LTS_seulex" t5000
           [(t5000, Some matrix_T_p_candidate)]
           (Some matrix_T_p_candidate)).
  - vm_compute. reflexivity.
  - left. reflexivity.
  - right. left. reflexivity.
  - discriminate.
  - vm_compute. reflexivity.
Defined.

(** ** The extraction driver *)

Section Extraction.

Variable w : world.

Lemma appends_run (P : action -> Prop) (a : action)
  (k : string -> trace -> trace * option failure) :
  P a -> (forall out, appends w P (k out)) -> appends w P (run w a k).
Proof.
  intros Ha Hk tr. unfold run. destruct (w tr a) as [out | e] eqn:E.
  - destruct (Hk out (tr ++ [(a, Returns out)])) as [ext [H1 [H2 H3]]].
    exists ((a, Returns out) :: ext). rewrite H1, <- app_assoc.
    split; [ reflexivity | ]. split; [ | exact H3 ].
    constructor; assumption.
  - exists [(a, Fails e)]. split; [ reflexivity | ].
    split; [ repeat constructor; exact Ha | ].
    simpl. intros e' H. inversion H; subst. exists tr, a. exact E.
Qed.

Lemma appends_batches (targs : list string) (batches : list (list string)) :
  appends w (fun a => is_chdir a = false) (extract_batches w targs batches).
Proof.
  induction batches as [| f rest IH]; simpl.
  - intros tr. exists []. rewrite app_nil_r.
    split; [ reflexivity | ]. split; [ constructor | discriminate ].
  - repeat (apply appends_run; [ reflexivity | intros ? ]). exact IH.
Qed.

Lemma appends_try (fields targs : list string) (force : bool) :
  appends w (fun a => is_chdir a = false) (extract_try w fields targs force).
Proof.
  unfold extract_try. apply appends_run; [ reflexivity | intros _ ].
  apply appends_batches.
Qed.

Lemma cwd_after_app (start : string) (tr ext : trace) :
  cwd_after start (tr ++ ext) = cwd_after (cwd_after start tr) ext.
Proof. unfold cwd_after. apply fold_left_app. Qed.

Lemma cwd_after_stays (start : string) (ext : trace) :
  Forall (fun ar => is_chdir (fst ar) = false) ext ->
  cwd_after start ext = start.
Proof.
  revert start. induction ext as [| [a r] ext IH]; intros start H.
  - reflexivity.
  - inversion H as [| ? ? Ha Hext]; subst. simpl in Ha.
    unfold cwd_after. simpl. destruct a; try discriminate; apply IH, Hext.
Qed.

Section Cases.

Variable home : string.
Variable fields targs : list string.
Variable force : bool.

Lemma extract_case_cwd (start case : string) (tr : trace) :
  is_abs home = true ->
  (forall tr', exists out, w tr' (chdir home) = Returns out) ->
  let tr' := fst (extract_case w home fields targs force case tr) in
  cwd_after start tr' = home \/ cwd_after start tr' = cwd_after start tr.
Proof.
  intros Habs Hhome. unfold extract_case, run.
  destruct (w tr (chdir case)) as [out | e].
  - destruct (appends_try fields targs force (tr ++ [(chdir case, Returns out)]))
      as [ext [H1 _]].
    destruct (extract_try w fields targs force
                (tr ++ [(chdir case, Returns out)])) as [tr2 e].
    simpl in H1. subst tr2.
    destruct (Hhome ((tr ++ [(chdir case, Returns out)]) ++ ext)) as [o Ho].
    rewrite Ho. left. cbn [fst]. rewrite cwd_after_app.
    unfold cwd_after at 1. simpl. rewrite Habs. reflexivity.
  - right. cbn [fst]. rewrite cwd_after_app. reflexivity.
Qed.

Lemma extract_cases_cwd (cases : list string) :
  is_abs home = true ->
  (forall tr', exists out, w tr' (chdir home) = Returns out) ->
  forall tr,
    cwd_after home tr = home ->
    cwd_after home (fst (extract_cases w home fields targs force cases tr))
    = home.
Proof.
  intros Habs Hhome. induction cases as [| case rest IH]; intros tr Htr.
  - exact Htr.
  - simpl.
    pose proof (extract_case_cwd home case tr Habs Hhome) as Hc.
    destruct (extract_case w home fields targs force case tr)
      as [tr' [e |]]; cbn [fst] in *.
    + destruct Hc as [Hc | Hc]; congruence.
    + apply IH. destruct Hc as [Hc | Hc]; congruence.
Qed.



(** *** After a failure *)

Lemma home_after_failure_snoc (tr : trace) (a : action) (r : response) :
  home_after_failure home tr -> last_returns tr \/ a = chdir home ->
  home_after_failure home (tr ++ [(a, r)]).
Proof.
  intros Htr Hlast pre a0 e b r0 post E.
  destruct (rev post) as [| x rpost] eqn:Ep.
  - apply (f_equal (@rev _)) in Ep. rewrite rev_involutive in Ep.
    simpl in Ep. subst post.
    change (pre ++ (a0, Fails e) :: [(b, r0)])
      with (pre ++ [(a0, Fails e)] ++ [(b, r0)]) in E.
    rewrite app_assoc in E. apply app_inj_tail in E.
    destruct E as [E1 E2]. inversion E2; subst.
    destruct Hlast as [[Hl | [tr0 [a1 [out Hl]]]] | Hl]; [ | | exact Hl ].
    + destruct pre; discriminate.
    + apply app_inj_tail in Hl. destruct Hl as [_ Hl]. discriminate.
  - apply (f_equal (@rev _)) in Ep. rewrite rev_involutive in Ep.
    simpl in Ep. subst post.
    change (pre ++ (a0, Fails e) :: (b, r0) :: rev rpost ++ [x])
      with (pre ++ ((a0, Fails e) :: (b, r0) :: rev rpost) ++ [x]) in E.
    rewrite app_assoc in E. apply app_inj_tail in E.
    destruct E as [E1 _]. exact (Htr _ _ _ _ _ _ E1).
Qed.

Lemma last_returns_snoc (tr : trace) (a : action) (out : string) :
  last_returns (tr ++ [(a, Returns out)]).
Proof. right. exists tr, a, out. reflexivity. Qed.

Lemma careful_run (a : action)
  (k : string -> trace -> trace * option failure) :
  (forall out, careful home (k out)) -> careful home (run w a k).
Proof.
  intros Hk tr Htr Hl. unfold run. destruct (w tr a) as [out | e].
  - apply Hk.
    + apply home_after_failure_snoc; auto.
    + apply last_returns_snoc.
  - simpl. split; [ | discriminate ].
    apply home_after_failure_snoc; auto.
Qed.

Lemma careful_batches (batches : list (list string)) :
  careful home (extract_batches w targs batches).
Proof.
  induction batches as [| f rest IH]; simpl.
  - intros tr Htr Hl. auto.
  - repeat (apply careful_run; intros ?). exact IH.
Qed.

Lemma careful_case (case : string) :
  careful home (extract_case w home fields targs force case).
Proof.
  unfold extract_case. apply careful_run. intros _ tr1 H1 Hl1.
  assert (Htry : careful home (extract_try w fields targs force)).
  { unfold extract_try. apply careful_run. intros _.
    apply careful_batches. }
  destruct (Htry tr1 H1 Hl1) as [H2 _].
  destruct (extract_try w fields targs force tr1) as [tr2 e].
  cbn [fst] in H2. unfold run.
  destruct (w tr2 (chdir home)) as [out | e'].
  - cbn [fst snd]. split.
    + apply home_after_failure_snoc; auto.
    + intros _. apply last_returns_snoc.
  - cbn [fst snd]. split; [ | discriminate ].
    apply home_after_failure_snoc; auto.
Qed.

Lemma careful_cases (cases : list string) :
  careful home (extract_cases w home fields targs force cases).
Proof.
  induction cases as [| case rest IH]; simpl.
  - intros tr Htr Hl. auto.
  - intros tr Htr Hl.
    destruct (careful_case case tr Htr Hl) as [H1 H2].
    destruct (extract_case w home fields targs force case tr)
      as [tr' [e |]]; cbn [fst snd] in *.
    + split; [ exact H1 | discriminate ].
    + apply IH; auto.
Qed.

End Cases.

End Extraction.

(** X18. [extract] leaves the process in the directory it started
    from, whatever the commands of the cases answer, also when an
    exception that it does not catch ends it; this takes that the way
    back is never refused. *)
Theorem extract_restores_cwd :
  forall (T : Type) (w : world) (str : T -> string) (home : string)
         (entries : list case_dir) (fields : list string)
         (timelist : list T) (caselist : list string) (force : bool),
    is_abs home = true ->
    (forall tr, exists out, w tr (chdir home) = Returns out) ->
    cwd_after home
      (fst (extract w str home entries fields timelist caselist force))
    = home.
Proof.
  intros T w str home entries fields timelist caselist force Habs Hhome.
  unfold extract. apply extract_cases_cwd; auto.
Qed.

Lemma extract_restores_cwd_witness :
  cwd_after "/runs"
    (fst (extract world_ok str_Z "/runs" entries_two ["T"; "p"]
            [5000%Z] [] false))
  = "/runs".
Proof.
  apply (extract_restores_cwd Z world_ok str_Z "/runs" entries_two
           ["T"; "p"] [5000%Z] [] false).
  - reflexivity.
  - intros tr. exists EmptyString. reflexivity.
Defined.



(** X20. Within a case nothing is attempted after a failure: in what
    [extract] does, whatever follows a failed action is the return to
    the working directory. *)
Theorem extract_stops_case_at_failure :
  forall (T : Type) (w : world) (str : T -> string) (home : string)
         (entries : list case_dir) (fields : list string)
         (timelist : list T) (caselist : list string) (force : bool)
         (pre post : trace) (a b : action) (e : failure) (r : response),
    fst (extract w str home entries fields timelist caselist force)
    = pre ++ (a, Fails e) :: (b, r) :: post ->
    b = chdir home.
Proof.
  intros T w str home entries fields timelist caselist force pre post a b e r.
  unfold extract.
  destruct (careful_cases w home fields (time_args str timelist) force
              (valid_cases entries caselist) []) as [H _].
  - intros pre' a' e' b' r' post' E. destruct pre'; discriminate.
  - left. reflexivity.
  - intros E. exact (H _ _ _ _ _ _ E).
Qed.

Lemma extract_stops_case_at_failure_witness :
  chdir "/runs" = chdir "/runs".
Proof.
  apply (extract_stops_case_at_failure Z world_bare str_Z "/runs"
           entries_two ["T"; "p"] [5000%Z] [] false
           [(chdir "SandiaD_LTS", Returns EmptyString)]
           [(chdir "SandiaD_LTS_seulex", Returns EmptyString);
            (check_call ["reconstructPar"; "-newTimes"; "-time"; "5000"],
             Fails NotFound);
            (chdir "/runs", Returns EmptyString)]
           (check_call ["reconstructPar"; "-newTimes"; "-time"; "5000"])
           (chdir "/runs") NotFound (Returns EmptyString)).
  vm_compute. reflexivity.
Defined.
